(** * DeepScraper: a shallow embedding of the deep-scrape API route

    The route file defines text helpers ([cleanText], [extractJsonLd]), the
    content analyzer [analyzeHtmlForQuery] and the class [DeepScraper] with
    its fetch strategies, the internal link crawl and the orchestrator
    [deepScrape].  The embedding follows the source function by function:

    - a JavaScript string is the list of its UTF-16 code units;
    - the regular expressions of the source are values of [Regex.regex], run
      by a backtracking matcher that follows the ECMAScript matcher;
    - the built-ins whose behaviour is fixed by the platform and not by this
      repository ([toLowerCase], [JSON], [URL]) are the fields of the class
      [Platform];
    - the network is an oracle [World] that answers each call from the
      history of the events before it;
    - a method of [DeepScraper] is a function in a state monad over the
      scraper's [visited] set, the [debug] object and the event history;
    - [run] is what the handler [POST] does with a query it has validated
      and trimmed: a new scraper, a new [debug] object, one [deepScrape].

    The definitions come first; the properties follow, from the tokens of
    a query and the effect of each method up to the whole run. *)

From Stdlib Require Import ZArith NArith QArith String Ascii List.
From stdpp Require Import base option list gmap sets pretty.
Import ListNotations.

Open Scope nat_scope.

(** ** JavaScript strings *)

Abbreviation jsstring := (list N).

Module JsString.

(** A source literal, as code units. *)
Definition lit (s : string) : jsstring :=
  map N_of_ascii (list_ascii_of_string s).

(** [`${n}`] for a non-negative integer. *)
Definition of_nat (n : nat) : jsstring := lit (pretty (N.of_nat n)).

Definition of_N (n : N) : jsstring := lit (pretty n).

Definition eqb (a b : jsstring) : bool := bool_decide (a = b).

(** A string is truthy when it is not empty. *)
Definition truthy (s : jsstring) : bool :=
  match s with [] => false | _ :: _ => true end.

(** [s.substring(a, b)]: the arguments are swapped when [a > b], and both
    are clamped to the length. *)
Definition substring (s : jsstring) (a b : nat) : jsstring :=
  let lo := Nat.min a b in
  let hi := Nat.max a b in
  take (hi - lo) (drop lo s).

Fixpoint isPrefix (p s : jsstring) : bool :=
  match p, s with
  | [], _ => true
  | _ :: _, [] => false
  | a :: p', b :: s' => if N.eqb a b then isPrefix p' s' else false
  end.

(** [s.startsWith(p)] *)
Definition startsWith (s p : jsstring) : bool := isPrefix p s.

(** [s.includes(w)] *)
Fixpoint includes (s w : jsstring) : bool :=
  if isPrefix w s then true
  else match s with
       | [] => false
       | _ :: s' => includes s' w
       end.

(** [s.split(sep)] for a separator of one code unit; the result is never
    empty, and [cur] holds the fragment being read, reversed. *)
Fixpoint split_go (sep : N) (cur : jsstring) (s : jsstring) : list jsstring :=
  match s with
  | [] => [rev cur]
  | c :: s' =>
      if N.eqb c sep then rev cur :: split_go sep [] s'
      else split_go sep (c :: cur) s'
  end.

Definition split (s : jsstring) (sep : N) : list jsstring := split_go sep [] s.

(** White space and line terminators: what [\s] matches and [trim] strips. *)
Definition isSpace (c : N) : bool :=
  ((9 <=? c) && (c <=? 13) || (c =? 32) || (c =? 160) || (c =? 5760)
   || (8192 <=? c) && (c <=? 8202) || (c =? 8232) || (c =? 8233)
   || (c =? 8239) || (c =? 8287) || (c =? 12288) || (c =? 65279))%N.

Fixpoint trimStart (s : jsstring) : jsstring :=
  match s with
  | c :: s' => if isSpace c then trimStart s' else s
  | [] => []
  end.

Definition trim (s : jsstring) : jsstring :=
  rev (trimStart (rev (trimStart s))).

(** [\d] and [\w] *)
Definition isDigit (c : N) : bool := ((48 <=? c) && (c <=? 57))%N.

Definition isWord (c : N) : bool :=
  ((97 <=? c) && (c <=? 122) || (65 <=? c) && (c <=? 90)
   || isDigit c || (c =? 95))%N.

(** Line terminators, which [.] does not match without the [s] flag. *)
Definition isLineTerminator (c : N) : bool :=
  ((c =? 10) || (c =? 13) || (c =? 8232) || (c =? 8233))%N.

(** Case folding of the matcher under the [i] flag.  Every pattern of this
    program is written in ASCII, and the ECMAScript [Canonicalize] never
    maps a code unit above 127 to one below 128, so only the ASCII letters
    are folded. *)
Definition canonicalize (c : N) : N :=
  if ((97 <=? c) && (c <=? 122))%N then (c - 32)%N else c.

(** ASCII lowering: the behaviour of [toLowerCase] on ASCII text. *)
Definition asciiLower (c : N) : N :=
  if ((65 <=? c) && (c <=? 90))%N then (c + 32)%N else c.

(** Surrogates.  A string is well formed when every high surrogate is
    followed by a low one and no low surrogate stands alone: these are the
    strings on which [encodeURIComponent] returns; on the others it throws
    a [URIError]. *)
Definition isHighSurrogate (c : N) : bool := ((55296 <=? c) && (c <=? 56319))%N.

Definition isLowSurrogate (c : N) : bool := ((56320 <=? c) && (c <=? 57343))%N.

Fixpoint wellFormed (s : jsstring) : bool :=
  match s with
  | [] => true
  | c :: s' =>
      if isHighSurrogate c then
        match s' with
        | d :: s'' => isLowSurrogate d && wellFormed s''
        | [] => false
        end
      else negb (isLowSurrogate c) && wellFormed s'
  end.

End JsString.

Import JsString.

(** ** Regular expressions

    The patterns of the source use literals, classes, [.], alternation,
    greedy and lazy quantifiers, capturing groups, one back-reference and
    [\b].  The matcher is the backtracking matcher of ECMAScript in
    continuation-passing style: a continuation receives the state after a
    sub-pattern and answers with the final state of the whole match, or
    fails.  No pattern of the source has a capturing group under a
    quantifier, so the reset of captures at each iteration is not needed. *)

Module Regex.

(** The members of a character class. *)
Inductive citem :=
| CLit (c : N)
| CWordC
| CSpaceC
| CDigitC.

Inductive regex :=
| REmpty
| RSet (neg : bool) (items : list citem)
| RDot
| RSeq (a b : regex)
| RAlt (a b : regex)
| RRep (min : nat) (max : option nat) (greedy : bool) (a : regex)
| RGroup (n : nat) (a : regex)
| RBackref (n : nat)
| RWordB.

Record flags := { ignoreCase : bool; dotAll : bool }.

(** Where the matcher stands: the code unit before the position, the
    input from the position on, the position, and the captures. *)
Record mstate := {
  prev : option N;
  rest : jsstring;
  pos : nat;
  caps : list (nat * jsstring)
}.

Fixpoint capture (n : nat) (cs : list (nat * jsstring)) : option jsstring :=
  match cs with
  | [] => None
  | (m, w) :: cs' => if Nat.eqb n m then Some w else capture n cs'
  end.

Section Matcher.
Variable fl : flags.

Definition sameChar (c d : N) : bool :=
  if ignoreCase fl then N.eqb (canonicalize c) (canonicalize d)
  else N.eqb c d.

Definition itemMatch (c : N) (it : citem) : bool :=
  match it with
  | CLit d => sameChar c d
  | CWordC => isWord c
  | CSpaceC => isSpace c
  | CDigitC => isDigit c
  end.

Definition advance (s : mstate) : option (N * mstate) :=
  match rest s with
  | [] => None
  | c :: r =>
      Some (c, {| prev := Some c; rest := r; pos := S (pos s); caps := caps s |})
  end.

(** The back-reference: the captured text, read again at the position. *)
Fixpoint readAgain (w : jsstring) (s : mstate) : option mstate :=
  match w with
  | [] => Some s
  | d :: w' =>
      match advance s with
      | Some (c, s') => if sameChar c d then readAgain w' s' else None
      | None => None
      end
  end.

Definition atMax (mx : option nat) (cnt : nat) : bool :=
  match mx with
  | Some m => Nat.leb m cnt
  | None => false
  end.

Definition wordAt (c : option N) : bool :=
  match c with Some c => isWord c | None => false end.

(** The matcher of a quantified atom [m], after [cnt] iterations.  An
    iteration past the minimum that consumes nothing fails; as each other
    iteration consumes input, [min + length input + 1] units of [fuel] are
    never used up. *)
Fixpoint repeatMatcher (m : (mstate -> option mstate) -> mstate -> option mstate)
    (mn : nat) (mx : option nat) (greedy : bool) (k : mstate -> option mstate)
    (fuel cnt : nat) (s : mstate) {struct fuel} : option mstate :=
  match fuel with
  | O => None
  | S fuel' =>
      let more :=
        if atMax mx cnt then None
        else m (fun s' =>
                  if Nat.leb mn cnt && Nat.eqb (pos s') (pos s) then None
                  else repeatMatcher m mn mx greedy k fuel' (S cnt) s') s in
      if Nat.ltb cnt mn then more
      else if greedy then
        match more with Some e => Some e | None => k s end
      else
        match k s with Some e => Some e | None => more end
  end.

Fixpoint rmatch (r : regex) (k : mstate -> option mstate) (s : mstate)
  {struct r} : option mstate :=
  match r with
  | REmpty => k s
  | RSet neg items =>
      match advance s with
      | Some (c, s') =>
          if xorb neg (existsb (itemMatch c) items) then k s' else None
      | None => None
      end
  | RDot =>
      match advance s with
      | Some (c, s') =>
          if dotAll fl || negb (isLineTerminator c) then k s' else None
      | None => None
      end
  | RSeq a b => rmatch a (rmatch b k) s
  | RAlt a b =>
      match rmatch a k s with
      | Some e => Some e
      | None => rmatch b k s
      end
  | RRep mn mx greedy a =>
      repeatMatcher (rmatch a) mn mx greedy k (S (mn + length (rest s))) 0 s
  | RGroup n a =>
      rmatch a
        (fun s' =>
           k {| prev := prev s'; rest := rest s'; pos := pos s';
                caps := (n, take (pos s' - pos s) (rest s)) :: caps s' |}) s
  | RBackref n =>
      match capture n (caps s) with
      | None => k s
      | Some w =>
          match readAgain w s with
          | Some s' => k s'
          | None => None
          end
      end
  | RWordB =>
      if xorb (wordAt (prev s)) (wordAt (head (rest s))) then k s else None
  end.

(** The leftmost match at or after the position: its start and end. *)
Fixpoint search (r : regex) (p : option N) (s : jsstring) (i : nat)
  : option (mstate * mstate) :=
  let st := {| prev := p; rest := s; pos := i; caps := [] |} in
  match rmatch r Some st with
  | Some e => Some (st, e)
  | None =>
      match s with
      | [] => None
      | c :: s' => search r (Some c) s' (S i)
      end
  end.

Definition matched (st e : mstate) : jsstring :=
  take (pos e - pos st) (rest st).

(** All matches from left to right, each with the text between it and
    the match before, and the text after the last match.  After an
    empty match the scan moves one code unit on. *)
Fixpoint scan (fuel : nat) (r : regex) (p : option N) (s : jsstring) (i : nat)
  : list (jsstring * (jsstring * list (nat * jsstring))) * jsstring :=
  match fuel with
  | O => ([], s)
  | S fuel' =>
      match search r p s i with
      | None => ([], s)
      | Some (st, e) =>
          let before := take (pos st - i) s in
          let m := (matched st e, caps e) in
          if Nat.eqb (pos e) (pos st) then
            match rest e with
            | [] => ([(before, m)], [])
            | c :: s' =>
                match scan fuel' r (Some c) s' (S (pos e)) with
                | ([], tl) => ([(before, m)], c :: tl)
                | ((b, m') :: segs, tl) => ((before, m) :: (c :: b, m') :: segs, tl)
                end
            end
          else
            let '(segs, tl) := scan fuel' r (prev e) (rest e) (pos e) in
            ((before, m) :: segs, tl)
      end
  end.

End Matcher.

Definition scanAll (fl : flags) (r : regex) (s : jsstring) :=
  scan fl (S (length s)) r None s 0.

(** [s.match(r)] with the [g] flag: the matched texts, or [null]. *)
Definition matchAll (fl : flags) (r : regex) (s : jsstring) : option (list jsstring) :=
  match fst (scanAll fl r s) with
  | [] => None
  | segs => Some (map (fun seg => fst (snd seg)) segs)
  end.

(** [s.replace(r, by)] with the [g] flag and a replacement without [$]. *)
Definition replaceAll (fl : flags) (r : regex) (s : jsstring) (by_ : jsstring) : jsstring :=
  let '(segs, tl) := scanAll fl r s in
  concat (map (fun seg => fst seg ++ by_) segs) ++ tl.

(** [s.match(r)] without the [g] flag: the first match and its captures. *)
Definition matchFirst (fl : flags) (r : regex) (s : jsstring)
  : option (jsstring * list (nat * jsstring)) :=
  match search fl r None s 0 with
  | Some (st, e) => Some (matched st e, caps e)
  | None => None
  end.

(** [r.test(s)] *)
Definition test (fl : flags) (r : regex) (s : jsstring) : bool :=
  match search fl r None s 0 with Some _ => true | None => false end.

(** Pattern syntax. *)
Definition chr (c : ascii) : regex := RSet false [CLit (N_of_ascii c)].

Fixpoint str (s : string) : regex :=
  match s with
  | EmptyString => REmpty
  | String c EmptyString => chr c
  | String c s' => RSeq (chr c) (str s')
  end.

Fixpoint seq (rs : list regex) : regex :=
  match rs with
  | [] => REmpty
  | [r] => r
  | r :: rs' => RSeq r (seq rs')
  end.

Fixpoint alt (rs : list regex) : regex :=
  match rs with
  | [] => REmpty
  | [r] => r
  | r :: rs' => RAlt r (alt rs')
  end.

Definition oneOf (s : string) : regex :=
  RSet false (map (fun c => CLit (N_of_ascii c)) (list_ascii_of_string s)).

Definition noneOf (s : string) : regex :=
  RSet true (map (fun c => CLit (N_of_ascii c)) (list_ascii_of_string s)).

Definition star (r : regex) : regex := RRep 0 None true r.
Definition lazyStar (r : regex) : regex := RRep 0 None false r.
Definition plus (r : regex) : regex := RRep 1 None true r.
Definition opt (r : regex) : regex := RRep 0 (Some 1) true r.

Definition word : regex := RSet false [CWordC].
Definition space : regex := RSet false [CSpaceC].
Definition digit : regex := RSet false [CDigitC].

Definition noFlags : flags := {| ignoreCase := false; dotAll := false |}.
Definition flagI : flags := {| ignoreCase := true; dotAll := false |}.
Definition flagS : flags := {| ignoreCase := false; dotAll := true |}.
Definition flagIS : flags := {| ignoreCase := true; dotAll := true |}.

End Regex.

Import Regex.

(** ** The platform

    A thrown exception is a value: [Throw message] stands for an [Error]
    whose [message] the [catch] blocks of the source read. *)

Inductive completion (A : Type) :=
| Normal (a : A)
| Throw (message : jsstring).

Arguments Normal {A} a.
Arguments Throw {A} message.

(** The built-ins the source calls and does not define.  [JSON_parse] is
    [None] where [JSON.parse] throws (no [catch] of the source reads that
    message); [URL_hostname u] is [new URL(u).hostname] and
    [URL_resolve href base] is [new URL(href, base).toString()];
    [URIError_message] is the message of the [URIError] that
    [encodeURIComponent] throws, which the engine chooses. *)
Class Platform := {
  toLowerCase : jsstring -> jsstring;
  json : Type;
  JSON_parse : jsstring -> option json;
  JSON_stringify : json -> jsstring;
  URL_hostname : jsstring -> completion jsstring;
  URL_resolve : jsstring -> jsstring -> completion jsstring;
  URIError_message : jsstring
}.

(** What the scraper does that the world can see, in order: the calls to the
    four collaborators, and the insertions into [visited]. *)
Inductive Event :=
| EvVisit (url : jsstring)
| EvSearch (query : jsstring)
| EvDirect (url : jsstring)
| EvRender (url : jsstring)
| EvSynth (query context : jsstring).

(** The outcome of one [await fetch(...)] and of reading the body: the
    promise rejects (network error, DNS failure, abort on timeout), or a
    response arrives with its [ok] flag and status, whose body is read or
    fails to be read. *)
Inductive Reply (B : Type) :=
| Rejected (message : jsstring)
| Answered (ok : bool) (status : N) (body : completion B).

Arguments Rejected {B} message.
Arguments Answered {B} ok status body.

(** The network.  Each reply may depend on everything that happened before.
    The body of the search integration is the list of the [link]s of
    [items] ([None] when [items] is missing); the body of the answer
    integration is [choices[0]?.message?.content] ([None] when undefined). *)
Record World := {
  searchReply : list Event -> jsstring -> Reply (option (list jsstring));
  directReply : list Event -> jsstring -> Reply jsstring;
  renderReply : list Event -> jsstring -> Reply jsstring;
  synthReply : list Event -> jsstring -> jsstring -> Reply (option jsstring)
}.

(** ** Config *)

Definition MAX_SEARCH_RESULTS : nat := 8.
Definition MAX_CRAWL_DEPTH : nat := 2.

(** ** Values and objects *)

(** The object [debug] of the route handler. *)
Record Debug := {
  steps : list jsstring;
  search_results : list jsstring
}.

Inductive jsval :=
| VBool (b : bool)
| VNumber (q : Q)
| VString (s : jsstring)
| VNull
| VDebug (d : Debug).

(** An object literal: its properties, in the order they are written. *)
Abbreviation object := (list (string * jsval)).

Fixpoint getProp (o : object) (key : string) : option jsval :=
  match o with
  | [] => None
  | (k, v) :: o' => if String.eqb k key then Some v else getProp o' key
  end.

Definition hasProp (o : object) (key : string) : bool :=
  match getProp o key with Some _ => true | None => false end.

(** The objects [{ snippet, score }] of the analyzer and of the runtime
    inspection, and [{ ...analysis, source }] of the link crawl. *)
Record Analysis := {
  snippet : jsstring;
  score : Q
}.

Record Sourced := {
  found_snippet : jsstring;
  found_score : Q;
  source : jsstring
}.

Definition withSource (a : Analysis) (src : jsstring) : Sourced :=
  {| found_snippet := snippet a; found_score := score a; source := src |}.

Definition Qltb (a b : Q) : bool := negb (Qle_bool b a).

(** ** The patterns of the source *)

Module Patterns.

(** In the comments below [Q] stands for the double and the single quote,
    which the source writes as a class of two characters. *)
Definition quote : regex := RSet false [CLit 34; CLit 39].
Definition notQuote : regex := RSet true [CLit 34; CLit 39].

(** [/\s+/g] *)
Definition spaces : regex := plus space.

(** [/<(script|style|noscript)[^>]*>.*?<\/\1>/gis] *)
Definition scriptStyleBlock : regex :=
  seq [chr "<"; RGroup 1 (alt [str "script"; str "style"; str "noscript"]);
       star (noneOf ">"); chr ">"; lazyStar RDot; str "</"; RBackref 1; chr ">"].

(** [/<[^>]*>/g] *)
Definition tag : regex := seq [chr "<"; star (noneOf ">"); chr ">"].

(** [/\b\w{2,}\b/g] *)
Definition queryWord : regex := seq [RWordB; RRep 2 None true word; RWordB].

(** [/<script[^>]*type=[Q](application\/ld\+json)[Q][^>]*>(.*?)<\/script>/gs] *)
Definition jsonLdScript : regex :=
  seq [str "<script"; star (noneOf ">"); str "type="; quote;
       RGroup 1 (str "application/ld+json"); quote; star (noneOf ">"); chr ">";
       RGroup 2 (lazyStar RDot); str "</script>"].

(** [/<script[^>]*>|<\/script>/g] *)
Definition scriptTags : regex :=
  RAlt (seq [str "<script"; star (noneOf ">"); chr ">"]) (str "</script>").

(** [/data-(?:price|value|last|current)[^>]*?=[Q]([^Q]*?)[Q]/gi] *)
Definition dataAttribute : regex :=
  seq [str "data-"; alt [str "price"; str "value"; str "last"; str "current"];
       lazyStar (noneOf ">"); chr "="; quote; RGroup 1 (lazyStar notQuote); quote].

(** [/=[Q]([^Q]*?)[Q]/] *)
Definition attributeValue : regex :=
  seq [chr "="; quote; RGroup 1 (lazyStar notQuote); quote].

(** [/\$?\d/] *)
Definition moneyLike : regex := seq [opt (chr "$"); digit].

(** [/<script[^>]*>(.*?)<\/script>/gis] *)
Definition scriptBlock : regex :=
  seq [str "<script"; star (noneOf ">"); chr ">"; RGroup 1 (lazyStar RDot);
       str "</script>"].

(** The tail [\s*=\s*({.*?});] of the four window-variable patterns. *)
Definition assignedObject : regex :=
  seq [star space; chr "="; star space;
       RGroup 1 (seq [chr "{"; lazyStar RDot; chr "}"]); chr ";"].

(** [windowVarPatterns] *)
Definition windowVarPatterns : list regex :=
  [ RSeq (str "__INITIAL_STATE__") assignedObject;
    RSeq (str "__PRELOADED_STATE__") assignedObject;
    RSeq (str "__NEXT_DATA__") assignedObject;
    seq [str "window"; chr "."; plus word; assignedObject] ].

(** [/<a[^>]*href=[Q]([^Q]*?)[Q][^>]*>/gi] *)
Definition anchor : regex :=
  seq [str "<a"; star (noneOf ">"); str "href="; quote;
       RGroup 1 (lazyStar notQuote); quote; star (noneOf ">"); chr ">"].

(** [/href=[Q]([^Q]*?)[Q]/i] *)
Definition hrefAttribute : regex :=
  seq [str "href="; quote; RGroup 1 (lazyStar notQuote); quote].

End Patterns.

(** ** Helper functions *)

Section Helpers.
Context `{Platform}.

(** [cleanText(text, maxLen)] *)
Definition cleanText (text : jsstring) (maxLen : nat) : jsstring :=
  let cleaned := trim (replaceAll noFlags Patterns.spaces text (lit " ")) in
  if Nat.ltb maxLen (length cleaned)
  then substring cleaned 0 maxLen ++ lit "..."
  else cleaned.

(** [extractJsonLd(html)]: the blocks that [JSON.parse] accepts, in order;
    a block that fails to parse is skipped. *)
Definition parseJsonLdBlock (m : jsstring) : option json :=
  let jsonContent := trim (replaceAll noFlags Patterns.scriptTags m []) in
  JSON_parse jsonContent.

Definition extractJsonLd (html : jsstring) : list json :=
  match matchAll flagS Patterns.jsonLdScript html with
  | Some scriptMatches => omap parseJsonLdBlock scriptMatches
  | None => []
  end.

(** [query.toLowerCase().split(' ').some(word => text.toLowerCase().includes(word))] *)
Definition someQueryWordIn (query text : jsstring) : bool :=
  existsb (fun word => includes (toLowerCase text) word)
          (split (toLowerCase query) 32).

(** ** Content analyzer *)

(** The visible text of a page. *)
Definition visibleText (html : jsstring) : jsstring :=
  let cleanHtml := replaceAll flagIS Patterns.scriptStyleBlock html [] in
  trim (replaceAll noFlags Patterns.spaces
          (replaceAll noFlags Patterns.tag cleanHtml (lit " ")) (lit " ")).

(** [query.toLowerCase().match(/\b\w{2,}\b/g) || []] *)
Definition queryWordsOf (query : jsstring) : list jsstring :=
  default [] (matchAll noFlags Patterns.queryWord (toLowerCase query)).

(** [matches / (queryWords.length + 0.0001)], as an exact rational.  The
    source computes in IEEE doubles.  The quotient is below 0.1 exactly
    when [10 * matches <= queryWords.length], and it misses 0.1 by a
    relative margin of at least [0.0001 / (queryWords.length + 0.0001)],
    far above the rounding error of a double for any number of tokens a
    string can hold: the test against the threshold has the same outcome
    on the doubles and on the rationals. *)
Definition relevance (matches total : nat) : Q :=
  inject_Z (Z.of_nat matches) / (inject_Z (Z.of_nat total) + (1 # 10000)).

(** [analyzeHtmlForQuery(html, url, query)]; [None] is [null].  No
    operation of the body throws on strings, so the [catch] is dead. *)
Definition analyzeHtmlForQuery (html url query : jsstring) : option Analysis :=
  let fullText := visibleText html in
  let queryWords := queryWordsOf query in
  if Nat.eqb (length queryWords) 0 then
    Some {| snippet := substring fullText 0 1500; score := 1 |}
  else
    let matches :=
      length (List.filter (fun word => includes (toLowerCase fullText) word) queryWords) in
    let score := relevance matches (length queryWords) in
    if Qltb score (1 # 10) then None
    else Some {| snippet := fullText; score := score |}.

End Helpers.

(** ** The class [DeepScraper] *)

(** The fields a run mutates: [this.visited], the object [debug], and the
    history of events. *)
Record State := {
  visited : gset jsstring;
  debug : Debug;
  history : list Event
}.

Definition M (A : Type) : Type := State -> A * State.

#[global] Instance M_ret : MRet M := fun A a s => (a, s).
#[global] Instance M_bind : MBind M :=
  fun A B f m s => let '(a, s') := m s in f a s'.

(** [debug.steps.push(step)] *)
Definition push (step : jsstring) : M unit :=
  fun s =>
    (tt, {| visited := visited s;
            debug := {| steps := steps (debug s) ++ [step];
                        search_results := search_results (debug s) |};
            history := history s |}).

(** [debug.search_results = results] *)
Definition setSearchResults (results : list jsstring) : M unit :=
  fun s =>
    (tt, {| visited := visited s;
            debug := {| steps := steps (debug s); search_results := results |};
            history := history s |}).

(** [this.visited.has(url)] *)
Definition visitedHas (url : jsstring) : M bool :=
  fun s => (bool_decide (url ∈ visited s), s).

(** [this.visited.add(url)] *)
Definition visitedAdd (url : jsstring) : M unit :=
  fun s =>
    (tt, {| visited := {[url]} ∪ visited s;
            debug := debug s;
            history := history s ++ [EvVisit url] |}).

(** A call to a collaborator: the reply is the world's answer to the
    history so far, and the call joins the history. *)
Definition call {B : Type} (ev : Event) (reply : list Event -> Reply B) : M (Reply B) :=
  fun s =>
    (reply (history s),
     {| visited := visited s; debug := debug s; history := history s ++ [ev] |}).

Definition getDebug : M Debug := fun s => (debug s, s).

Definition getVisited : M (gset jsstring) := fun s => (visited s, s).

(** The requests that [performSearch] sends for [query]: one, or none
    when [encodeURIComponent(query)] throws before [fetch] is called. *)
Definition searchCalls (query : jsstring) : list Event :=
  if wellFormed query then [EvSearch query] else [].

Section DeepScraper.
Context `{Platform}.
Variable W : World.

(** [performSearch(query, debug)].  The argument of [fetch] is evaluated
    first: on a query that is not well formed [encodeURIComponent] throws
    into the [catch] of the method, and no request is sent. *)
Definition performSearch (query : jsstring) : M (list jsstring) :=
  push (lit "Searching Google for relevant URLs...");;
  if negb (wellFormed query) then
    push (lit "Search error: " ++ URIError_message);; mret []
  else
    r ← call (EvSearch query) (fun h => searchReply W h query);
    match r with
    | Rejected message =>
        push (lit "Search error: " ++ message);; mret []
    | Answered false status _ =>
        push (lit "Google search failed: " ++ of_N status);; mret []
    | Answered true _ (Throw message) =>
        push (lit "Search error: " ++ message);; mret []
    | Answered true _ (Normal items) =>
        let results :=
          match items with
          | Some links => take MAX_SEARCH_RESULTS links
          | None => []
          end in
        push (lit "Found " ++ of_nat (length results) ++ lit " search results");;
        mret results
    end.

(** [fetchHtmlRequests(url, debug)]; [None] is [null].  The abort of the
    timeout rejects the promise of [fetch]. *)
Definition fetchHtmlRequests (url : jsstring) : M (option jsstring) :=
  push (lit "Fetching " ++ url ++ lit " via fast HTTP request");;
  r ← call (EvDirect url) (fun h => directReply W h url);
  match r with
  | Rejected message =>
      push (lit "Fast fetch failed for " ++ url ++ lit ": " ++ message);; mret None
  | Answered true _ (Normal html) =>
      push (lit "Successfully fetched " ++ url ++ lit " (" ++ of_nat (length html)
            ++ lit " chars)");;
      mret (Some html)
  | Answered true _ (Throw message) =>
      push (lit "Fast fetch failed for " ++ url ++ lit ": " ++ message);; mret None
  | Answered false _ _ => mret None
  end.

(** [fetchHtmlWithScraper(url, debug)] *)
Definition fetchHtmlWithScraper (url : jsstring) : M (option jsstring) :=
  push (lit "Scraping " ++ url ++ lit " with web scraper (JS rendering)");;
  r ← call (EvRender url) (fun h => renderReply W h url);
  match r with
  | Rejected message =>
      push (lit "Scraper error for " ++ url ++ lit ": " ++ message);; mret None
  | Answered false status _ =>
      push (lit "Web scraper failed for " ++ url ++ lit ": " ++ of_N status);;
      mret None
  | Answered true _ (Normal html) =>
      push (lit "Successfully scraped " ++ url ++ lit " with JS rendering ("
            ++ of_nat (length html) ++ lit " chars)");;
      mret (Some html)
  | Answered true _ (Throw message) =>
      push (lit "Scraper error for " ++ url ++ lit ": " ++ message);; mret None
  end.

(** *** Runtime inspection *)

(** Probe 1: the first JSON-LD block whose text holds a query word. *)
Fixpoint firstRelevantJson (query : jsstring) (jsonLdData : list json)
  : option jsstring :=
  match jsonLdData with
  | [] => None
  | jsonData :: more =>
      let jsonText := JSON_stringify jsonData in
      if someQueryWordIn query jsonText then Some jsonText
      else firstRelevantJson query more
  end.

(** Probe 2: the first matched data attribute whose value is not empty and
    holds a query word or a digit.  [match.match(...)[1]] throws a
    [TypeError] when the inner match is [null]. *)
Fixpoint firstDataAttribute (query : jsstring) (dataAttributeMatches : list jsstring)
  : completion (option jsstring) :=
  match dataAttributeMatches with
  | [] => Normal None
  | m :: more =>
      match matchFirst noFlags Patterns.attributeValue m with
      | None => Throw (lit "Cannot read properties of null (reading '1')")
      | Some (_, groups) =>
          let value := default [] (capture 1 groups) in
          if truthy value
             && (someQueryWordIn query value || test noFlags Patterns.moneyLike value)
          then Normal (Some value)
          else firstDataAttribute query more
      end
  end.

(** Probe 3: for one script, the first window-variable pattern whose
    captured object parses and holds a query word. *)
Fixpoint firstWindowVar (query scriptContent : jsstring) (patterns : list regex)
  : option jsstring :=
  match patterns with
  | [] => None
  | pattern :: more =>
      match matchFirst noFlags pattern scriptContent with
      | Some (_, groups) =>
          match capture 1 groups with
          | Some captured =>
              if truthy captured then
                match JSON_parse captured with
                | Some parsed =>
                    let dataText := JSON_stringify parsed in
                    if someQueryWordIn query dataText then Some dataText
                    else firstWindowVar query scriptContent more
                | None => firstWindowVar query scriptContent more
                end
              else firstWindowVar query scriptContent more
          | None => firstWindowVar query scriptContent more
          end
      | None => firstWindowVar query scriptContent more
      end
  end.

Fixpoint firstScriptData (query : jsstring) (scriptMatches : list jsstring)
  : option jsstring :=
  match scriptMatches with
  | [] => None
  | script :: more =>
      let scriptContent := replaceAll flagI Patterns.scriptTags script [] in
      match firstWindowVar query scriptContent Patterns.windowVarPatterns with
      | Some dataText => Some dataText
      | None => firstScriptData query more
      end
  end.

(** [extractFromJsRuntime(url, query, debug)] *)
Definition extractFromJsRuntime (url query : jsstring) : M (option Analysis) :=
  push (lit "Inspecting runtime data for " ++ url);;
  fetched ← fetchHtmlWithScraper url;
  match fetched with
  | None => mret None
  | Some html =>
      if negb (truthy html) then mret None
      else
        match firstRelevantJson query (extractJsonLd html) with
        | Some jsonText =>
            push (lit "Found relevant JSON-LD data in " ++ url);;
            mret (Some {| snippet := cleanText jsonText 1200; score := 9 # 10 |})
        | None =>
            match firstDataAttribute query
                    (default [] (matchAll flagI Patterns.dataAttribute html)) with
            | Throw message =>
                push (lit "Runtime inspection error for " ++ url ++ lit ": " ++ message);;
                mret None
            | Normal (Some value) =>
                push (lit "Found relevant data attribute in " ++ url ++ lit ": " ++ value);;
                mret (Some {| snippet := cleanText value 400; score := 85 # 100 |})
            | Normal None =>
                match firstScriptData query
                        (default [] (matchAll flagIS Patterns.scriptBlock html)) with
                | Some dataText =>
                    push (lit "Found relevant window variable data in " ++ url);;
                    mret (Some {| snippet := cleanText dataText 1200; score := 95 # 100 |})
                | None => mret None
                end
            end
        end
  end.

(** *** Internal link crawl *)

(** The first loop of [crawlInternalLinks]: the links kept so far are
    [internalLinks].  [new URL(href, baseUrl)] stands outside the inner
    [try], so its exception leaves the loop; [new URL(fullUrl)] stands
    inside, so its exception skips the link. *)
Fixpoint collectLinks (baseUrl baseDomain : jsstring) (seen : gset jsstring)
    (linkMatches : list jsstring) (internalLinks : list jsstring)
  : completion (list jsstring) :=
  match linkMatches with
  | [] => Normal internalLinks
  | linkMatch :: more =>
      let continue := collectLinks baseUrl baseDomain seen more internalLinks in
      let keep (fullUrl : jsstring) :=
        match URL_hostname fullUrl with
        | Throw _ => continue
        | Normal linkDomain =>
            if JsString.eqb linkDomain baseDomain && negb (bool_decide (fullUrl ∈ seen))
            then
              let internalLinks' := internalLinks ++ [fullUrl] in
              if Nat.leb 6 (length internalLinks') then Normal internalLinks'
              else collectLinks baseUrl baseDomain seen more internalLinks'
            else continue
        end in
      match matchFirst flagI Patterns.hrefAttribute linkMatch with
      | None => continue
      | Some (_, groups) =>
          let href := default [] (capture 1 groups) in
          if startsWith href (lit "/") then
            match URL_resolve href baseUrl with
            | Throw message => Throw message
            | Normal fullUrl => keep fullUrl
            end
          else if startsWith href (lit "http") then keep href
          else continue
      end
  end.

(** The link discovery of [crawlInternalLinks], from [baseDomain] to the
    end of the first loop. *)
Definition discoverLinks (baseUrl baseHtml : jsstring) (seen : gset jsstring)
  : completion (list jsstring) :=
  match URL_hostname baseUrl with
  | Throw message => Throw message
  | Normal baseDomain =>
      let linkMatches := default [] (matchAll flagI Patterns.anchor baseHtml) in
      collectLinks baseUrl baseDomain seen linkMatches []
  end.

(** The body of the second loop, after [this.visited.add(internalUrl)]. *)
Definition tryInternalLink (query internalUrl : jsstring) : M (option Sourced) :=
  html ← fetchHtmlRequests internalUrl;
  let analysis :=
    match html with
    | Some html => if truthy html then analyzeHtmlForQuery html internalUrl query else None
    | None => None
    end in
  match analysis with
  | Some analysis =>
      push (lit "Found relevant content in internal link: " ++ internalUrl);;
      mret (Some (withSource analysis internalUrl))
  | None =>
      scrapedHtml ← fetchHtmlWithScraper internalUrl;
      let analysis :=
        match scrapedHtml with
        | Some html => if truthy html then analyzeHtmlForQuery html internalUrl query else None
        | None => None
        end in
      match analysis with
      | Some analysis =>
          push (lit "Found relevant content via scraper in internal link: " ++ internalUrl);;
          mret (Some (withSource analysis internalUrl))
      | None =>
          runtimeResult ← extractFromJsRuntime internalUrl query;
          match runtimeResult with
          | Some runtimeResult =>
              push (lit "Found relevant runtime data in internal link: " ++ internalUrl);;
              mret (Some (withSource runtimeResult internalUrl))
          | None => mret None
          end
      end
  end.

Fixpoint checkLinks (query : jsstring) (internalLinks : list jsstring)
  : M (option Sourced) :=
  match internalLinks with
  | [] => mret None
  | internalUrl :: more =>
      seen ← visitedHas internalUrl;
      if (seen : bool) then checkLinks query more
      else
        visitedAdd internalUrl;;
        r ← tryInternalLink query internalUrl;
        match r with
        | Some result => mret (Some result)
        | None => checkLinks query more
        end
  end.

(** [crawlInternalLinks(baseUrl, baseHtml, query, debug)] *)
Definition crawlInternalLinks (baseUrl baseHtml query : jsstring) : M (option Sourced) :=
  if Nat.eqb MAX_CRAWL_DEPTH 0 then mret None
  else
    push (lit "Crawling internal links on " ++ baseUrl);;
    seen ← getVisited;
    match discoverLinks baseUrl baseHtml seen with
    | Throw message =>
        push (lit "Internal crawl error: " ++ message);; mret None
    | Normal internalLinks =>
        push (lit "Found " ++ of_nat (length internalLinks)
              ++ lit " internal links to check");;
        checkLinks query internalLinks
    end.

(** *** Orchestration *)

(** [generateAIAnswer(query, context, debug)].  A response that is not
    [ok] throws [AI API error: status] into the function's own [catch]. *)
Definition generateAIAnswer (query context : jsstring) : M (option jsstring) :=
  push (lit "Generating AI analysis of extracted content...");;
  r ← call (EvSynth query context) (fun h => synthReply W h query context);
  match r with
  | Rejected message =>
      push (lit "AI analysis failed: " ++ message);; mret None
  | Answered false status _ =>
      push (lit "AI analysis failed: " ++ lit "AI API error: " ++ of_N status);;
      mret None
  | Answered true _ (Throw message) =>
      push (lit "AI analysis failed: " ++ message);; mret None
  | Answered true _ (Normal (Some answer)) =>
      if truthy answer then
        push (lit "AI analysis completed successfully");; mret (Some answer)
      else
        push (lit "AI analysis returned empty result");; mret None
  | Answered true _ (Normal None) =>
      push (lit "AI analysis returned empty result");; mret None
  end.

Definition orNull (s : option jsstring) : jsval :=
  match s with Some s => VString s | None => VNull end.

(** The object returned when nothing was found. *)
Definition notFound (d : Debug) : object :=
  [ ("found"%string, VBool false); ("snippet"%string, VString []);
    ("score"%string, VNumber 0); ("source"%string, VNull);
    ("debug"%string, VDebug d) ].

(** The four successful returns of [deepScrape] have one shape: the
    answer is generated from the snippet, then the object is built. *)
Definition succeed (query snippet : jsstring) (score : Q) (source : jsstring) : M object :=
  aiAnswer ← generateAIAnswer query snippet;
  d ← getDebug;
  mret [ ("found"%string, VBool true); ("snippet"%string, VString snippet);
         ("score"%string, VNumber score); ("source"%string, VString source);
         ("answer"%string, orNull aiAnswer); ("debug"%string, VDebug d) ].

(** Truthiness of a value that is a string or [null], and [a || b]. *)
Definition isTruthy (h : option jsstring) : bool :=
  match h with Some s => truthy s | None => false end.

Definition orElse (a b : option jsstring) : option jsstring :=
  if isTruthy a then a else b.

(** The body of the loop of [deepScrape], after [this.visited.add(url)]. *)
Definition processUrl (query url : jsstring) : M (option object) :=
  push (lit "Processing " ++ url ++ lit " with multi-layer extraction");;
  fastHtml ← fetchHtmlRequests url;
  let analysis :=
    match fastHtml with
    | Some html => if truthy html then analyzeHtmlForQuery html url query else None
    | None => None
    end in
  match analysis with
  | Some analysis =>
      push (lit "Found relevant content via fast fetch: " ++ url);;
      o ← succeed query (snippet analysis) (score analysis) url;
      mret (Some o)
  | None =>
      scrapedHtml ← fetchHtmlWithScraper url;
      let analysis :=
        match scrapedHtml with
        | Some html => if truthy html then analyzeHtmlForQuery html url query else None
        | None => None
        end in
      match analysis with
      | Some analysis =>
          push (lit "Found relevant content via web scraper: " ++ url);;
          o ← succeed query (snippet analysis) (score analysis) url;
          mret (Some o)
      | None =>
          runtimeResult ← extractFromJsRuntime url query;
          match runtimeResult with
          | Some runtimeResult =>
              push (lit "Found relevant runtime data: " ++ url);;
              o ← succeed query (snippet runtimeResult) (score runtimeResult) url;
              mret (Some o)
          | None =>
              let sourceHtml := orElse scrapedHtml fastHtml in
              match sourceHtml with
              | Some html =>
                  if isTruthy sourceHtml && Nat.ltb 0 MAX_CRAWL_DEPTH then
                    internalResult ← crawlInternalLinks url html query;
                    match internalResult with
                    | Some internalResult =>
                        push (lit "Found relevant content via internal crawling: "
                              ++ source internalResult);;
                        o ← succeed query (found_snippet internalResult)
                              (found_score internalResult) (source internalResult);
                        mret (Some o)
                    | None => mret None
                    end
                  else mret None
              | None => mret None
              end
          end
      end
  end.

(** The loop of [deepScrape] over [searchResults]: [Some] is a [return]
    from inside the loop. *)
Fixpoint processUrls (query : jsstring) (searchResults : list jsstring)
  : M (option object) :=
  match searchResults with
  | [] => mret None
  | url :: more =>
      seen ← visitedHas url;
      if (seen : bool) then processUrls query more
      else
        visitedAdd url;;
        r ← processUrl query url;
        match r with
        | Some o => mret (Some o)
        | None => processUrls query more
        end
  end.

(** [deepScrape(query, debug)] *)
Definition deepScrape (query : jsstring) : M object :=
  push (lit "Starting deep scrape orchestration...");;
  searchResults ← performSearch query;
  setSearchResults searchResults;;
  if Nat.eqb (length searchResults) 0 then
    push (lit "No search results found");;
    d ← getDebug;
    mret (notFound d)
  else
    r ← processUrls query searchResults;
    match r with
    | Some o => mret o
    | None =>
        push (lit "No relevant content found in any source");;
        d ← getDebug;
        mret (notFound d)
    end.

(** The state the route handler starts a run from: [new DeepScraper()]
    and [{ steps: [], search_results: [] }]. *)
Definition freshState : State :=
  {| visited := ∅;
     debug := {| steps := []; search_results := [] |};
     history := [] |}.

(** One orchestration run, as [POST] starts it. *)
Definition run (query : jsstring) : object * State := deepScrape query freshState.

End DeepScraper.

(** ** A concrete platform and concrete worlds for the examples

    The theorems below hold for every [Platform] and every [World].  The
    examples are evaluated on [toyPlatform], which agrees with the real
    built-ins on the inputs the examples use: ASCII text, the JSON texts
    that [JSON.stringify] prints back unchanged and that [toyJson]
    recognises, and lower-case [http(s)] URLs with a plain host and path. *)

Module Toy.

(** A page text written with a backquote for the double quote. *)
Definition page (s : string) : jsstring :=
  map (fun c => if N.eqb c 96 then 34%N else c) (lit s).

Definition plainChar (c : N) : bool :=
  ((32 <=? c) && (c <=? 126) && negb (c =? 34) && negb (c =? 92))%N.

Definition isSimpleString (s : jsstring) : bool :=
  match s with
  | 34%N :: r =>
      match rev r with
      | 34%N :: body => forallb plainChar body
      | _ => false
      end
  | _ => false
  end.

Definition isInt (s : jsstring) : bool :=
  match s with
  | [48%N] => true
  | c :: r => ((49 <=? c) && (c <=? 57))%N && forallb isDigit r && Nat.leb (length r) 14
  | [] => false
  end.

Definition isAtom (s : jsstring) : bool :=
  JsString.eqb s (lit "true") || JsString.eqb s (lit "false")
  || JsString.eqb s (lit "null") || isInt s || isSimpleString s.

(** The text after the closing quote of a key that starts at [s]. *)
Fixpoint afterKey (s : jsstring) : option jsstring :=
  match s with
  | [] => None
  | c :: r => if N.eqb c 34 then Some r
              else if plainChar c then afterKey r else None
  end.

(** One property [{key:atom}], written without white space. *)
Definition isSingleton (s : jsstring) : bool :=
  match s with
  | 123%N :: 34%N :: r =>
      match afterKey r with
      | Some (58%N :: v) =>
          match rev v with
          | 125%N :: a => isAtom (rev a)
          | _ => false
          end
      | _ => false
      end
  | _ => false
  end.

Definition toyJson (s : jsstring) : bool :=
  isAtom s || JsString.eqb s (lit "{}") || JsString.eqb s (lit "[]") || isSingleton s.

Definition hostChar (c : N) : bool :=
  ((97 <=? c) && (c <=? 122) || isDigit c || (c =? 45) || (c =? 46))%N.

Definition pathChar (c : N) : bool :=
  (isWord c || (c =? 45) || (c =? 47))%N.

Fixpoint span (p : N -> bool) (s : jsstring) : jsstring * jsstring :=
  match s with
  | c :: r => if p c then let '(a, b) := span p r in (c :: a, b) else ([], s)
  | [] => ([], [])
  end.

(** Scheme, host and path of [scheme://host/path]. *)
Definition parseUrl (u : jsstring) : option (jsstring * jsstring * jsstring) :=
  let parseRest (scheme rest : jsstring) :=
    let '(host, path) := span hostChar rest in
    if truthy host && forallb pathChar path
       && (negb (truthy path) || startsWith path (lit "/"))
    then Some (scheme, host, path) else None in
  if startsWith u (lit "https://") then parseRest (lit "https") (drop 8 u)
  else if startsWith u (lit "http://") then parseRest (lit "http") (drop 7 u)
  else None.

Definition hostname (u : jsstring) : completion jsstring :=
  match parseUrl u with
  | Some (_, host, _) => Normal host
  | None => Throw (lit "Invalid URL")
  end.

Definition serialize (scheme host path : jsstring) : jsstring :=
  scheme ++ lit "://" ++ host ++ (if truthy path then path else lit "/").

(** [href] starts with a slash: two slashes open a host, one a path. *)
Definition resolve (href base : jsstring) : completion jsstring :=
  match parseUrl base with
  | None => Throw (lit "Invalid URL")
  | Some (scheme, host, _) =>
      if startsWith href (lit "//") then
        match parseUrl (scheme ++ lit ":" ++ href) with
        | Some (s, h, p) => Normal (serialize s h p)
        | None => Throw (lit "Invalid URL")
        end
      else if forallb pathChar href then Normal (serialize scheme host href)
      else Throw (lit "Invalid URL")
  end.


(** Worlds for the examples.  In each the search integration answers
    with the links given. *)
Definition siteUrl : jsstring := lit "http://a.com/".

Definition world (links : list jsstring) (direct render : Reply jsstring)
    (synth : Reply (option jsstring)) : World :=
  {| searchReply := fun _ _ => Answered true 200 (Normal (Some links));
     directReply := fun _ _ => direct;
     renderReply := fun _ _ => render;
     synthReply := fun _ _ _ => synth |}.

Definition dullPage : jsstring := page "<p>nothing here</p>".

(** The direct fetch answers 404; the renderer returns a page that does
    not mention the query. *)
Definition dullWorld : World :=
  world [siteUrl] (Answered false 404 (Normal [])) (Answered true 200 (Normal dullPage))
        (Rejected (lit "offline")).

(** The search integration finds nothing. *)
Definition emptyWorld : World :=
  world [] (Rejected (lit "unreachable")) (Rejected (lit "unreachable"))
        (Rejected (lit "offline")).

(** Every page is served, and is empty. *)
Definition blankWorld : World :=
  world [siteUrl] (Answered true 200 (Normal [])) (Answered true 200 (Normal []))
        (Rejected (lit "offline")).

(** A page with one JSON-LD block holding the empty object. *)
Definition ldPage : jsstring := page "<script type='application/ld+json'>{}</script>".

Definition ldWorld : World :=
  world [siteUrl] (Answered false 404 (Normal [])) (Answered true 200 (Normal ldPage))
        (Rejected (lit "offline")).

(** Two pages whose first link is malformed: once relative to the page,
    once absolute. *)
Definition brokenRelativePage : jsstring :=
  page "<a href='//['>x</a><a href='/about'>about</a>".

Definition brokenAbsolutePage : jsstring :=
  page "<a href='http://['>x</a><a href='/about'>about</a>".

(** A page that links twice to [/about], once to another host and once
    to the page itself; every URL serves it, and the renderer is down. *)
Definition linkedPage : jsstring :=
  page "<a href='/about'>about</a> <a href=`http://a.com/about`>again</a> <a href='http://b.com/'>other</a> <a href='/'>home</a>".

Definition linkedWorld : World :=
  world [siteUrl; siteUrl] (Answered true 200 (Normal linkedPage))
        (Rejected (lit "offline")) (Rejected (lit "offline")).

End Toy.

#[global] Instance toyPlatform : Platform := {|
  toLowerCase := map asciiLower;
  json := jsstring;
  JSON_parse := fun s => if Toy.toyJson s then Some s else None;
  JSON_stringify := fun j => j;
  URL_hostname := Toy.hostname;
  URL_resolve := Toy.resolve;
  URIError_message := lit "URI malformed"
|}.

(** ** The discipline of a run

    [replay selected fetched h] reads a history from left to right and
    checks that every URL is added to [visited] at most once, that a direct
    fetch asks for a URL that was added and not yet fetched, and that a
    rendered fetch asks for a URL whose direct fetch was made.  It answers
    with the two sets at the end of the history. *)

Fixpoint replay (selected fetched : gset jsstring) (h : list Event)
  : option (gset jsstring * gset jsstring) :=
  match h with
  | [] => Some (selected, fetched)
  | EvVisit u :: h' =>
      if bool_decide (u ∈ selected) then None
      else replay ({[u]} ∪ selected) fetched h'
  | EvDirect u :: h' =>
      if bool_decide (u ∈ selected) && negb (bool_decide (u ∈ fetched))
      then replay selected ({[u]} ∪ fetched) h'
      else None
  | EvRender u :: h' =>
      if bool_decide (u ∈ fetched) then replay selected fetched h' else None
  | _ :: h' => replay selected fetched h'
  end.

(** The URLs added to [visited], and the URLs fetched directly, in order. *)
Definition visits (h : list Event) : list jsstring :=
  omap (fun e => match e with EvVisit u => Some u | _ => None end) h.

Definition directs (h : list Event) : list jsstring :=
  omap (fun e => match e with EvDirect u => Some u | _ => None end) h.

Definition renders (h : list Event) : list jsstring :=
  omap (fun e => match e with EvRender u => Some u | _ => None end) h.

(** [s'] is [s] after the events [evs], with the same [visited]. *)
Definition extends (s s' : State) (evs : list Event) : Prop :=
  visited s' = visited s /\ history s' = history s ++ evs.

(** The history of [s] replays to [visited s] and [fetched]. *)
Definition tracked (fetched : gset jsstring) (s : State) : Prop :=
  replay ∅ ∅ (history s) = Some (visited s, fetched).

(** Between two trials every URL of [visited] has been fetched. *)
Definition settled (s : State) : Prop := tracked (visited s) s.

(** [url] was just added to [visited] and its trial has not begun. *)
Definition trying (url : jsstring) (s : State) : Prop :=
  exists fetched,
    tracked fetched s /\ (url ∉ fetched) /\ visited s = {[url]} ∪ fetched.

(** The score the analyzer computes before it applies the threshold. *)
Definition computedScore `{Platform} (html query : jsstring) : Q :=
  let fullText := visibleText html in
  let queryWords := queryWordsOf query in
  if Nat.eqb (length queryWords) 0 then 1
  else relevance
         (length (List.filter (fun word => includes (toLowerCase fullText) word) queryWords))
         (length queryWords).

(** The shape of the object of a successful run. *)
Definition isSuccess (o : object) : Prop :=
  exists snippet score source answer d,
    o = [ ("found"%string, VBool true); ("snippet"%string, VString snippet);
          ("score"%string, VNumber score); ("source"%string, VString source);
          ("answer"%string, orNull answer); ("debug"%string, VDebug d) ].

(** ** Triples

    [hoare P m Q]: from a state where [P] holds, the method [m] returns a
    value and a state related by [Q]. *)

Definition hoare {A : Type} (P : State -> Prop) (m : M A) (Q : A -> State -> Prop) : Prop :=
  forall s, P s -> Q (fst (m s)) (snd (m s)).

(** The predicates a run moves between: [calm] between two trials,
    [chosen] when a URL was added to [visited], [good] once its direct
    fetch was made.  [V] is a set of URLs known to be in [visited]. *)
Definition calm (V : gset jsstring) (s : State) : Prop :=
  settled s /\ V ⊆ visited s.

Definition good (V : gset jsstring) (u : jsstring) (s : State) : Prop :=
  settled s /\ V ⊆ visited s /\ u ∈ visited s.

Definition chosen (V : gset jsstring) (u : jsstring) (s : State) : Prop :=
  trying u s /\ V ⊆ visited s.

(** The history of [s] starts with [h]; the history of [s] is [h]. *)
Definition prefixed (h : list Event) (s : State) : Prop :=
  exists e, history s = h ++ e.

Definition stands (h : list Event) (s : State) : Prop := history s = h.

(** The tiers of the trial of a candidate URL, read off the history after
    [h]: accepted after the direct fetch, accepted after the rendered
    fetch, or gone on to the runtime inspection and its own rendered
    fetch. *)
Definition tiers (h : list Event) (query url : jsstring) (s' : State) : Prop :=
  (exists c, history s' = h ++ [EvDirect url; EvSynth query c]) \/
  (exists c, history s' = h ++ [EvDirect url; EvRender url; EvSynth query c]) \/
  (exists rest, history s' = h ++ EvDirect url :: EvRender url :: EvRender url :: rest).

(** What a loop returns from inside is the object of a success. *)
Definition ifSome (r : option object) : Prop :=
  forall o, r = Some o -> isSuccess o.

(** A link on the host [baseDomain] that is not in [seen]. *)
Definition sameHostUnseen `{Platform} (baseDomain : jsstring) (seen : gset jsstring)
    (link : jsstring) : Prop :=
  URL_hostname link = Normal baseDomain /\ (link ∉ seen).

(** ** Tokens *)

(** A continuation that only tests the state it receives. *)
Definition isTest (k : mstate -> option mstate) : Prop :=
  forall s e, k s = Some e -> e = s.

(** Two word characters side by side. *)
Fixpoint hasWordPair (s : jsstring) : bool :=
  match s with
  | a :: (b :: _) as s' => isWord a && isWord b || hasWordPair s'
  | _ => false
  end.

(** The calls for an answer and the searches of a history. *)
Definition synths (h : list Event) : list (jsstring * jsstring) :=
  omap (fun e => match e with EvSynth q c => Some (q, c) | _ => None end) h.

Definition searches (h : list Event) : list jsstring :=
  omap (fun e => match e with EvSearch q => Some q | _ => None end) h.

(** Since the history [h0] the run has made at most [d] direct fetches and
    [r] rendered fetches, exactly [a] calls for an answer and no search. *)
Definition spent (h0 : list Event) (d r a : nat) (s : State) : Prop :=
  exists evs,
    history s = h0 ++ evs /\ length (directs evs) <= d /\ length (renders evs) <= r /\
    length (synths evs) = a /\ searches evs = [].

(** The calls for an answer that a returned value stands for. *)
Definition answers {A : Type} (res : option A) : nat :=
  match res with Some _ => 1 | None => 0 end.

(** A score that passed the threshold. *)
Definition passing (sc : Q) : Prop := (1 # 10 <= sc)%Q /\ (sc <= 1)%Q.

(** The steps that end [generateAIAnswer] without an answer. *)
Definition noAnswerStep (step : jsstring) : Prop :=
  step = lit "AI analysis returned empty result" \/
  exists message, step = lit "AI analysis failed: " ++ message.

(** The object of a success, as [deepScrape] leaves it in the state [s]:
    the score passed the threshold, the source is in [visited], the last
    event is the call for the answer on the returned snippet, and the last
    step tells how that call ended. *)
Definition won (query : jsstring) (o : object) (s : State) : Prop :=
  exists snip sc src ans,
    o = [ ("found"%string, VBool true); ("snippet"%string, VString snip);
          ("score"%string, VNumber sc); ("source"%string, VString src);
          ("answer"%string, orNull ans); ("debug"%string, VDebug (debug s)) ] /\
    passing sc /\ src ∈ visited s /\
    last (history s) = Some (EvSynth query snip) /\
    match ans with
    | Some a => a <> [] /\ last (steps (debug s)) = Some (lit "AI analysis completed successfully")
    | None => exists step, last (steps (debug s)) = Some step /\ noAnswerStep step
    end.

Definition wonIf (query : jsstring) (res : option object) (s : State) : Prop :=
  forall o, res = Some o -> won query o s.

(** What the link crawl returns: a passing score and a visited source. *)
Definition foundIf (res : option Sourced) (s : State) : Prop :=
  forall r, res = Some r -> passing (found_score r) /\ source r ∈ visited s.

(** [s'] has the search results of [s] and the steps of [s] followed by
    more steps: nothing was taken from the trace. *)
Definition logs (s s' : State) : Prop :=
  search_results (debug s') = search_results (debug s) /\
  exists t, steps (debug s') = steps (debug s) ++ t.

(** A method that relates every state to the state it leaves. *)
Definition steady {A : Type} (R : State -> State -> Prop) (m : M A) : Prop :=
  forall s, R s (snd (m s)).

(** The two steps that end a run without a result. *)
Definition lastStepOfMiss (searchResults : list jsstring) : jsstring :=
  match searchResults with
  | [] => lit "No search results found"
  | _ :: _ => lit "No relevant content found in any source"
  end.

(** How [deepScrape] ends, told from the object [o] it returns and the
    state [s'] it leaves: a success, or the not-found object after the
    step that names the cause. *)
Definition ended (query : jsstring) (o : object) (s' : State) : Prop :=
  won query o s' \/
  (o = notFound (debug s') /\
   last (steps (debug s')) = Some (lastStepOfMiss (search_results (debug s')))).

(** The state holds the search results [l], and its steps start with
    [t0]. *)
Definition kept (l : list jsstring) (t0 : list jsstring) (s : State) : Prop :=
  search_results (debug s) = l /\ exists t, steps (debug s) = t0 ++ t.

(** The events of the second loop of [crawlInternalLinks] over [links]: a
    link is skipped, or it is added to [visited], fetched directly and
    then only rendered. *)
Inductive crawlShape : list jsstring -> list Event -> Prop :=
| crawl_done (links : list jsstring) : crawlShape links []
| crawl_skip (u : jsstring) (links : list jsstring) (evs : list Event) :
    crawlShape links evs -> crawlShape (u :: links) evs
| crawl_try (u : jsstring) (links : list jsstring) (rs evs : list Event) :
    Forall (eq (EvRender u)) rs ->
    crawlShape links evs ->
    crawlShape (u :: links) (EvVisit u :: EvDirect u :: rs ++ evs).

(** The history of [s] is [h0] followed by events of that shape. *)
Definition crawled (h0 : list Event) (links : list jsstring) (s : State) : Prop :=
  exists evs, history s = h0 ++ evs /\ crawlShape links evs.

(** The URL of an event that names one. *)
Definition urlOf (e : Event) : option jsstring :=
  match e with
  | EvVisit u | EvDirect u | EvRender u => Some u
  | _ => None
  end.

(** [u] is one of the [candidates], or has the hostname of one. *)
Definition nearCandidate `{Platform} (candidates : list jsstring) (u : jsstring) : Prop :=
  u ∈ candidates \/
  exists c d, c ∈ candidates /\ URL_hostname c = Normal d /\ URL_hostname u = Normal d.

(** Since [h0] every event that names a URL names one near a candidate. *)
Definition confined `{Platform} (candidates : list jsstring) (h0 : list Event) (s : State)
  : Prop :=
  exists evs,
    history s = h0 ++ evs /\
    Forall (fun e => forall u, urlOf e = Some u -> nearCandidate candidates u) evs.

(** The tokens of [query] that occur in the visible text of [html]. *)
Definition matchCount `{Platform} (html query : jsstring) : nat :=
  length (List.filter (fun word => includes (toLowerCase (visibleText html)) word)
            (queryWordsOf query)).

(** ** White space *)

(** Each run of white space of [s] replaced by one space; [inRun] tells
    that the code unit before was white space. *)
Fixpoint squeeze (inRun : bool) (s : jsstring) : jsstring :=
  match s with
  | [] => []
  | c :: s' =>
      if isSpace c then (if inRun then squeeze true s' else 32%N :: squeeze true s')
      else c :: squeeze false s'
  end.

(** Where the matcher stands after the white space at the position. *)
Fixpoint skipSpaces (p : option N) (s : jsstring) (i : nat) (cs : list (nat * jsstring))
  : mstate :=
  match s with
  | c :: r =>
      if isSpace c then skipSpaces (Some c) r (S i) cs
      else {| prev := p; rest := s; pos := i; caps := cs |}
  | [] => {| prev := p; rest := []; pos := i; caps := cs |}
  end.

(** The only white space of [t] is the space, and no two spaces are side
    by side. *)
Definition singleSpaced (t : jsstring) : Prop :=
  (forall c, c ∈ t -> isSpace c = true -> c = 32%N) /\
  (forall pre a b post, t = pre ++ a :: b :: post -> isSpace a && isSpace b = false).

Definition noSpaceAt (c : option N) : Prop :=
  forall d, c = Some d -> isSpace d = false.

(** ** The route handler *)

Module Route.

Local Unset Elimination Schemes.

(** A parsed JSON value: what [request.json()] resolves to. *)
Inductive jsonValue :=
| JNull
| JBool (b : bool)
| JNumber (q : Q)
| JString (s : jsstring)
| JArray (items : list jsonValue)
| JObject (fields : list (jsstring * jsonValue)).

Local Set Elimination Schemes.

(** The own property [key] of a parsed object, whose keys are distinct. *)
Fixpoint getField (fields : list (jsstring * jsonValue)) (key : jsstring)
  : option jsonValue :=
  match fields with
  | [] => None
  | (k, v) :: more => if JsString.eqb k key then Some v else getField more key
  end.

(** [const { query } = body]: [None] is the [TypeError] of destructuring
    [null], [Some None] is [undefined].  A boolean, a number, a string and
    an array have no property [query]. *)
Definition destructureQuery (body : jsonValue) : option (option jsonValue) :=
  match body with
  | JNull => None
  | JObject fields => Some (getField fields (lit "query"))
  | _ => Some None
  end.

(** [Response.json(payload, { status })] *)
Record Response := {
  status : N;
  payload : object
}.

Definition badRequest : Response :=
  {| status := 400;
     payload := [ ("error"%string,
                   VString (lit "Query is required and must be a non-empty string")) ] |}.

Definition serverError : Response :=
  {| status := 500;
     payload := [ ("error"%string,
                   VString (lit "Internal server error during deep scrape")) ] |}.

Section Handler.
Context `{Platform}.
Variable W : World.

(** [POST(request)]: the response, and the events of the scraper it
    started.  [request] is the outcome of [request.json()].  The test
    [!query] is implied by the two tests after it on every value but
    [undefined] and [null], which are no strings. *)
Definition POST (request : completion jsonValue) : Response * list Event :=
  match request with
  | Throw _ => (serverError, [])
  | Normal body =>
      match destructureQuery body with
      | None => (serverError, [])
      | Some (Some (JString query)) =>
          if Nat.eqb (length (trim query)) 0 then (badRequest, [])
          else
            let trimmedQuery := trim query in
            let '(result, s) := run W trimmedQuery in
            ({| status := 200; payload := result |}, history s)
      | Some _ => (badRequest, [])
      end
  end.

End Handler.

End Route.

(** ** The page *)

Module Page.

(** [{ query, timestamp }] *)
Record HistoryEntry := {
  entry_query : jsstring;
  timestamp : N
}.

Section View.
Variable Data : Type.

(** The outcome of [await fetch(...)] and of [response.json()]. *)
Inductive Fetched :=
| FetchRejected (message : jsstring)
| FetchAnswered (ok : bool) (status : N) (statusText : jsstring) (body : completion Data).

(** The state of the component. *)
Record Ui := {
  query : jsstring;
  results : option Data;
  loading : bool;
  error : option jsstring;
  showDebug : bool;
  copied : bool;
  searchHistory : list HistoryEntry
}.

Definition initial : Ui :=
  {| query := []; results := None; loading := false; error := None;
     showDebug := false; copied := false; searchHistory := [] |}.

(** [prev => [entry, ...prev.slice(0, 4)]] *)
Definition addToHistory (entry : HistoryEntry) (prev : list HistoryEntry)
  : list HistoryEntry :=
  entry :: take 4 prev.

(** [{ query: query.trim() }], as the route handler parses it. *)
Definition requestBody (query : jsstring) : Route.jsonValue :=
  Route.JObject [ (lit "query", Route.JString (trim query)) ].

(** [handleSearch()], run to its end: the state once [finally] has run.
    [fetch] is the network, [now] is [Date.now()]. *)
Definition handleSearch (fetch : Route.jsonValue -> Fetched) (now : N) (ui : Ui) : Ui :=
  if negb (truthy (trim (query ui))) then ui
  else
    let finished (results : option Data) (error : option jsstring)
                 (history : list HistoryEntry) :=
      {| query := query ui; results := results; loading := false; error := error;
         showDebug := showDebug ui; copied := copied ui; searchHistory := history |} in
    match fetch (requestBody (query ui)) with
    | FetchRejected message => finished None (Some message) (searchHistory ui)
    | FetchAnswered false status statusText _ =>
        finished None
          (Some (lit "Search failed: " ++ of_N status ++ lit " " ++ statusText))
          (searchHistory ui)
    | FetchAnswered true _ _ (Throw message) =>
        finished None (Some message) (searchHistory ui)
    | FetchAnswered true _ _ (Normal data) =>
        finished (Some data) None
          (addToHistory {| entry_query := trim (query ui); timestamp := now |}
             (searchHistory ui))
    end.

Definition setQuery (text : jsstring) (ui : Ui) : Ui :=
  {| query := text; results := results ui; loading := loading ui; error := error ui;
     showDebug := showDebug ui; copied := copied ui; searchHistory := searchHistory ui |}.

(** What the user does: types into the text area, picks an entry of the
    history, or starts a search. *)
Inductive Action :=
| Typed (text : jsstring)
| Picked (index : nat)
| Searched (fetch : Route.jsonValue -> Fetched) (now : N).

Definition act (ui : Ui) (a : Action) : Ui :=
  match a with
  | Typed text => setQuery text ui
  | Picked index =>
      match searchHistory ui !! index with
      | Some item => setQuery (entry_query item) ui
      | None => ui
      end
  | Searched fetch now => handleSearch fetch now ui
  end.

Definition session (actions : list Action) : Ui := fold_left act actions initial.

End View.

Arguments FetchRejected {Data} message.
Arguments FetchAnswered {Data} ok status statusText body.
Arguments query {Data} u.
Arguments results {Data} u.
Arguments loading {Data} u.
Arguments error {Data} u.
Arguments searchHistory {Data} u.
Arguments handleSearch {Data} fetch now ui.
Arguments act {Data} ui a.

End Page.

(** The loop over [urls] ended without a result: the state is between two
    trials, and [V] and every URL of [urls] are in [visited]. *)
Definition exhausted (V : gset jsstring) (urls : list jsstring) (s : State) : Prop :=
  calm V s /\ forall u, u ∈ urls -> u ∈ visited s.

(** The step that is pushed before a call to a collaborator. *)
Definition announcement (e : Event) : option jsstring :=
  match e with
  | EvVisit _ => None
  | EvSearch _ => Some (lit "Searching Google for relevant URLs...")
  | EvDirect url => Some (lit "Fetching " ++ url ++ lit " via fast HTTP request")
  | EvRender url => Some (lit "Scraping " ++ url ++ lit " with web scraper (JS rendering)")
  | EvSynth _ _ => Some (lit "Generating AI analysis of extracted content...")
  end.

(** From [s] to [s'] the history and the steps have grown, and the
    announcements of the new calls are among the new steps, in the order
    of the calls. *)
Definition told (s s' : State) : Prop :=
  exists evs t,
    history s' = history s ++ evs /\
    steps (debug s') = steps (debug s) ++ t /\
    sublist (omap announcement evs) t.

(** ** The source page of the link crawl *)

Section Tier.
Context `{Platform}.
Variable W : World.

(** What the analyzer makes of a fetch: [html && analyzeHtmlForQuery(html, url, query)]. *)
Definition analysisOf (fetched : option jsstring) (url query : jsstring) : option Analysis :=
  match fetched with
  | Some html => if truthy html then analyzeHtmlForQuery html url query else None
  | None => None
  end.

(** Method 4 of the loop of [deepScrape], from [sourceHtml] on: the crawl
    of the internal links of [sourceHtml], and the return that follows
    it. *)
Definition crawlTier (query url : jsstring) (sourceHtml : option jsstring)
  : M (option object) :=
  match sourceHtml with
  | Some html =>
      if isTruthy sourceHtml && Nat.ltb 0 MAX_CRAWL_DEPTH then
        internalResult ← crawlInternalLinks W url html query;
        match internalResult with
        | Some internalResult =>
            push (lit "Found relevant content via internal crawling: "
                  ++ source internalResult);;
            o ← succeed W query (found_snippet internalResult)
                  (found_score internalResult) (source internalResult);
            mret (Some o)
        | None => mret None
        end
      else mret None
  | None => mret None
  end.

End Tier.

(** A world whose pages differ by the way they are fetched: the direct
    fetch of [Toy.siteUrl] links to [/direct], its first rendered fetch to
    [/first], every later rendered fetch to [/later]; nothing else is
    served. *)
Definition tieredWorld : World :=
  {| searchReply := fun _ _ => Answered true 200 (Normal (Some [Toy.siteUrl]));
     directReply := fun _ url =>
       if JsString.eqb url Toy.siteUrl
       then Answered true 200 (Normal (Toy.page "<a href='/direct'>direct</a>"))
       else Rejected (lit "offline");
     renderReply := fun h url =>
       if JsString.eqb url Toy.siteUrl then
         match renders h with
         | [] => Answered true 200 (Normal (Toy.page "<a href='/first'>first</a>"))
         | _ :: _ => Answered true 200 (Normal (Toy.page "<a href='/later'>later</a>"))
         end
       else Rejected (lit "offline");
     synthReply := fun _ _ _ => Rejected (lit "offline") |}.

Arguments lit : simpl never.
Arguments of_nat : simpl never.
Arguments of_N : simpl never.

(** * Properties *)

(** ** Strings and patterns on examples *)

Example split_double_space :
  split (lit "a  b") 32 = [lit "a"; []; lit "b"].
Proof. reflexivity. Qed.

Example split_empty : split [] 32 = [[]].
Proof. reflexivity. Qed.

Example trim_example : trim (lit "  a b ") = lit "a b".
Proof. reflexivity. Qed.

Example of_nat_example : of_nat 120 = lit "120".
Proof. vm_compute. reflexivity. Qed.

Example regex_words :
  matchAll noFlags Patterns.queryWord (lit "a bc, def_1 g")
  = Some [lit "bc"; lit "def_1"].
Proof. vm_compute. reflexivity. Qed.

Example regex_spaces :
  replaceAll noFlags (plus space) (lit "a   b  c") (lit " ") = lit "a b c".
Proof. vm_compute. reflexivity. Qed.

(** ** The tokens of a query *)

Example tokens_of_a_query :
  queryWordsOf (lit "Current stock PRICE of AAPL, a b")
  = [lit "current"; lit "stock"; lit "price"; lit "of"; lit "aapl"].
Proof. vm_compute. reflexivity. Qed.

Lemma wordBoundary_isTest (fl : flags) : isTest (rmatch fl RWordB Some).
Proof. intros s e. simpl. destruct (xorb _ _); [by intros [= <-] | discriminate]. Qed.

Lemma word_step (fl : flags) (k : mstate -> option mstate) (s e : mstate) :
  rmatch fl word k s = Some e ->
  exists c s',
    rest s = c :: rest s' /\ pos s' = S (pos s) /\ caps s' = caps s /\
    isWord c = true /\ k s' = Some e.
Proof.
  simpl. unfold advance. destruct (rest s) as [|c r] eqn:Hr; [discriminate|].
  simpl. rewrite orb_false_r. destruct (isWord c) eqn:Hc; [|discriminate].
  intros Hk. eexists c, _. split; [|split; [|split; [|split; [exact Hc | exact Hk]]]];
    simpl; reflexivity.
Qed.

Lemma rmatch_word (fl : flags) (k : mstate -> option mstate) (s : mstate) :
  rmatch fl word k s =
  match rest s with
  | [] => None
  | c :: r =>
      if isWord c
      then k {| prev := Some c; rest := r; pos := S (pos s); caps := caps s |}
      else None
  end.
Proof.
  simpl. unfold advance. destruct (rest s); [reflexivity|]. simpl. by rewrite orb_false_r.
Qed.

(** What the quantifier of [/\b\w{2,}\b/] reads: word characters, at
    least as many as the minimum still asks for. *)
Lemma repeat_word (fl : flags) (k : mstate -> option mstate) (mx : option nat) (greedy : bool) :
  isTest k ->
  forall fuel cnt s e,
    repeatMatcher (rmatch fl word) 2 mx greedy k fuel cnt s = Some e ->
    exists w,
      rest s = w ++ rest e /\ pos e = pos s + length w /\ caps e = caps s /\
      forallb isWord w = true /\ 2 <= cnt + length w.
Proof.
  intros Hk. induction fuel as [|fuel IH]; intros cnt s e; [discriminate|].
  cbn [repeatMatcher]. cbv zeta.
  set (more := if atMax mx cnt then None else rmatch fl word _ s).
  assert (more = Some e ->
          exists w, rest s = w ++ rest e /\ pos e = pos s + length w /\ caps e = caps s /\
                    forallb isWord w = true /\ 2 <= cnt + length w) as Hmore.
  { unfold more. destruct (atMax mx cnt); [discriminate|]. intros Hm.
    apply word_step in Hm as (c & s' & Hrest & Hpos & Hcaps & Hc & Hnext).
    destruct (_ && _); [discriminate|].
    apply IH in Hnext as (w & Hw & Hp & Hcp & Hall & Hlen).
    exists (c :: w). simpl. rewrite Hrest, Hw, Hp, Hpos, Hcp, Hcaps, Hc, Hall.
    repeat split; lia. }
  assert (k s = Some e -> 2 <= cnt ->
          exists w, rest s = w ++ rest e /\ pos e = pos s + length w /\ caps e = caps s /\
                    forallb isWord w = true /\ 2 <= cnt + length w) as Hstop.
  { intros Hs Hcnt. apply Hk in Hs as ->. exists []. simpl. repeat split; lia. }
  destruct (Nat.ltb cnt 2) eqn:Hlt; [exact Hmore|].
  apply Nat.ltb_ge in Hlt.
  destruct greedy.
  - destruct more as [e'|]; [exact Hmore | intros Hs; by apply Hstop].
  - destruct (k s) as [e'|]; [intros Hs; by apply Hstop | exact Hmore].
Qed.

Lemma queryWord_match (fl : flags) (st e : mstate) :
  rmatch fl Patterns.queryWord Some st = Some e ->
  2 <= length (matched st e) /\ forallb isWord (matched st e) = true.
Proof.
  unfold Patterns.queryWord. cbn [seq rmatch].
  destruct (xorb _ _); [|discriminate].
  intros Hm.
  apply (repeat_word fl _ None true (wordBoundary_isTest fl)) in Hm
    as (w & Hw & Hp & _ & Hall & Hlen).
  unfold matched. rewrite Hw, Hp.
  replace (pos st + length w - pos st) with (length w) by lia.
  rewrite take_app_length. split; [lia | exact Hall].
Qed.

Lemma search_sound (fl : flags) (r : regex) (p : option N) (s : jsstring) (i : nat)
    (st e : mstate) :
  search fl r p s i = Some (st, e) -> rmatch fl r Some st = Some e.
Proof.
  revert p i. induction s as [|c s IH]; intros p i; cbn [search]; cbv zeta.
  - destruct (rmatch fl r Some {| prev := p; rest := []; pos := i; caps := [] |})
      as [e'|] eqn:Hm; [|discriminate].
    intros [= <- <-]. exact Hm.
  - destruct (rmatch fl r Some {| prev := p; rest := c :: s; pos := i; caps := [] |})
      as [e'|] eqn:Hm; [|apply IH].
    intros [= <- <-]. exact Hm.
Qed.

(** Every text that a scan returns was matched by the pattern. *)
Lemma scan_sound (fl : flags) (r : regex) (fuel : nat) (p : option N) (s : jsstring) (i : nat) :
  Forall (fun seg => exists st e, rmatch fl r Some st = Some e /\ fst (snd seg) = matched st e)
         (fst (scan fl fuel r p s i)).
Proof.
  revert p s i. induction fuel as [|fuel IH]; intros p s i; [constructor|].
  cbn [scan]. destruct (search fl r p s i) as [[st e]|] eqn:Hs; [|constructor].
  apply search_sound in Hs. cbv zeta.
  assert (exists st0 e0, rmatch fl r Some st0 = Some e0 /\ matched st e = matched st0 e0)
    as Hhead by (by exists st, e).
  destruct (Nat.eqb (pos e) (pos st)).
  - destruct (rest e) as [|c s']; [by repeat constructor|].
    specialize (IH (Some c) s' (S (pos e))).
    destruct (scan fl fuel r (Some c) s' (S (pos e))) as [[|[b m'] segs] tl]; simpl in *.
    + by repeat constructor.
    + inversion IH as [|? ? Hm' Hsegs]; subst. constructor; [exact Hhead|].
      constructor; [exact Hm' | exact Hsegs].
  - specialize (IH (prev e) (rest e) (pos e)).
    destruct (scan fl fuel r (prev e) (rest e) (pos e)) as [segs tl]; simpl in *.
    constructor; [exact Hhead | exact IH].
Qed.


Lemma hasWordPair_app (pre w post : jsstring) :
  2 <= length w -> forallb isWord w = true -> hasWordPair (pre ++ w ++ post) = true.
Proof.
  intros Hlen Hall. destruct w as [|a [|b w]]; simpl in Hlen; try lia.
  simpl in Hall. apply andb_prop in Hall as [Ha Hall]. apply andb_prop in Hall as [Hb _].
  induction pre as [|c pre IH]; simpl.
  - by rewrite Ha, Hb.
  - destruct (pre ++ a :: b :: w ++ post) eqn:E; [by destruct pre|].
    rewrite <- E. simpl in IH. rewrite IH. apply orb_true_r.
Qed.

(** The greedy quantifier of [/\b\w{2,}\b/] succeeds once it stands in a
    run of word characters long enough for the minimum: it reads the run
    to its end, where a word boundary is. *)
Lemma repeat_word_succeeds (fl : flags) :
  forall fuel cnt s,
    length (rest s) < fuel ->
    (1 <= cnt -> wordAt (prev s) = true) ->
    (cnt = 0 -> match rest s with a :: b :: _ => isWord a && isWord b = true | _ => False end) ->
    (cnt = 1 -> wordAt (head (rest s)) = true) ->
    exists e,
      repeatMatcher (rmatch fl word) 2 None true (rmatch fl RWordB Some) fuel cnt s = Some e.
Proof.
  induction fuel as [|fuel IH]; intros cnt s Hfuel Hprev H0 H1; [lia|].
  cbn [repeatMatcher]. cbv zeta. cbn [atMax].
  destruct (rest s) as [|c r] eqn:Hr.
  - (* the input ends: the minimum was reached *)
    assert (2 <= cnt) as Hcnt.
    { destruct cnt as [|[|cnt]]; [by specialize (H0 eq_refl) | |lia].
      specialize (H1 eq_refl). discriminate H1. }
    assert (rmatch fl word
              (fun s' => if Nat.leb 2 cnt && Nat.eqb (pos s') (pos s) then None
                         else repeatMatcher (rmatch fl word) 2 None true
                                (rmatch fl RWordB Some) fuel (S cnt) s') s = None) as ->.
    { by rewrite rmatch_word, Hr. }
    replace (Nat.ltb cnt 2) with false by (symmetry; apply Nat.ltb_ge; lia).
    exists s. cbn [rmatch]. rewrite Hr, Hprev by lia. reflexivity.
  - destruct (isWord c) eqn:Hc.
    + (* one more word character *)
      set (s' := {| prev := Some c; rest := r; pos := S (pos s); caps := caps s |}).
      destruct (IH (S cnt) s') as [e He].
      * simpl. simpl in Hfuel. lia.
      * intros _. exact Hc.
      * discriminate.
      * intros [= ->]. specialize (H0 eq_refl). simpl.
        destruct r as [|b r']; [done|]. simpl.
        apply andb_prop in H0 as [_ Hb]. exact Hb.
      * assert (rmatch fl word
                  (fun s' => if Nat.leb 2 cnt && Nat.eqb (pos s') (pos s) then None
                             else repeatMatcher (rmatch fl word) 2 None true
                                    (rmatch fl RWordB Some) fuel (S cnt) s') s = Some e) as ->.
        { rewrite rmatch_word, Hr, Hc. cbn [pos].
          replace (Nat.eqb (S (pos s)) (pos s)) with false
            by (symmetry; apply Nat.eqb_neq; lia).
          rewrite andb_false_r. exact He. }
        exists e. by destruct (Nat.ltb cnt 2).
    + (* the run ends before a character that is not a word character *)
      assert (2 <= cnt) as Hcnt.
      { destruct cnt as [|[|cnt]]; [| |lia].
        - specialize (H0 eq_refl). destruct r; [done|]. discriminate H0.
        - specialize (H1 eq_refl). simpl in H1. congruence. }
      assert (rmatch fl word
                (fun s' => if Nat.leb 2 cnt && Nat.eqb (pos s') (pos s) then None
                           else repeatMatcher (rmatch fl word) 2 None true
                                  (rmatch fl RWordB Some) fuel (S cnt) s') s = None) as ->.
      { by rewrite rmatch_word, Hr, Hc. }
      replace (Nat.ltb cnt 2) with false by (symmetry; apply Nat.ltb_ge; lia).
      exists s. cbn [rmatch]. rewrite Hr, Hprev by lia. simpl. by rewrite Hc.
Qed.

Lemma queryWord_succeeds (fl : flags) (p : option N) (a b : N) (post : jsstring)
    (i : nat) (cs : list (nat * jsstring)) :
  wordAt p = false -> isWord a = true -> isWord b = true ->
  exists e,
    rmatch fl Patterns.queryWord Some
      {| prev := p; rest := a :: b :: post; pos := i; caps := cs |} = Some e.
Proof.
  intros Hp Ha Hb. unfold Patterns.queryWord. cbn [seq rmatch].
  cbn [prev rest head]. rewrite Hp. cbn [wordAt]. rewrite Ha. cbn [xorb].
  apply repeat_word_succeeds.
  - simpl. lia.
  - lia.
  - intros _. simpl. by rewrite Ha, Hb.
  - discriminate.
Qed.

(** Where the text has two word characters side by side, and the search
    does not start inside a word, it finds a match. *)
Lemma search_finds_word (fl : flags) (s : jsstring) :
  forall p i,
    hasWordPair s = true ->
    wordAt p && wordAt (head s) = false ->
    exists st e, search fl Patterns.queryWord p s i = Some (st, e).
Proof.
  induction s as [|a s IH]; intros p i Hpair Hedge; [discriminate|].
  cbn [search]. cbv zeta.
  destruct (rmatch fl Patterns.queryWord Some
              {| prev := p; rest := a :: s; pos := i; caps := [] |}) as [e|] eqn:Hm;
    [by eexists _, e|].
  destruct s as [|b s']; [discriminate|].
  destruct (isWord a && isWord b) eqn:Hab.
  - apply andb_prop in Hab as [Ha Hb]. simpl in Hedge. rewrite Ha, andb_true_r in Hedge.
    destruct (queryWord_succeeds fl p a b s' i [] Hedge Ha Hb) as [e He]. congruence.
  - apply IH.
    + simpl in Hpair. rewrite Hab in Hpair. exact Hpair.
    + exact Hab.
Qed.

Lemma search_suffix (fl : flags) (r : regex) (s : jsstring) :
  forall p i st e,
    search fl r p s i = Some (st, e) -> exists pre, s = pre ++ rest st.
Proof.
  induction s as [|c s IH]; intros p i st e; cbn [search]; cbv zeta.
  - destruct (rmatch fl r Some {| prev := p; rest := []; pos := i; caps := [] |});
      [|discriminate].
    intros [= <- _]. by exists [].
  - destruct (rmatch fl r Some {| prev := p; rest := c :: s; pos := i; caps := [] |}).
    + intros [= <- _]. by exists [].
    + intros Hs. destruct (IH _ _ _ _ Hs) as [pre Hpre]. exists (c :: pre). simpl. by f_equal.
Qed.

Lemma queryWord_reads (fl : flags) (st e : mstate) :
  rmatch fl Patterns.queryWord Some st = Some e ->
  exists w, rest st = w ++ rest e /\ 2 <= length w /\ forallb isWord w = true.
Proof.
  unfold Patterns.queryWord. cbn [seq rmatch].
  destruct (xorb _ _); [|discriminate].
  intros Hm.
  apply (repeat_word fl _ None true (wordBoundary_isTest fl)) in Hm
    as (w & Hw & Hp & _ & Hall & Hlen).
  exists w. split; [exact Hw|]. split; [lia | exact Hall].
Qed.

(** The search for a token succeeds only in a text with two word
    characters side by side. *)
Lemma search_word_pair (fl : flags) (p : option N) (s : jsstring) (i : nat) st e :
  search fl Patterns.queryWord p s i = Some (st, e) -> hasWordPair s = true.
Proof.
  intros Hs. destruct (search_suffix _ _ _ _ _ _ _ Hs) as [pre Hpre].
  apply search_sound, queryWord_reads in Hs as (w & Hw & Hlen & Hall).
  rewrite Hpre, Hw. by apply hasWordPair_app.
Qed.

Section Tokens.
Context `{Platform}.

(** The tokens of the analyzer are runs of at least two word
    characters. *)
Lemma queryWords_long (query w : jsstring) :
  w ∈ queryWordsOf query -> 2 <= length w /\ forallb isWord w = true.
Proof.
  unfold queryWordsOf, matchAll, scanAll.
  pose proof (scan_sound noFlags Patterns.queryWord (S (length (toLowerCase query))) None
                (toLowerCase query) 0) as Hall.
  destruct (fst (scan _ _ _ _ _ _)) as [|seg segs]; simpl; [by intros Hin%elem_of_nil|].
  intros Hin. apply list_elem_of_In in Hin.
  change (In w (map (fun x : jsstring * (jsstring * list (nat * jsstring)) => fst (snd x))
                  (seg :: segs))) in Hin.
  apply in_map_iff in Hin as (seg' & <- & Hin).
  apply list_elem_of_In in Hin.
  rewrite Forall_forall in Hall. destruct (Hall seg' Hin) as (st & e & Hm & ->).
  by apply (queryWord_match noFlags).
Qed.

(** The query has no token exactly when its lowered text has no two word
    characters side by side. *)
Lemma no_token_iff (query : jsstring) :
  queryWordsOf query = [] <-> hasWordPair (toLowerCase query) = false.
Proof.
  unfold queryWordsOf, matchAll, scanAll. cbn [scan].
  destruct (search noFlags Patterns.queryWord None (toLowerCase query) 0)
    as [[st e]|] eqn:Hs.
  - pose proof (search_word_pair _ _ _ _ _ _ Hs) as Hpair. rewrite Hpair.
    split; [|discriminate]. cbv zeta.
    destruct (Nat.eqb (pos e) (pos st)).
    + destruct (rest e) as [|c s']; [discriminate|].
      by destruct (scan _ _ _ _ _ _) as [[|[b m'] segs] tl].
    + by destruct (scan _ _ _ _ _ _) as [segs tl].
  - split; [|reflexivity]. intros _.
    destruct (hasWordPair (toLowerCase query)) eqn:Hpair; [|reflexivity].
    destruct (search_finds_word noFlags (toLowerCase query) None 0 Hpair eq_refl)
      as (st & e & Hfound).
    congruence.
Qed.
End Tokens.

(** ** What each method does to the state *)

Lemma extends_refl (s : State) : extends s s [].
Proof. split; [reflexivity | by rewrite app_nil_r]. Qed.

Lemma extends_trans (s s1 s2 : State) (e1 e2 : list Event) :
  extends s s1 e1 -> extends s1 s2 e2 -> extends s s2 (e1 ++ e2).
Proof.
  intros [Hv1 Hh1] [Hv2 Hh2]. split.
  - congruence.
  - by rewrite Hh2, Hh1, app_assoc.
Qed.

Lemma push_extends (step : jsstring) (s : State) : extends s (snd (push step s)) [].
Proof. split; simpl; [reflexivity | by rewrite app_nil_r]. Qed.

Ltac run_monad :=
  unfold mbind, M_bind, mret, M_ret, push, call, getDebug, getVisited,
    setSearchResults, visitedHas, visitedAdd; simpl.

Section Effects.
Context `{Platform} (W : World).

Lemma performSearch_extends query s :
  extends s (snd (performSearch W query s)) (searchCalls query).
Proof.
  unfold performSearch, extends, searchCalls. run_monad.
  destruct (wellFormed query); simpl; [|by rewrite app_nil_r].
  destruct (searchReply W (history s) query) as [m | [] st [items | m]]; simpl; auto.
Qed.

Lemma fetchHtmlRequests_extends url s :
  extends s (snd (fetchHtmlRequests W url s)) [EvDirect url].
Proof.
  unfold fetchHtmlRequests, extends. run_monad.
  destruct (directReply W (history s) url) as [m | [] st [html | m]]; simpl; auto.
Qed.

Lemma fetchHtmlWithScraper_extends url s :
  extends s (snd (fetchHtmlWithScraper W url s)) [EvRender url].
Proof.
  unfold fetchHtmlWithScraper, extends. run_monad.
  destruct (renderReply W (history s) url) as [m | [] st [html | m]]; simpl; auto.
Qed.

Lemma extractFromJsRuntime_extends url query s :
  extends s (snd (extractFromJsRuntime W url query s)) [EvRender url].
Proof.
  unfold extractFromJsRuntime, fetchHtmlWithScraper, extends. run_monad.
  destruct (renderReply W (history s) url) as [m | [] st [html | m]]; simpl; auto.
  destruct (truthy html); simpl; auto.
  destruct (firstRelevantJson _ _); simpl; auto.
  destruct (firstDataAttribute _ _) as [[v|]|]; simpl; auto.
  destruct (firstScriptData _ _); simpl; auto.
Qed.

Lemma generateAIAnswer_extends query context s :
  extends s (snd (generateAIAnswer W query context s)) [EvSynth query context].
Proof.
  unfold generateAIAnswer, extends. run_monad.
  destruct (synthReply W (history s) query context)
    as [m | [] st [[answer|] | m]]; simpl; auto.
  destruct (truthy answer); simpl; auto.
Qed.

Lemma succeed_extends query snip sc src s :
  extends s (snd (succeed W query snip sc src s)) [EvSynth query snip].
Proof.
  unfold succeed. run_monad.
  pose proof (generateAIAnswer_extends query snip s) as E.
  destruct (generateAIAnswer W query snip s) as [a s1]. exact E.
Qed.

Lemma succeed_isSuccess query snip sc src s :
  isSuccess (fst (succeed W query snip sc src s)).
Proof.
  unfold succeed, isSuccess. run_monad.
  destruct (generateAIAnswer W query snip s) as [a s1]. simpl. eauto 10.
Qed.

End Effects.

(** ** The visited set and the history *)

Lemma replay_app (sel fet : gset jsstring) (h1 h2 : list Event) :
  replay sel fet (h1 ++ h2) =
  match replay sel fet h1 with
  | Some (sel', fet') => replay sel' fet' h2
  | None => None
  end.
Proof.
  revert sel fet. induction h1 as [|e h1 IH]; intros sel fet; simpl; [reflexivity|].
  destruct e; simpl; try apply IH.
  - destruct (bool_decide _); [reflexivity | apply IH].
  - destruct (_ && _); [apply IH | reflexivity].
  - destruct (bool_decide _); [apply IH | reflexivity].
Qed.

Lemma tracked_extends (F F' : gset jsstring) (s s' : State) (evs : list Event) :
  tracked F s -> extends s s' evs ->
  replay (visited s) F evs = Some (visited s, F') ->
  tracked F' s'.
Proof.
  unfold tracked. intros T [Hv Hh] R. rewrite Hh, replay_app, T, Hv. exact R.
Qed.

Lemma settled_quiet (s s' : State) : settled s -> extends s s' [] -> settled s'.
Proof.
  intros S E. unfold settled. destruct E as [Hv Hh]. rewrite Hv.
  apply (tracked_extends (visited s) _ s s' []); [exact S | by split | reflexivity].
Qed.

Lemma settled_render (u : jsstring) (s s' : State) :
  settled s -> u ∈ visited s -> extends s s' [EvRender u] -> settled s'.
Proof.
  intros S U E. unfold settled. rewrite (proj1 E).
  apply (tracked_extends (visited s) _ s s' [EvRender u]); [exact S | exact E |].
  simpl. by rewrite bool_decide_eq_true_2.
Qed.

Lemma settled_renders (u : jsstring) (rs : list Event) (s s' : State) :
  settled s -> u ∈ visited s -> Forall (eq (EvRender u)) rs ->
  extends s s' rs -> settled s'.
Proof.
  intros S U Frs E. unfold settled. rewrite (proj1 E).
  apply (tracked_extends (visited s) _ s s' rs); [exact S | exact E |].
  clear E. induction Frs as [|e rs <- _ IH]; simpl; [reflexivity|].
  by rewrite bool_decide_eq_true_2.
Qed.

Lemma settled_synth (q c : jsstring) (s s' : State) :
  settled s -> extends s s' [EvSynth q c] -> settled s'.
Proof.
  intros S E. unfold settled. rewrite (proj1 E).
  by apply (tracked_extends (visited s) _ s s' [EvSynth q c]).
Qed.

Lemma settled_search (q : jsstring) (s s' : State) :
  settled s -> extends s s' [EvSearch q] -> settled s'.
Proof.
  intros S E. unfold settled. rewrite (proj1 E).
  by apply (tracked_extends (visited s) _ s s' [EvSearch q]).
Qed.

Lemma trying_direct (u : jsstring) (s s' : State) :
  trying u s -> extends s s' [EvDirect u] -> settled s'.
Proof.
  intros (F & T & Hu & HV) E. unfold settled. rewrite (proj1 E).
  apply (tracked_extends F _ s s' [EvDirect u]); [exact T | exact E |].
  assert (u ∈ visited s) as Hin by (rewrite HV; apply elem_of_union_l, elem_of_singleton; reflexivity).
  simpl. rewrite (bool_decide_eq_true_2 _ Hin), (bool_decide_eq_false_2 _ Hu).
  simpl. by rewrite HV.
Qed.

Lemma settled_visit (u : jsstring) (s : State) :
  settled s -> u ∉ visited s -> trying u (snd (visitedAdd u s)).
Proof.
  intros S Hu. exists (visited s). simpl. split; [|split; [exact Hu | reflexivity]].
  unfold tracked. simpl. rewrite replay_app, S. simpl.
  by rewrite bool_decide_eq_false_2.
Qed.

Lemma trying_member (u : jsstring) (s : State) : trying u s -> u ∈ visited s.
Proof. intros (F & _ & _ & ->). set_solver. Qed.


Lemma hoare_bind {A B : Type} (P : State -> Prop) (Q : A -> State -> Prop)
    (R : B -> State -> Prop) (m : M A) (f : A -> M B) :
  hoare P m Q -> (forall a, hoare (Q a) (f a) R) -> hoare P (mbind f m) R.
Proof.
  intros Hm Hf s Ps. unfold mbind, M_bind.
  specialize (Hm s Ps). destruct (m s) as [a s1]. exact (Hf a s1 Hm).
Qed.

Lemma hoare_ret {A : Type} (P : State -> Prop) (a : A) :
  hoare P (mret a) (fun r s => r = a /\ P s).
Proof. intros s Ps. by split. Qed.

Lemma hoare_conseq {A : Type} (P P' : State -> Prop) (Q Q' : A -> State -> Prop) (m : M A) :
  hoare P' m Q' -> (forall s, P s -> P' s) -> (forall a s, Q' a s -> Q a s) ->
  hoare P m Q.
Proof. intros Hm HP HQ s Ps. apply HQ, Hm, HP, Ps. Qed.

(** A method that only extends the history by [evs] and leaves [visited]
    alone moves from [P] to [Q] when every such step does. *)
Lemma hoare_extends {A : Type} (P : State -> Prop) (Q : State -> Prop)
    (m : M A) (evs : list Event) :
  (forall s, extends s (snd (m s)) evs) ->
  (forall s s', P s -> extends s s' evs -> Q s') ->
  hoare P m (fun _ => Q).
Proof. intros Hm HPQ s Ps. exact (HPQ s _ Ps (Hm s)). Qed.

Lemma calm_quiet V s s' : calm V s -> extends s s' [] -> calm V s'.
Proof.
  intros [S Sub] E. split; [by apply (settled_quiet s) | by rewrite (proj1 E)].
Qed.

Lemma good_quiet V u s s' : good V u s -> extends s s' [] -> good V u s'.
Proof.
  intros (S & Sub & Hu) E.
  split; [by apply (settled_quiet s) | by rewrite (proj1 E)].
Qed.

Lemma trying_quiet u s s' : trying u s -> extends s s' [] -> trying u s'.
Proof.
  intros (F & T & Hu & HV) E. exists F. split; [|by rewrite (proj1 E)].
  by apply (tracked_extends F F s s' []).
Qed.

Lemma chosen_quiet V u s s' : chosen V u s -> extends s s' [] -> chosen V u s'.
Proof.
  intros [T Sub] E. split; [by apply (trying_quiet u s) | by rewrite (proj1 E)].
Qed.

Lemma chosen_direct V u s s' : chosen V u s -> extends s s' [EvDirect u] -> good V u s'.
Proof.
  intros [T Sub] E. split; [by apply (trying_direct u s)|].
  rewrite (proj1 E). split; [exact Sub | by apply trying_member].
Qed.

Lemma good_render V u s s' : good V u s -> extends s s' [EvRender u] -> good V u s'.
Proof.
  intros (S & Sub & Hu) E. split; [by apply (settled_render u s)|].
  by rewrite (proj1 E).
Qed.

Lemma calm_synth V q c s s' : calm V s -> extends s s' [EvSynth q c] -> calm V s'.
Proof.
  intros [S Sub] E. split; [by apply (settled_synth q c s) | by rewrite (proj1 E)].
Qed.

Lemma calm_search V q s s' : calm V s -> extends s s' [EvSearch q] -> calm V s'.
Proof.
  intros [S Sub] E. split; [by apply (settled_search q s) | by rewrite (proj1 E)].
Qed.

Lemma calm_searched V q s s' : calm V s -> extends s s' (searchCalls q) -> calm V s'.
Proof. unfold searchCalls. destruct (wellFormed q); [apply calm_search | apply calm_quiet]. Qed.

Lemma good_calm V u s : good V u s -> calm V s.
Proof. intros (S & Sub & _). by split. Qed.

Lemma push_keeps (P : State -> Prop) (step : jsstring) :
  (forall s s', P s -> extends s s' [] -> P s') ->
  hoare P (push step) (fun _ => P).
Proof. intros HP. apply (hoare_extends P P _ []); [apply push_extends | exact HP]. Qed.

Section Trials.
Context `{Platform} (W : World).

Lemma succeed_calm V query snip sc src :
  hoare (calm V) (succeed W query snip sc src) (fun _ => calm V).
Proof.
  apply (hoare_extends _ _ _ [EvSynth query snip]);
    [apply succeed_extends | apply calm_synth].
Qed.

(** The three successful returns of a trial: a step is pushed, the
    answer is generated, the object is returned. *)
Lemma win_calm V query snip sc src step :
  hoare (calm V)
    (push step;; o ← succeed W query snip sc src; mret (Some o))
    (fun _ => calm V).
Proof.
  eapply hoare_bind; [apply push_keeps, calm_quiet|]. intros ?.
  eapply hoare_bind; [apply succeed_calm|]. intros o.
  intros s Cs. exact Cs.
Qed.

Lemma tryInternalLink_calm V query u :
  hoare (chosen V u) (tryInternalLink W query u) (fun _ => calm V).
Proof.
  unfold tryInternalLink.
  eapply hoare_bind.
  { apply (hoare_extends _ (good V u) _ [EvDirect u]);
      [apply fetchHtmlRequests_extends | apply chosen_direct]. }
  intros html. cbv zeta.
  destruct (match html with Some _ => _ | None => _ end) as [hit|].
  { eapply hoare_bind; [apply push_keeps, good_quiet|]. intros ?.
    intros s Gs. by apply (good_calm V u). }
  eapply hoare_bind.
  { apply (hoare_extends _ (good V u) _ [EvRender u]);
      [apply fetchHtmlWithScraper_extends | apply good_render]. }
  intros scraped.
  destruct (match scraped with Some _ => _ | None => _ end) as [hit|].
  { eapply hoare_bind; [apply push_keeps, good_quiet|]. intros ?.
    intros s Gs. by apply (good_calm V u). }
  eapply hoare_bind.
  { apply (hoare_extends _ (good V u) _ [EvRender u]);
      [apply extractFromJsRuntime_extends | apply good_render]. }
  intros [r|].
  - eapply hoare_bind; [apply push_keeps, good_quiet|]. intros ?.
    intros s Gs. by apply (good_calm V u).
  - intros s Gs. by apply (good_calm V u).
Qed.

Lemma visitedAdd_chosen V u :
  hoare (fun s => calm V s /\ u ∉ visited s) (visitedAdd u) (fun _ => chosen V u).
Proof.
  intros s [[S Sub] Hu]. split; [by apply settled_visit|].
  simpl. etrans; [exact Sub | apply union_subseteq_r].
Qed.

Lemma visitedHas_spec (P : State -> Prop) u :
  hoare P (visitedHas u)
    (fun b s => P s /\ (if b then u ∈ visited s else u ∉ visited s)).
Proof.
  intros s Ps. simpl. split; [exact Ps|].
  destruct (bool_decide (u ∈ visited s)) eqn:E.
  - by apply bool_decide_eq_true in E.
  - by apply bool_decide_eq_false in E.
Qed.

Lemma checkLinks_calm V query links :
  hoare (calm V) (checkLinks W query links) (fun _ => calm V).
Proof.
  induction links as [|u links IH]; simpl.
  { intros s Cs. exact Cs. }
  eapply hoare_bind; [apply visitedHas_spec|]. intros [|].
  { eapply hoare_conseq; [exact IH | by intros s [Cs _] | auto]. }
  eapply hoare_bind; [apply visitedAdd_chosen|]. intros ?.
  eapply hoare_bind; [apply tryInternalLink_calm|]. intros [r|].
  - intros s Cs. exact Cs.
  - exact IH.
Qed.

Lemma crawlInternalLinks_calm V baseUrl baseHtml query :
  hoare (calm V) (crawlInternalLinks W baseUrl baseHtml query) (fun _ => calm V).
Proof.
  unfold crawlInternalLinks. simpl.
  eapply hoare_bind; [apply push_keeps, calm_quiet|]. intros ?.
  eapply hoare_bind with (Q := fun _ => calm V); [by intros s Cs|]. intros seen.
  destruct (discoverLinks _ _ _) as [links | message].
  - eapply hoare_bind; [apply push_keeps, calm_quiet|]. intros ?.
    apply checkLinks_calm.
  - eapply hoare_bind; [apply push_keeps, calm_quiet|]. intros ?.
    intros s Cs. exact Cs.
Qed.

Lemma processUrl_calm V query u :
  hoare (chosen V u) (processUrl W query u) (fun _ => calm V).
Proof.
  unfold processUrl.
  eapply hoare_bind; [apply push_keeps, chosen_quiet|]. intros ?.
  eapply hoare_bind.
  { apply (hoare_extends _ (good V u) _ [EvDirect u]);
      [apply fetchHtmlRequests_extends | apply chosen_direct]. }
  intros fastHtml. cbv zeta.
  destruct (match fastHtml with Some _ => _ | None => _ end) as [hit|].
  { eapply hoare_conseq; [apply (win_calm V) | apply good_calm | auto]. }
  eapply hoare_bind.
  { apply (hoare_extends _ (good V u) _ [EvRender u]);
      [apply fetchHtmlWithScraper_extends | apply good_render]. }
  intros scrapedHtml.
  destruct (match scrapedHtml with Some _ => _ | None => _ end) as [hit|].
  { eapply hoare_conseq; [apply (win_calm V) | apply good_calm | auto]. }
  eapply hoare_bind.
  { apply (hoare_extends _ (good V u) _ [EvRender u]);
      [apply extractFromJsRuntime_extends | apply good_render]. }
  intros [r|].
  { eapply hoare_conseq; [apply (win_calm V) | apply good_calm | auto]. }
  destruct (orElse scrapedHtml fastHtml) as [html|];
    [|intros s Gs; by apply (good_calm V u)].
  destruct (isTruthy (Some html) && _);
    [|intros s Gs; by apply (good_calm V u)].
  eapply hoare_bind with (Q := fun _ => calm V).
  { eapply hoare_conseq; [apply (crawlInternalLinks_calm V) | apply good_calm | auto]. }
  intros [r|].
  - apply win_calm.
  - intros s Cs. exact Cs.
Qed.

Lemma processUrls_calm V query urls :
  hoare (calm V) (processUrls W query urls) (fun _ => calm V).
Proof.
  induction urls as [|u urls IH]; simpl.
  { intros s Cs. exact Cs. }
  eapply hoare_bind; [apply visitedHas_spec|]. intros [|].
  { eapply hoare_conseq; [exact IH | by intros s [Cs _] | auto]. }
  eapply hoare_bind; [apply visitedAdd_chosen|]. intros ?.
  eapply hoare_bind; [apply processUrl_calm|]. intros [o|].
  - intros s Cs. exact Cs.
  - exact IH.
Qed.

Lemma deepScrape_calm V query :
  hoare (calm V) (deepScrape W query) (fun _ => calm V).
Proof.
  unfold deepScrape.
  eapply hoare_bind; [apply push_keeps, calm_quiet|]. intros ?.
  eapply hoare_bind.
  { apply (hoare_extends _ (calm V) _ (searchCalls query));
      [apply performSearch_extends | apply calm_searched]. }
  intros searchResults.
  eapply hoare_bind with (Q := fun _ => calm V); [by intros s Cs|]. intros ?.
  destruct (Nat.eqb _ 0).
  { eapply hoare_bind; [apply push_keeps, calm_quiet|]. intros ?.
    intros s Cs. exact Cs. }
  eapply hoare_bind; [apply processUrls_calm|]. intros [o|].
  - intros s Cs. exact Cs.
  - eapply hoare_bind; [apply push_keeps, calm_quiet|]. intros ?.
    intros s Cs. exact Cs.
Qed.

End Trials.

Lemma replay_visits (sel fet : gset jsstring) (h : list Event) sel' fet' :
  replay sel fet h = Some (sel', fet') ->
  NoDup (visits h) /\ (forall u, u ∈ visits h -> u ∉ sel) /\
  (forall u, u ∈ sel' <-> u ∈ sel \/ u ∈ visits h).
Proof.
  revert sel fet. induction h as [|e h IH]; intros sel fet R; simpl in R.
  { injection R as <- <-. split; [constructor|]. split; [inversion 1|].
    intros u. split; [auto | intros [?|Hin]; [done | inversion Hin]]. }
  destruct e as [u| | u | u |]; unfold visits; simpl; fold (visits h).
  - destruct (bool_decide (u ∈ sel)) eqn:Hu; [discriminate|].
    apply bool_decide_eq_false in Hu.
    destruct (IH _ _ R) as (ND & Fresh & Mem). split; [|split].
    + constructor; [|exact ND]. intros Hin. apply (Fresh u Hin).
      apply elem_of_union_l, elem_of_singleton. reflexivity.
    + intros v Hv. apply elem_of_cons in Hv as [-> | Hv]; [exact Hu|].
      intros Hin. apply (Fresh v Hv). by apply elem_of_union_r.
    + intros v. rewrite Mem, elem_of_cons, elem_of_union, elem_of_singleton. tauto.
  - exact (IH _ _ R).
  - destruct (_ && _); [exact (IH _ _ R) | discriminate].
  - destruct (bool_decide _); [exact (IH _ _ R) | discriminate].
  - exact (IH _ _ R).
Qed.

Lemma replay_directs (sel fet : gset jsstring) (h : list Event) sel' fet' :
  replay sel fet h = Some (sel', fet') ->
  NoDup (directs h) /\ (forall u, u ∈ directs h -> u ∉ fet).
Proof.
  revert sel fet. induction h as [|e h IH]; intros sel fet R; simpl in R.
  { split; [constructor | inversion 1]. }
  destruct e as [u| | u | u |]; unfold directs; simpl; fold (directs h).
  - destruct (bool_decide (u ∈ sel)); [discriminate | exact (IH _ _ R)].
  - exact (IH _ _ R).
  - destruct (bool_decide (u ∈ sel)); simpl in R; [|discriminate].
    destruct (bool_decide (u ∈ fet)) eqn:Hu; simpl in R; [discriminate|].
    apply bool_decide_eq_false in Hu.
    destruct (IH _ _ R) as (ND & Fresh). split.
    + constructor; [|exact ND]. intros Hin. apply (Fresh u Hin).
      apply elem_of_union_l, elem_of_singleton. reflexivity.
    + intros v Hv. apply elem_of_cons in Hv as [-> | Hv]; [exact Hu|].
      intros Hin. apply (Fresh v Hv). by apply elem_of_union_r.
  - destruct (bool_decide _); [exact (IH _ _ R) | discriminate].
  - exact (IH _ _ R).
Qed.

(** In a history that replays, a fetch of a URL comes after the URL was
    added to [visited], or the URL was there from the start. *)
Lemma replay_fetch_after_visit (sel fet : gset jsstring) (h : list Event) sel' fet' :
  fet ⊆ sel ->
  replay sel fet h = Some (sel', fet') ->
  forall h1 h2 u,
    (h = h1 ++ EvDirect u :: h2 \/ h = h1 ++ EvRender u :: h2) ->
    u ∈ sel \/ EvVisit u ∈ h1.
Proof.
  revert sel fet. induction h as [|e h IH]; intros sel fet Sub R h1 h2 u Hsplit.
  { destruct Hsplit as [E|E]; destruct h1; discriminate. }
  destruct h1 as [|e1 h1].
  { left. simpl in Hsplit.
    destruct Hsplit as [E|E]; injection E as -> ->; simpl in R.
    - destruct (bool_decide (u ∈ sel)) eqn:Hu; [|discriminate].
      by apply bool_decide_eq_true in Hu.
    - destruct (bool_decide (u ∈ fet)) eqn:Hu; [|discriminate].
      apply bool_decide_eq_true in Hu. by apply Sub. }
  assert (e1 = e /\ (h = h1 ++ EvDirect u :: h2 \/ h = h1 ++ EvRender u :: h2))
    as [-> Hsplit'].
  { destruct Hsplit as [E|E]; simpl in E; injection E as -> ->; auto. }
  clear Hsplit. simpl in R.
  destruct e as [v| | v | v |].
  - destruct (bool_decide (v ∈ sel)); [discriminate|].
    assert (fet ⊆ {[v]} ∪ sel) as Sub'
        by (intros x Hx; by apply elem_of_union_r, Sub).
    destruct (IH _ _ Sub' R h1 h2 u Hsplit') as [Hin | Hin].
    + apply elem_of_union in Hin as [Hin | Hin].
      * apply elem_of_singleton in Hin as ->. right. apply elem_of_cons. by left.
      * by left.
    + right. apply elem_of_cons. by right.
  - destruct (IH _ _ Sub R h1 h2 u Hsplit') as [?|?]; [by left|].
    right. apply elem_of_cons. by right.
  - destruct (bool_decide (v ∈ sel)) eqn:Hv; simpl in R; [|discriminate].
    apply bool_decide_eq_true in Hv.
    destruct (bool_decide (v ∈ fet)); simpl in R; [discriminate|].
    assert ({[v]} ∪ fet ⊆ sel) as Sub'.
    { intros x Hx. apply elem_of_union in Hx as [Hx | Hx]; [|by apply Sub].
      by apply elem_of_singleton in Hx as ->. }
    destruct (IH _ _ Sub' R h1 h2 u Hsplit') as [?|?]; [by left|].
    right. apply elem_of_cons. by right.
  - destruct (bool_decide _); [|discriminate].
    destruct (IH _ _ Sub R h1 h2 u Hsplit') as [?|?]; [by left|].
    right. apply elem_of_cons. by right.
  - destruct (IH _ _ Sub R h1 h2 u Hsplit') as [?|?]; [by left|].
    right. apply elem_of_cons. by right.
Qed.

Section C1.
Context `{Platform} (W : World).

Lemma run_settled query : settled (snd (run W query)).
Proof.
  unfold run.
  apply (deepScrape_calm W ∅ query freshState). split; [reflexivity | done].
Qed.

(** C1: in one orchestration run no URL is trialed more than once.  The
    history of the run replays: a URL is added to [visited] at most once,
    its direct fetch follows that addition and is made at most once, and
    every fetch, direct or rendered, of a candidate URL or of an
    internal link, comes after the addition of its URL.  No entry leaves
    [visited]: at the end it holds exactly the URLs that were added. *)
Theorem no_url_is_trialed_twice (query : jsstring) :
  replay ∅ ∅ (history (snd (run W query)))
    = Some (visited (snd (run W query)), visited (snd (run W query))) /\
  NoDup (visits (history (snd (run W query)))) /\
  NoDup (directs (history (snd (run W query)))) /\
  (forall h1 h2 u,
      history (snd (run W query)) = h1 ++ EvDirect u :: h2 \/
      history (snd (run W query)) = h1 ++ EvRender u :: h2 ->
      EvVisit u ∈ h1) /\
  (forall u, u ∈ visits (history (snd (run W query))) <-> u ∈ visited (snd (run W query))).
Proof.
  pose proof (run_settled query) as S. unfold settled, tracked in S.
  destruct (replay_visits _ _ _ _ _ S) as (ND & _ & Mem).
  destruct (replay_directs _ _ _ _ _ S) as (NDd & _).
  split; [exact S|]. split; [exact ND|]. split; [exact NDd|]. split.
  - intros h1 h2 u Hsplit.
    assert ((∅ : gset jsstring) ⊆ ∅) as Sub by done.
    destruct (replay_fetch_after_visit _ _ _ _ _ Sub S h1 h2 u Hsplit) as [Hin|Hin];
      [by apply not_elem_of_empty in Hin | exact Hin].
  - intros u. rewrite Mem. split; [by right | intros [Hin|Hin]; [|exact Hin]].
    by apply not_elem_of_empty in Hin.
Qed.
End C1.

(** A run over a page with repeated links: the second candidate is the
    first again and is skipped, [/about] is found twice and tried once,
    the link to the page itself and the link to another host are not
    kept. *)
Example a_repeated_link_is_tried_once :
  history (snd (run Toy.linkedWorld (lit "zebra")))
  = [ EvSearch (lit "zebra");
      EvVisit Toy.siteUrl; EvDirect Toy.siteUrl;
      EvRender Toy.siteUrl; EvRender Toy.siteUrl;
      EvVisit (lit "http://a.com/about"); EvDirect (lit "http://a.com/about");
      EvRender (lit "http://a.com/about"); EvRender (lit "http://a.com/about") ].
Proof. vm_compute. reflexivity. Qed.

(** ** The content analyzer *)

Lemma relevance_range (matches total : nat) :
  matches <= total -> (0 <= relevance matches total /\ relevance matches total <= 1)%Q.
Proof.
  intros Hle. unfold relevance.
  assert (0 < inject_Z (Z.of_nat total) + (1 # 10000))%Q as Hpos.
  { unfold Qlt, Qplus, inject_Z. simpl. lia. }
  split.
  - apply Qle_shift_div_l; [exact Hpos|]. unfold Qle, Qmult, Qplus, inject_Z. simpl. lia.
  - apply Qle_shift_div_r; [exact Hpos|]. unfold Qle, Qmult, Qplus, inject_Z. simpl. lia.
Qed.

(** The threshold on whole numbers: the score is below 0.1 exactly when
    ten times the matches do not exceed the number of tokens. *)
Lemma relevance_below_threshold (matches total : nat) :
  (relevance matches total < 1 # 10)%Q <-> 10 * matches <= total.
Proof.
  unfold relevance.
  assert (0 < inject_Z (Z.of_nat total) + (1 # 10000))%Q as Hpos.
  { unfold Qlt, Qplus, inject_Z. simpl. lia. }
  split.
  - intros Hlt.
    apply (Qmult_lt_compat_r _ _ _ Hpos) in Hlt.
    unfold Qdiv in Hlt. rewrite <- Qmult_assoc, (Qmult_comm (/ _)), Qmult_inv_r, Qmult_1_r in Hlt
      by (intros E; rewrite E in Hpos; discriminate Hpos).
    unfold Qlt, Qmult, Qplus, inject_Z in Hlt. simpl in Hlt. lia.
  - intros Hle. apply Qlt_shift_div_r; [exact Hpos|].
    unfold Qlt, Qmult, Qplus, inject_Z. simpl. lia.
Qed.

Lemma Qltb_lt (a b : Q) : Qltb a b = true <-> (a < b)%Q.
Proof.
  unfold Qltb. rewrite negb_true_iff. split.
  - intros Hb. apply Qnot_le_lt. intros Hle. apply Qle_bool_iff in Hle. congruence.
  - intros Hlt. destruct (Qle_bool b a) eqn:E; [|reflexivity].
    apply Qle_bool_iff in E. exfalso. exact (Qlt_not_le _ _ Hlt E).
Qed.

Lemma filter_length_le {A : Type} (f : A -> bool) (l : list A) :
  length (List.filter f l) <= length l.
Proof. induction l as [|x l IH]; simpl; [lia|]. destruct (f x); simpl; lia. Qed.

Section Analyzer.
Context `{Platform}.

Lemma computedScore_range html query :
  (0 <= computedScore html query /\ computedScore html query <= 1)%Q.
Proof.
  unfold computedScore. cbv zeta.
  destruct (Nat.eqb _ 0); [split; discriminate|].
  apply relevance_range, filter_length_le.
Qed.

(** C2: for every markup and query the score of the analyzer lies in
    [[0,1]], and a computed score below 0.1 makes the analyzer return
    [null]; a result it does return carries the computed score. *)
Theorem analyzer_score_range (html url query : jsstring) :
  (0 <= computedScore html query /\ computedScore html query <= 1)%Q /\
  ((computedScore html query < 1 # 10)%Q ->
   analyzeHtmlForQuery html url query = None) /\
  (forall a, analyzeHtmlForQuery html url query = Some a ->
             score a = computedScore html query /\
             (0 <= score a /\ score a <= 1)%Q /\ ~ (score a < 1 # 10)%Q).
Proof.
  split; [apply computedScore_range|].
  pose proof (computedScore_range html query) as Range. revert Range.
  unfold computedScore, analyzeHtmlForQuery. cbv zeta.
  destruct (Nat.eqb _ 0).
  { intros Range. split; [intros Hlt; discriminate Hlt|].
    intros a [= <-]. simpl. split; [reflexivity|]. split; [exact Range|]. discriminate. }
  set (sc := relevance _ _). intros Range.
  destruct (Qltb sc (1 # 10)) eqn:E.
  - split; [reflexivity | discriminate].
  - split.
    + intros Hlt. apply Qltb_lt in Hlt. congruence.
    + intros a [= <-]. simpl. split; [reflexivity|]. split; [exact Range|].
      intros Hlt. apply Qltb_lt in Hlt. congruence.
Qed.

(** C6: a query whose tokenization yields no token gets score 1.0 for any
    markup, with the first 1500 code units of the visible text as the
    snippet. *)
Theorem zero_token_query (html url query : jsstring) :
  queryWordsOf query = [] ->
  analyzeHtmlForQuery html url query
    = Some {| snippet := take 1500 (visibleText html); score := 1 |} /\
  length (take 1500 (visibleText html)) <= 1500.
Proof.
  intros Hq. unfold analyzeHtmlForQuery. cbv zeta. rewrite Hq. simpl.
  split; [|rewrite length_take; lia].
  unfold substring. simpl. by rewrite drop_0.
Qed.
End Analyzer.

Lemma analyzer_score_range_witness :
  analyzeHtmlForQuery (Toy.page "<p>Hello World</p>") Toy.siteUrl (lit "zebra crossing") = None.
Proof.
  apply (analyzer_score_range (Toy.page "<p>Hello World</p>") Toy.siteUrl (lit "zebra crossing")).
  vm_compute. reflexivity.
Defined.

Lemma zero_token_query_witness :
  analyzeHtmlForQuery (Toy.page "<p>Hello World</p>") Toy.siteUrl (lit "? !")
    = Some {| snippet := take 1500 (visibleText (Toy.page "<p>Hello World</p>")); score := 1 |} /\
  length (take 1500 (visibleText (Toy.page "<p>Hello World</p>"))) <= 1500.
Proof.
  apply (zero_token_query (Toy.page "<p>Hello World</p>") Toy.siteUrl (lit "? !")).
  vm_compute. reflexivity.
Defined.

(** ** The shape of a trial and of the returned object *)

Lemma hoare_pure {A : Type} (F : Prop) (P : State -> Prop) (m : M A) (Q : A -> State -> Prop) :
  (F -> hoare P m Q) -> hoare (fun s => F /\ P s) m Q.
Proof. intros Hm s [HF Ps]. exact (Hm HF s Ps). Qed.

Lemma hoare_skip {A : Type} (P : State -> Prop) (a : A) : hoare P (mret a) (fun _ => P).
Proof. intros s Ps. exact Ps. Qed.

Lemma prefixed_extends h s s' evs : prefixed h s -> extends s s' evs -> prefixed h s'.
Proof.
  intros [e He] [_ Hh]. exists (e ++ evs). by rewrite Hh, He, app_assoc.
Qed.

Lemma stands_extends h s s' evs : stands h s -> extends s s' evs -> stands (h ++ evs) s'.
Proof. intros Hs [_ Hh]. unfold stands in *. by rewrite Hh, Hs. Qed.

Lemma stands_quiet h s s' : stands h s -> extends s s' [] -> stands h s'.
Proof. intros Hs E. rewrite <- (app_nil_r h). by apply (stands_extends h s). Qed.

Lemma stands_prefixed h s : stands h s -> prefixed h s.
Proof. intros Hs. exists []. by rewrite app_nil_r. Qed.

Section Outcomes.
Context `{Platform} (W : World).

Lemma method_prefixed {A : Type} (m : M A) (evs : list Event) h :
  (forall s, extends s (snd (m s)) evs) ->
  hoare (prefixed h) m (fun _ => prefixed h).
Proof.
  intros Hm. apply (hoare_extends _ _ _ evs Hm). intros s s'. apply prefixed_extends.
Qed.

Lemma win_prefixed h query snip sc src step :
  hoare (prefixed h)
    (push step;; o ← succeed W query snip sc src; mret (Some o))
    (fun _ => prefixed h).
Proof.
  eapply hoare_bind; [apply (method_prefixed _ []), push_extends|]. intros ?.
  eapply hoare_bind; [apply (method_prefixed _ [EvSynth query snip]), succeed_extends|].
  intros o.
  apply hoare_skip.
Qed.

Lemma tryInternalLink_prefixed h query u :
  hoare (prefixed h) (tryInternalLink W query u) (fun _ => prefixed h).
Proof.
  unfold tryInternalLink.
  eapply hoare_bind; [apply (method_prefixed _ [EvDirect u]), fetchHtmlRequests_extends|].
  intros html. cbv zeta.
  destruct (match html with Some _ => _ | None => _ end) as [hit|].
  { eapply hoare_bind; [apply (method_prefixed _ []), push_extends|]. intros ?.
    apply hoare_skip. }
  eapply hoare_bind; [apply (method_prefixed _ [EvRender u]), fetchHtmlWithScraper_extends|].
  intros scraped.
  destruct (match scraped with Some _ => _ | None => _ end) as [hit|].
  { eapply hoare_bind; [apply (method_prefixed _ []), push_extends|]. intros ?.
    apply hoare_skip. }
  eapply hoare_bind; [apply (method_prefixed _ [EvRender u]), extractFromJsRuntime_extends|].
  intros [r|]; [|apply hoare_skip].
  eapply hoare_bind; [apply (method_prefixed _ []), push_extends|]. intros ?.
  apply hoare_skip.
Qed.

Lemma checkLinks_prefixed h query links :
  hoare (prefixed h) (checkLinks W query links) (fun _ => prefixed h).
Proof.
  induction links as [|u links IH]; simpl; [apply hoare_skip|].
  eapply hoare_bind with (Q := fun _ => prefixed h); [by intros s Ps|]. intros [|].
  { exact IH. }
  eapply hoare_bind with (Q := fun _ => prefixed h).
  { intros s [e He]. exists (e ++ [EvVisit u]). simpl. by rewrite He, app_assoc. }
  intros ?.
  eapply hoare_bind; [apply tryInternalLink_prefixed|]. intros [r|].
  - apply hoare_skip.
  - exact IH.
Qed.

Lemma crawlInternalLinks_prefixed h baseUrl baseHtml query :
  hoare (prefixed h) (crawlInternalLinks W baseUrl baseHtml query) (fun _ => prefixed h).
Proof.
  unfold crawlInternalLinks. simpl.
  eapply hoare_bind; [apply (method_prefixed _ []), push_extends|]. intros ?.
  eapply hoare_bind with (Q := fun _ => prefixed h); [by intros s Ps|]. intros seen.
  destruct (discoverLinks _ _ _) as [links | message].
  - eapply hoare_bind; [apply (method_prefixed _ []), push_extends|]. intros ?.
    apply checkLinks_prefixed.
  - eapply hoare_bind; [apply (method_prefixed _ []), push_extends|]. intros ?.
    apply hoare_skip.
Qed.

(** A successful return right after the history [h]: the only event
    left is the call for the answer. *)
Lemma win_stands h query snip sc src step :
  hoare (stands h)
    (push step;; o ← succeed W query snip sc src; mret (Some o))
    (fun _ => stands (h ++ [EvSynth query snip])).
Proof.
  eapply hoare_bind.
  { apply (hoare_extends _ (stands h) _ []); [apply push_extends | intros s0 s'; apply stands_quiet]. }
  intros ?.
  eapply hoare_bind.
  { apply (hoare_extends _ (stands (h ++ [EvSynth query snip])) _ [EvSynth query snip]);
      [apply succeed_extends | intros s0 s'; apply stands_extends]. }
  intros o. apply hoare_skip.
Qed.

Lemma processUrl_tiers h query url :
  hoare (stands h) (processUrl W query url) (fun _ => tiers h query url).
Proof.
  unfold processUrl.
  eapply hoare_bind.
  { apply (hoare_extends _ (stands h) _ []); [apply push_extends | intros s0 s'; apply stands_quiet]. }
  intros ?.
  eapply hoare_bind.
  { apply (hoare_extends _ (stands (h ++ [EvDirect url])) _ [EvDirect url]);
      [apply fetchHtmlRequests_extends | intros s0 s'; apply stands_extends]. }
  intros fastHtml. cbv zeta.
  destruct (match fastHtml with Some _ => _ | None => _ end) as [hit|].
  { eapply hoare_conseq;
      [apply (win_stands (h ++ [EvDirect url])) | by intros s0 Hs |].
    intros ? s' Hs. left. exists (snippet hit). unfold stands in Hs.
    by rewrite Hs, <- app_assoc. }
  eapply hoare_bind.
  { apply (hoare_extends _ (stands ((h ++ [EvDirect url]) ++ [EvRender url])) _ [EvRender url]);
      [apply fetchHtmlWithScraper_extends | intros s0 s'; apply stands_extends]. }
  intros scrapedHtml.
  destruct (match scrapedHtml with Some _ => _ | None => _ end) as [hit|].
  { eapply hoare_conseq;
      [apply (win_stands ((h ++ [EvDirect url]) ++ [EvRender url])) | by intros s0 Hs |].
    intros ? s' Hs. right. left. exists (snippet hit). unfold stands in Hs.
    by rewrite Hs, <- !app_assoc. }
  eapply hoare_bind.
  { apply (hoare_extends _ (stands (((h ++ [EvDirect url]) ++ [EvRender url]) ++ [EvRender url]))
             _ [EvRender url]);
      [apply extractFromJsRuntime_extends | intros s0 s'; apply stands_extends]. }
  intros runtimeResult.
  assert (forall s', prefixed (((h ++ [EvDirect url]) ++ [EvRender url]) ++ [EvRender url]) s' ->
                     tiers h query url s') as Third.
  { intros s' [e He]. right. right. exists e. by rewrite He, <- !app_assoc. }
  eapply hoare_conseq with
    (P' := prefixed (((h ++ [EvDirect url]) ++ [EvRender url]) ++ [EvRender url]))
    (Q' := fun _ => prefixed (((h ++ [EvDirect url]) ++ [EvRender url]) ++ [EvRender url]));
    [|apply stands_prefixed | intros ?; exact Third].
  destruct runtimeResult as [r|]; [apply win_prefixed|].
  destruct (orElse scrapedHtml fastHtml) as [html|]; [|apply hoare_skip].
  destruct (isTruthy (Some html) && _); [|apply hoare_skip].
  eapply hoare_bind; [apply crawlInternalLinks_prefixed|]. intros [r|].
  - apply win_prefixed.
  - apply hoare_skip.
Qed.

(** *** The object a run returns *)

Lemma win_success (P : State -> Prop) query snip sc src step :
  hoare P (push step;; o ← succeed W query snip sc src; mret (Some o))
    (fun r _ => ifSome r).
Proof.
  intros s _. unfold mbind, M_bind, mret, M_ret. simpl.
  pose proof (succeed_isSuccess W query snip sc src (snd (push step s))) as Hs.
  simpl in Hs. destruct (succeed W query snip sc src _) as [o t]. simpl in *.
  by intros o' [= <-].
Qed.

Lemma miss_success (P : State -> Prop) : hoare P (mret None) (fun r _ => ifSome r).
Proof. intros s _ o. discriminate. Qed.

Lemma hoare_any {A : Type} (P : State -> Prop) (m : M A) :
  hoare P m (fun _ _ => True).
Proof. by intros s _. Qed.

Lemma processUrl_success query url :
  hoare (fun _ => True) (processUrl W query url) (fun r _ => ifSome r).
Proof.
  unfold processUrl.
  eapply hoare_bind; [apply hoare_any|]. intros ?.
  eapply hoare_bind; [apply hoare_any|]. intros fastHtml. cbv zeta.
  destruct (match fastHtml with Some _ => _ | None => _ end) as [hit|];
    [apply win_success|].
  eapply hoare_bind; [apply hoare_any|]. intros scrapedHtml.
  destruct (match scrapedHtml with Some _ => _ | None => _ end) as [hit|];
    [apply win_success|].
  eapply hoare_bind; [apply hoare_any|]. intros [r|]; [apply win_success|].
  destruct (orElse scrapedHtml fastHtml) as [html|]; [|apply miss_success].
  destruct (isTruthy (Some html) && _); [|apply miss_success].
  eapply hoare_bind; [apply hoare_any|]. intros [r|];
    [apply win_success | apply miss_success].
Qed.

Lemma processUrls_success query urls :
  hoare (fun _ => True) (processUrls W query urls) (fun r _ => ifSome r).
Proof.
  induction urls as [|u urls IH]; simpl; [apply miss_success|].
  eapply hoare_bind with (Q := fun _ _ => True); [apply hoare_any|]. intros [|];
    [exact IH|].
  eapply hoare_bind with (Q := fun _ _ => True); [apply hoare_any|]. intros ?.
  eapply hoare_bind; [apply processUrl_success|]. intros [o|].
  - intros s Ho o' [= <-]. by apply Ho.
  - eapply hoare_conseq; [exact IH | done | auto].
Qed.

(** [deepScrape] returns the object of a success, or the not-found
    object around the final [debug]. *)
Lemma deepScrape_outcome query s :
  isSuccess (fst (deepScrape W query s)) \/
  fst (deepScrape W query s) = notFound (debug (snd (deepScrape W query s))).
Proof.
  cut (hoare (fun _ => True) (deepScrape W query)
         (fun o s' => isSuccess o \/ o = notFound (debug s'))).
  { intros Hh. by apply Hh. }
  assert (forall step,
             hoare (fun _ => True)
               (push step;; d ← getDebug; mret (notFound d))
               (fun o s' => isSuccess o \/ o = notFound (debug s'))) as Miss.
  { intros step s0 _. right. reflexivity. }
  unfold deepScrape.
  eapply hoare_bind with (Q := fun _ _ => True); [apply hoare_any|]. intros ?.
  eapply hoare_bind with (Q := fun _ _ => True); [apply hoare_any|]. intros searchResults.
  eapply hoare_bind with (Q := fun _ _ => True); [apply hoare_any|]. intros ?.
  destruct (Nat.eqb _ 0); [apply Miss|].
  eapply hoare_bind; [apply processUrls_success|]. intros [o|].
  - intros s0 Ho. left. by apply Ho.
  - eapply hoare_conseq; [apply Miss | done | auto].
Qed.

(** C3, amended: every run returns an object with the fields [found],
    [snippet], [score], [source] (a URL or [null]) and [debug]; the
    field [answer] (a string or [null]) is present exactly when [found]
    is true. *)
Theorem outcome_fields (query : jsstring) (s : State) :
  (exists b, getProp (fst (deepScrape W query s)) "found"%string = Some (VBool b) /\
             hasProp (fst (deepScrape W query s)) "answer"%string = b) /\
  (exists t, getProp (fst (deepScrape W query s)) "snippet"%string = Some (VString t)) /\
  (exists q, getProp (fst (deepScrape W query s)) "score"%string = Some (VNumber q)) /\
  (exists v, getProp (fst (deepScrape W query s)) "source"%string = Some v /\
             (v = VNull \/ exists u, v = VString u)) /\
  (exists d, getProp (fst (deepScrape W query s)) "debug"%string = Some (VDebug d)) /\
  (forall v, getProp (fst (deepScrape W query s)) "answer"%string = Some v ->
             v = VNull \/ exists a, v = VString a).
Proof.
  destruct (deepScrape_outcome query s) as [(snip & sc & src & ans & d & ->) | ->].
  - split; [by exists true|]. split; [by exists snip|]. split; [by exists sc|].
    split; [exists (VString src); split; [done | right; by exists src]|].
    split; [by exists d|].
    intros v [= <-]. destruct ans as [a|]; [right; by exists a | by left].
  - split; [by exists false|]. split; [by exists []|]. split; [by exists 0%Q|].
    split; [exists VNull; split; [done | by left]|].
    split; [by eexists|]. intros v Hv. discriminate Hv.
Qed.

(** *** No candidates *)

(** C5: when the search yields no candidate URL, the run ends at once
    with [found = false], score 0.0, source [null] and a last step that
    notes the absence of results; the search request, which is sent when
    the query is well formed, is the only call made. *)
Theorem zero_candidates (query : jsstring) (s : State) :
  fst (performSearch W query (snd (push (lit "Starting deep scrape orchestration...") s))) = [] ->
  getProp (fst (deepScrape W query s)) "found"%string = Some (VBool false) /\
  getProp (fst (deepScrape W query s)) "snippet"%string = Some (VString []) /\
  getProp (fst (deepScrape W query s)) "score"%string = Some (VNumber 0) /\
  getProp (fst (deepScrape W query s)) "source"%string = Some VNull /\
  getProp (fst (deepScrape W query s)) "debug"%string
    = Some (VDebug (debug (snd (deepScrape W query s)))) /\
  last (steps (debug (snd (deepScrape W query s)))) = Some (lit "No search results found") /\
  history (snd (deepScrape W query s)) = history s ++ searchCalls query /\
  visited (snd (deepScrape W query s)) = visited s.
Proof.
  intros Hnone. unfold deepScrape, mbind, M_bind.
  set (s0 := snd (push (lit "Starting deep scrape orchestration...") s)) in *.
  change (push (lit "Starting deep scrape orchestration...") s) with (tt, s0).
  cbv iota beta.
  pose proof (performSearch_extends W query s0) as [Hv Hh].
  destruct (performSearch W query s0) as [searchResults s1]. simpl in Hnone, Hv, Hh.
  subst searchResults. simpl.
  repeat (split; [reflexivity|]).
  split; [apply last_snoc|]. split; [by rewrite Hh | by rewrite Hv].
Qed.

End Outcomes.

Lemma zero_candidates_witness :
  history (snd (deepScrape Toy.emptyWorld (lit "zebra") freshState))
    = history freshState ++ [EvSearch (lit "zebra")].
Proof.
  apply (zero_candidates Toy.emptyWorld (lit "zebra") freshState).
  vm_compute. reflexivity.
Defined.

(** A query with a high surrogate that has no partner: no request is
    sent, although the world would serve a page for every URL. *)
Example lone_surrogate_sends_nothing :
  wellFormed [55357%N] = false /\
  history (snd (run Toy.linkedWorld [55357%N])) = [] /\
  steps (debug (snd (run Toy.linkedWorld [55357%N])))
    = [lit "Starting deep scrape orchestration...";
       lit "Searching Google for relevant URLs...";
       lit "Search error: URI malformed";
       lit "No search results found"] /\
  getProp (fst (run Toy.linkedWorld [55357%N])) "found"%string = Some (VBool false).
Proof. repeat split; vm_compute; reflexivity. Qed.

(** C3 as stated fails: the objects returned when the search finds nothing
    and when every candidate is exhausted have no [answer] field. *)
Lemma not_found_has_no_answer :
  hasProp (fst (run Toy.emptyWorld (lit "zebra"))) "answer"%string = false /\
  hasProp (fst (run Toy.dullWorld (lit "zebra"))) "answer"%string = false.
Proof. split; vm_compute; reflexivity. Qed.

(** ** The fetch strategies *)

Lemma includes_nil (s : jsstring) : includes s [] = true.
Proof. destruct s; reflexivity. Qed.

Lemma existsb_elem {A : Type} (f : A -> bool) (l : list A) (x : A) :
  x ∈ l -> f x = true -> existsb f l = true.
Proof.
  intros Hin Hf. apply existsb_exists. exists x. split; [|exact Hf].
  by apply list_elem_of_In.
Qed.

Section Strategies.
Context `{Platform} (W : World).

(** *** The direct fetch *)

Lemma fetchHtmlRequests_reads h url status html :
  directReply W h url = Answered true status (Normal html) ->
  hoare (stands h) (fetchHtmlRequests W url)
    (fun r s' => r = Some html /\ stands (h ++ [EvDirect url]) s').
Proof.
  intros Hr s Hs. unfold stands in Hs. subst h.
  unfold fetchHtmlRequests, stands. run_monad. rewrite Hr. simpl. by split.
Qed.

Lemma fetchHtmlRequests_rejected url message s :
  directReply W (history s) url = Rejected message ->
  fst (fetchHtmlRequests W url s) = None /\
  steps (debug (snd (fetchHtmlRequests W url s)))
    = steps (debug s)
      ++ [lit "Fetching " ++ url ++ lit " via fast HTTP request";
          lit "Fast fetch failed for " ++ url ++ lit ": " ++ message].
Proof.
  intros Hr. unfold fetchHtmlRequests. run_monad. rewrite Hr. simpl.
  split; [reflexivity | by rewrite <- app_assoc].
Qed.

(** C4, at the failing input: on a response that is not [ok] the direct
    fetch returns [null] and adds no step after the one that announces
    the fetch, where the rendered fetch records the status it got. *)
Theorem direct_fetch_is_silent_on_bad_status (url : jsstring) (status : N)
    (body : completion jsstring) (s : State) :
  directReply W (history s) url = Answered false status body ->
  fst (fetchHtmlRequests W url s) = None /\
  steps (debug (snd (fetchHtmlRequests W url s)))
    = steps (debug s) ++ [lit "Fetching " ++ url ++ lit " via fast HTTP request"] /\
  steps (debug (snd (fetchHtmlWithScraper W url s)))
    = steps (debug s)
      ++ [lit "Scraping " ++ url ++ lit " with web scraper (JS rendering)"]
      ++ match renderReply W (history s) url with
         | Answered false status' _ =>
             [lit "Web scraper failed for " ++ url ++ lit ": " ++ of_N status']
         | Answered true _ (Normal html) =>
             [lit "Successfully scraped " ++ url ++ lit " with JS rendering ("
              ++ of_nat (length html) ++ lit " chars)"]
         | Answered true _ (Throw message) | Rejected message =>
             [lit "Scraper error for " ++ url ++ lit ": " ++ message]
         end.
Proof.
  intros Hr. unfold fetchHtmlRequests, fetchHtmlWithScraper. run_monad. rewrite Hr. simpl.
  split; [reflexivity|]. split; [reflexivity|].
  destruct (renderReply W (history s) url) as [m | [] st [html | m]]; simpl;
    by rewrite <- app_assoc.
Qed.

(** *** The rendered fetch and the runtime inspection *)

Lemma fetchHtmlWithScraper_reads h url status html :
  renderReply W h url = Answered true status (Normal html) ->
  hoare (stands h) (fetchHtmlWithScraper W url)
    (fun r s' => r = Some html /\ stands (h ++ [EvRender url]) s').
Proof.
  intros Hr s Hs. unfold stands in Hs. subst h.
  unfold fetchHtmlWithScraper, stands. run_monad. rewrite Hr. simpl. by split.
Qed.

Lemma extractFromJsRuntime_blank h url query status :
  renderReply W h url = Answered true status (Normal []) ->
  hoare (stands h) (extractFromJsRuntime W url query)
    (fun r s' => r = None /\ stands (h ++ [EvRender url]) s').
Proof.
  intros Hr s Hs. unfold stands in Hs. subst h.
  unfold extractFromJsRuntime, fetchHtmlWithScraper, stands. run_monad.
  rewrite Hr. simpl. by split.
Qed.

Lemma firstRelevantJson_head query j more :
  someQueryWordIn query (JSON_stringify j) = true ->
  firstRelevantJson query (j :: more) = Some (JSON_stringify j).
Proof. intros Hj. simpl. by rewrite Hj. Qed.

Lemma someQueryWordIn_fragment query text :
  someQueryWordIn query text = true <->
  exists w, w ∈ split (toLowerCase query) 32 /\ includes (toLowerCase text) w = true.
Proof.
  unfold someQueryWordIn. rewrite existsb_exists. split.
  - intros (w & Hw & Hin). exists w. split; [by apply list_elem_of_In | exact Hin].
  - intros (w & Hw & Hin). exists w. split; [by apply list_elem_of_In | exact Hin].
Qed.

Lemma firstRelevantJson_sound query blocks t :
  firstRelevantJson query blocks = Some t -> someQueryWordIn query t = true.
Proof.
  induction blocks as [|j blocks IH]; simpl; [discriminate|].
  destruct (someQueryWordIn query (JSON_stringify j)) eqn:E; [|exact IH].
  by intros [= <-].
Qed.

Lemma firstDataAttribute_head query m more whole groups v :
  matchFirst noFlags Patterns.attributeValue m = Some (whole, groups) ->
  capture 1 groups = Some v -> v <> [] ->
  someQueryWordIn query v = true ->
  firstDataAttribute query (m :: more) = Normal (Some v).
Proof.
  intros Hm Hc Hv Hq. cbn [firstDataAttribute]. rewrite Hm. cbv beta iota zeta.
  rewrite Hc. unfold default, id. rewrite Hq. destruct v; [done | reflexivity].
Qed.

Lemma firstDataAttribute_sound query ms v :
  firstDataAttribute query ms = Normal (Some v) ->
  v <> [] /\
  (someQueryWordIn query v = true \/ test noFlags Patterns.moneyLike v = true).
Proof.
  induction ms as [|m ms IH]; cbn [firstDataAttribute]; [discriminate|].
  destruct (matchFirst noFlags Patterns.attributeValue m) as [[whole groups]|];
    [|discriminate].
  cbv zeta. set (value := default [] (capture 1 groups)).
  destruct (truthy value) eqn:Ht; [|exact IH]. cbn [andb].
  destruct (someQueryWordIn query value) eqn:Hq; cbn [orb].
  - intros [= <-]. split; [by destruct value | by left].
  - destruct (test noFlags Patterns.moneyLike value) eqn:Hd; [|exact IH].
    intros [= <-]. split; [by destruct value | by right].
Qed.

Lemma firstWindowVar_hit query content pre p post whole groups c parsed :
  (forall p', p' ∈ pre -> matchFirst noFlags p' content = None) ->
  matchFirst noFlags p content = Some (whole, groups) ->
  capture 1 groups = Some c -> c <> [] ->
  JSON_parse c = Some parsed ->
  someQueryWordIn query (JSON_stringify parsed) = true ->
  firstWindowVar query content (pre ++ p :: post) = Some (JSON_stringify parsed).
Proof.
  intros Hpre Hm Hc Hne Hp Hq.
  induction pre as [|p' pre IH]; cbn [app firstWindowVar].
  - rewrite Hm. cbv beta iota. rewrite Hc.
    destruct c as [|x c]; [done|]. cbn [truthy]. rewrite Hp. cbv zeta. by rewrite Hq.
  - rewrite (Hpre p') by (apply elem_of_cons; by left).
    apply IH. intros p'' Hin. apply Hpre, elem_of_cons. by right.
Qed.

Lemma firstWindowVar_sound query content patterns t :
  firstWindowVar query content patterns = Some t -> someQueryWordIn query t = true.
Proof.
  induction patterns as [|p patterns IH]; cbn [firstWindowVar]; [discriminate|].
  destruct (matchFirst noFlags p content) as [[whole groups]|]; [|exact IH].
  destruct (capture 1 groups) as [c|]; [|exact IH].
  destruct (truthy c); [|exact IH].
  destruct (JSON_parse c) as [parsed|]; [|exact IH]. cbv zeta.
  destruct (someQueryWordIn query (JSON_stringify parsed)) eqn:Hq; [|exact IH].
  by intros [= <-].
Qed.

Lemma firstScriptData_sound query scripts t :
  firstScriptData query scripts = Some t -> someQueryWordIn query t = true.
Proof.
  induction scripts as [|script scripts IH]; cbn [firstScriptData]; [discriminate|].
  cbv zeta.
  destruct (firstWindowVar query _ Patterns.windowVarPatterns) as [d|] eqn:Hw; [|exact IH].
  intros [= <-]. by apply firstWindowVar_sound in Hw.
Qed.

Lemma extractFromJsRuntime_reads query url s status html :
  renderReply W (history s) url = Answered true status (Normal html) ->
  truthy html = true ->
  fst (extractFromJsRuntime W url query s) =
  match firstRelevantJson query (extractJsonLd html) with
  | Some jsonText => Some {| snippet := cleanText jsonText 1200; score := 9 # 10 |}
  | None =>
      match firstDataAttribute query
              (default [] (matchAll flagI Patterns.dataAttribute html)) with
      | Throw message => None
      | Normal (Some value) => Some {| snippet := cleanText value 400; score := 85 # 100 |}
      | Normal None =>
          match firstScriptData query
                  (default [] (matchAll flagIS Patterns.scriptBlock html)) with
          | Some dataText =>
              Some {| snippet := cleanText dataText 1200; score := 95 # 100 |}
          | None => None
          end
      end
  end.
Proof.
  intros Hr Ht. unfold extractFromJsRuntime, fetchHtmlWithScraper. run_monad.
  rewrite Hr. cbn beta iota. rewrite Ht. cbn beta iota.
  destruct (firstRelevantJson _ _); [reflexivity|].
  destruct (firstDataAttribute _ _) as [[v|]|]; try reflexivity.
  by destruct (firstScriptData _ _).
Qed.



(** *** Empty bodies *)

Lemma blank_direct_goes_on h query url st1 :
  directReply W h url = Answered true st1 (Normal []) ->
  hoare (stands h) (processUrl W query url)
    (fun _ => prefixed (h ++ [EvDirect url; EvRender url])).
Proof.
  intros H1. unfold processUrl.
  eapply hoare_bind.
  { apply (hoare_extends _ (stands h) _ []);
      [apply push_extends | intros s0 s'; apply stands_quiet]. }
  intros ?.
  eapply hoare_bind; [apply (fetchHtmlRequests_reads h url st1 [] H1)|].
  intros fastHtml. apply hoare_pure. intros ->. simpl.
  eapply hoare_bind.
  { apply (hoare_extends _ (stands ((h ++ [EvDirect url]) ++ [EvRender url])) _ [EvRender url]);
      [apply fetchHtmlWithScraper_extends | intros s0 s'; apply stands_extends]. }
  intros scrapedHtml.
  eapply hoare_conseq with
    (P' := prefixed (h ++ [EvDirect url; EvRender url]))
    (Q' := fun _ => prefixed (h ++ [EvDirect url; EvRender url]));
    [| intros s0 Hs; apply stands_prefixed; unfold stands in *;
       by rewrite Hs, <- app_assoc
     | auto].
  destruct (match scrapedHtml with Some _ => _ | None => _ end) as [hit|];
    [apply win_prefixed|].
  eapply hoare_bind;
    [apply (method_prefixed _ [EvRender url]), extractFromJsRuntime_extends|].
  intros [r|]; [apply win_prefixed|].
  destruct (orElse scrapedHtml (Some [])) as [html|]; [|apply hoare_skip].
  destruct (isTruthy (Some html) && _); [|apply hoare_skip].
  eapply hoare_bind; [apply crawlInternalLinks_prefixed|]. intros [r|].
  - apply win_prefixed.
  - apply hoare_skip.
Qed.

Lemma blank_trial h query url st1 st2 st3 :
  directReply W h url = Answered true st1 (Normal []) ->
  renderReply W (h ++ [EvDirect url]) url = Answered true st2 (Normal []) ->
  renderReply W (h ++ [EvDirect url; EvRender url]) url = Answered true st3 (Normal []) ->
  hoare (stands h) (processUrl W query url)
    (fun r s' => r = None /\ stands (h ++ [EvDirect url; EvRender url; EvRender url]) s').
Proof.
  intros H1 H2 H3. unfold processUrl.
  eapply hoare_bind.
  { apply (hoare_extends _ (stands h) _ []);
      [apply push_extends | intros s0 s'; apply stands_quiet]. }
  intros ?.
  eapply hoare_bind; [apply (fetchHtmlRequests_reads h url st1 [] H1)|].
  intros fastHtml. apply hoare_pure. intros ->. simpl.
  eapply hoare_bind; [apply (fetchHtmlWithScraper_reads _ url st2 [] H2)|].
  intros scrapedHtml. apply hoare_pure. intros ->. simpl.
  eapply hoare_bind.
  { apply (extractFromJsRuntime_blank ((h ++ [EvDirect url]) ++ [EvRender url]) url query st3).
    by rewrite <- app_assoc. }
  intros r. apply hoare_pure. intros ->. simpl.
  intros s Hs. split; [reflexivity|]. unfold stands in *. simpl.
  by rewrite Hs, <- !app_assoc.
Qed.

Lemma blank_link_trial h query url st1 st2 st3 :
  directReply W h url = Answered true st1 (Normal []) ->
  renderReply W (h ++ [EvDirect url]) url = Answered true st2 (Normal []) ->
  renderReply W (h ++ [EvDirect url; EvRender url]) url = Answered true st3 (Normal []) ->
  hoare (stands h) (tryInternalLink W query url)
    (fun r s' => r = None /\ stands (h ++ [EvDirect url; EvRender url; EvRender url]) s').
Proof.
  intros H1 H2 H3. unfold tryInternalLink.
  eapply hoare_bind; [apply (fetchHtmlRequests_reads h url st1 [] H1)|].
  intros fastHtml. apply hoare_pure. intros ->. simpl.
  eapply hoare_bind; [apply (fetchHtmlWithScraper_reads _ url st2 [] H2)|].
  intros scrapedHtml. apply hoare_pure. intros ->. simpl.
  eapply hoare_bind.
  { apply (extractFromJsRuntime_blank ((h ++ [EvDirect url]) ++ [EvRender url]) url query st3).
    by rewrite <- app_assoc. }
  intros r. apply hoare_pure. intros ->. simpl.
  intros s Hs. split; [reflexivity|]. unfold stands in *. simpl.
  by rewrite Hs, <- !app_assoc.
Qed.

Lemma analyzer_accepts_blank url query :
  queryWordsOf query = [] ->
  analyzeHtmlForQuery [] url query = Some {| snippet := []; score := 1 |}.
Proof.
  intros Hq. unfold analyzeHtmlForQuery. cbv zeta. rewrite Hq. reflexivity.
Qed.


(** *** The rendered fetch of the runtime inspection *)

Lemma processUrl_crawls (query url : jsstring) (s s1 s2 s3 : State)
    (fastHtml scrapedHtml : option jsstring) :
  fetchHtmlRequests W url
    (snd (push (lit "Processing " ++ url ++ lit " with multi-layer extraction") s))
    = (fastHtml, s1) ->
  analysisOf fastHtml url query = None ->
  fetchHtmlWithScraper W url s1 = (scrapedHtml, s2) ->
  analysisOf scrapedHtml url query = None ->
  extractFromJsRuntime W url query s2 = (None, s3) ->
  processUrl W query url s = crawlTier W query url (orElse scrapedHtml fastHtml) s3.
Proof.
  unfold analysisOf. intros H1 Ha1 H2 Ha2 H3.
  unfold processUrl, mbind, M_bind.
  destruct (push (lit "Processing " ++ url ++ lit " with multi-layer extraction") s)
    as [[] s0] eqn:Hp.
  simpl in H1. rewrite H1. cbv zeta. rewrite Ha1, H2, Ha2, H3.
  unfold crawlTier, mbind, M_bind. reflexivity.
Qed.

(** C8, amended: the runtime inspection always makes its own rendered
    fetch of the URL.  A trial that is not accepted after the direct or
    the rendered fetch therefore asks the renderer for the same URL a
    second time, whether or not the first request produced markup.  The
    markup of the first rendered fetch is used again in one place: when
    the three methods accept nothing, the link crawl starts from it, and
    from the markup of the direct fetch when it is missing or empty. *)
Theorem runtime_inspection_renders_again (url query : jsstring) (s : State) :
  history (snd (extractFromJsRuntime W url query s)) = history s ++ [EvRender url] /\
  tiers (history s) query url (snd (processUrl W query url s)) /\
  (forall s1 s2 s3 fastHtml scrapedHtml,
      fetchHtmlRequests W url
        (snd (push (lit "Processing " ++ url ++ lit " with multi-layer extraction") s))
        = (fastHtml, s1) ->
      analysisOf fastHtml url query = None ->
      fetchHtmlWithScraper W url s1 = (scrapedHtml, s2) ->
      analysisOf scrapedHtml url query = None ->
      extractFromJsRuntime W url query s2 = (None, s3) ->
      history s3 = history s ++ [EvDirect url; EvRender url; EvRender url] /\
      processUrl W query url s = crawlTier W query url (orElse scrapedHtml fastHtml) s3 /\
      (forall rendered,
          scrapedHtml = Some rendered -> rendered <> [] ->
          orElse scrapedHtml fastHtml = Some rendered /\
          crawlTier W query url (orElse scrapedHtml fastHtml) s3
          = (internalResult ← crawlInternalLinks W url rendered query;
             match internalResult with
             | Some internalResult =>
                 push (lit "Found relevant content via internal crawling: "
                       ++ source internalResult);;
                 o ← succeed W query (found_snippet internalResult)
                       (found_score internalResult) (source internalResult);
                 mret (Some o)
             | None => mret None
             end) s3) /\
      (isTruthy scrapedHtml = false -> orElse scrapedHtml fastHtml = fastHtml)).
Proof.
  split; [exact (proj2 (extractFromJsRuntime_extends W url query s))|].
  split; [exact (processUrl_tiers W (history s) query url s eq_refl)|].
  intros s1 s2 s3 fastHtml scrapedHtml H1 Ha1 H2 Ha2 H3.
  split; [|split; [by apply (processUrl_crawls query url s s1 s2 s3)|split]].
  - pose proof (fetchHtmlRequests_extends W url
                  (snd (push (lit "Processing " ++ url
                                  ++ lit " with multi-layer extraction") s))) as [_ E1].
    pose proof (fetchHtmlWithScraper_extends W url s1) as [_ E2].
    pose proof (extractFromJsRuntime_extends W url query s2) as [_ E3].
    rewrite H1 in E1. rewrite H2 in E2. rewrite H3 in E3. simpl in E1, E2, E3.
    rewrite E3, E2, E1. by rewrite <- !app_assoc.
  - intros rendered -> Hne. unfold orElse, isTruthy.
    destruct rendered as [|c rendered]; [done|]. split; reflexivity.
  - unfold orElse. by intros ->.
Qed.

End Strategies.

Lemma direct_fetch_is_silent_on_bad_status_witness :
  fst (fetchHtmlRequests Toy.dullWorld Toy.siteUrl freshState) = None /\
  steps (debug (snd (fetchHtmlRequests Toy.dullWorld Toy.siteUrl freshState)))
    = [lit "Fetching http://a.com/ via fast HTTP request"].
Proof.
  destruct (direct_fetch_is_silent_on_bad_status Toy.dullWorld Toy.siteUrl 404 (Normal [])
              freshState eq_refl) as (Hnull & Hsteps & _).
  split; [exact Hnull | exact Hsteps].
Defined.




(** The crawl starts from the markup of the first rendered fetch: of the
    three links, which the direct fetch, the first rendered fetch and the
    later rendered fetches show, the run tries the second. *)
Lemma runtime_inspection_renders_again_witness :
  exists s3,
    history s3 = [EvDirect Toy.siteUrl; EvRender Toy.siteUrl; EvRender Toy.siteUrl] /\
    processUrl tieredWorld (lit "zebra") Toy.siteUrl freshState
    = crawlTier tieredWorld (lit "zebra") Toy.siteUrl
        (Some (Toy.page "<a href='/first'>first</a>")) s3.
Proof.
  pose (s0 := snd (push (lit "Processing " ++ Toy.siteUrl
                         ++ lit " with multi-layer extraction") freshState)).
  pose (s1 := snd (fetchHtmlRequests tieredWorld Toy.siteUrl s0)).
  pose (s2 := snd (fetchHtmlWithScraper tieredWorld Toy.siteUrl s1)).
  pose (s3 := snd (extractFromJsRuntime tieredWorld Toy.siteUrl (lit "zebra") s2)).
  destruct (runtime_inspection_renders_again tieredWorld Toy.siteUrl (lit "zebra") freshState)
    as (_ & _ & Hcrawl).
  destruct (Hcrawl s1 s2 s3 (Some (Toy.page "<a href='/direct'>direct</a>"))
              (Some (Toy.page "<a href='/first'>first</a>")))
    as (Hh & Hp & _).
  - vm_compute. reflexivity.
  - vm_compute. reflexivity.
  - vm_compute. reflexivity.
  - vm_compute. reflexivity.
  - vm_compute. reflexivity.
  - exists s3. split; [exact Hh | exact Hp].
Defined.

Example crawl_reads_the_first_rendering :
  history (snd (run tieredWorld (lit "zebra")))
  = [EvSearch (lit "zebra"); EvVisit Toy.siteUrl; EvDirect Toy.siteUrl;
     EvRender Toy.siteUrl; EvRender Toy.siteUrl;
     EvVisit (lit "http://a.com/first"); EvDirect (lit "http://a.com/first");
     EvRender (lit "http://a.com/first"); EvRender (lit "http://a.com/first")].
Proof. vm_compute. reflexivity. Qed.

(** C8 as stated fails: the rendered fetch produced markup, and the runtime
    inspection asks the renderer for the same URL again. *)
Lemma rendered_markup_is_fetched_again :
  fst (fetchHtmlWithScraper Toy.dullWorld Toy.siteUrl freshState) = Some Toy.dullPage /\
  history (snd (run Toy.dullWorld (lit "zebra")))
    = [EvSearch (lit "zebra"); EvVisit Toy.siteUrl; EvDirect Toy.siteUrl;
       EvRender Toy.siteUrl; EvRender Toy.siteUrl] /\
  renders (history (snd (run Toy.dullWorld (lit "zebra")))) = [Toy.siteUrl; Toy.siteUrl].
Proof. repeat split; vm_compute; reflexivity. Qed.


(** ** Link discovery *)

Section Discovery.
Context `{Platform} (W : World).

Lemma collectLinks_sound baseUrl baseDomain seen linkMatches acc links :
  collectLinks baseUrl baseDomain seen linkMatches acc = Normal links ->
  length acc < 6 ->
  Forall (sameHostUnseen baseDomain seen) acc ->
  length links <= 6 /\ Forall (sameHostUnseen baseDomain seen) links.
Proof.
  revert acc. induction linkMatches as [|linkMatch more IH]; intros acc Hc Hlen Hall.
  { simpl in Hc. injection Hc as <-. split; [lia | exact Hall]. }
  cbn [collectLinks] in Hc.
  assert (forall fullUrl,
             match URL_hostname fullUrl with
             | Throw _ => collectLinks baseUrl baseDomain seen more acc
             | Normal linkDomain =>
                 if JsString.eqb linkDomain baseDomain && negb (bool_decide (fullUrl ∈ seen))
                 then
                   if Nat.leb 6 (length (acc ++ [fullUrl])) then Normal (acc ++ [fullUrl])
                   else collectLinks baseUrl baseDomain seen more (acc ++ [fullUrl])
                 else collectLinks baseUrl baseDomain seen more acc
             end = Normal links ->
             length links <= 6 /\ Forall (sameHostUnseen baseDomain seen) links) as Keep.
  { intros fullUrl Hk.
    destruct (URL_hostname fullUrl) as [linkDomain | message] eqn:Hhost;
      [|exact (IH acc Hk Hlen Hall)].
    destruct (JsString.eqb linkDomain baseDomain) eqn:Hd; cbn [andb negb] in Hk;
      [|exact (IH acc Hk Hlen Hall)].
    destruct (bool_decide (fullUrl ∈ seen)) eqn:Hs; cbn [andb negb] in Hk;
      [exact (IH acc Hk Hlen Hall)|].
    apply bool_decide_eq_true in Hd. subst linkDomain.
    apply bool_decide_eq_false in Hs.
    assert (Forall (sameHostUnseen baseDomain seen) (acc ++ [fullUrl])) as Hall'.
    { apply Forall_app. split; [exact Hall|]. constructor; [by split | constructor]. }
    assert (length (acc ++ [fullUrl]) = S (length acc)) as Hlen'
        by (rewrite length_app; simpl; lia).
    destruct (Nat.leb 6 (length (acc ++ [fullUrl]))) eqn:Hfull.
    - injection Hk as <-. split; [lia | exact Hall'].
    - apply Nat.leb_gt in Hfull. exact (IH _ Hk Hfull Hall'). }
  destruct (matchFirst flagI Patterns.hrefAttribute linkMatch) as [[m groups]|];
    [|exact (IH acc Hc Hlen Hall)].
  destruct (startsWith _ (lit "/")).
  { destruct (URL_resolve _ baseUrl) as [fullUrl | message]; [|discriminate].
    exact (Keep fullUrl Hc). }
  destruct (startsWith _ (lit "http")); [|exact (IH acc Hc Hlen Hall)].
  exact (Keep _ Hc).
Qed.

(** The links the discovery returns: at most six, each on the host of
    the base URL, none of them visited. *)
Lemma discoverLinks_sound baseUrl baseHtml seen links :
  discoverLinks baseUrl baseHtml seen = Normal links ->
  length links <= 6 /\
  exists baseDomain,
    URL_hostname baseUrl = Normal baseDomain /\
    Forall (sameHostUnseen baseDomain seen) links.
Proof.
  unfold discoverLinks. destruct (URL_hostname baseUrl) as [baseDomain | message];
    [|discriminate].
  intros Hc. destruct (collectLinks_sound _ _ _ _ [] links Hc) as [Hlen Hall];
    [simpl; lia | constructor |].
  split; [exact Hlen|]. by exists baseDomain.
Qed.

(** An absolute link that does not parse is skipped. *)
Lemma collectLinks_skips_malformed_absolute baseUrl baseDomain seen linkMatch more acc
    m groups message :
  matchFirst flagI Patterns.hrefAttribute linkMatch = Some (m, groups) ->
  startsWith (default [] (capture 1 groups)) (lit "/") = false ->
  startsWith (default [] (capture 1 groups)) (lit "http") = true ->
  URL_hostname (default [] (capture 1 groups)) = Throw message ->
  collectLinks baseUrl baseDomain seen (linkMatch :: more) acc
    = collectLinks baseUrl baseDomain seen more acc.
Proof. intros Hm Hs Hh Hu. cbn [collectLinks]. by rewrite Hm, Hs, Hh, Hu. Qed.

(** A link relative to the page that does not resolve ends the loop with
    its exception, whatever links follow. *)
Lemma collectLinks_aborts_on_malformed_relative baseUrl baseDomain seen linkMatch more acc
    m groups message :
  matchFirst flagI Patterns.hrefAttribute linkMatch = Some (m, groups) ->
  startsWith (default [] (capture 1 groups)) (lit "/") = true ->
  URL_resolve (default [] (capture 1 groups)) baseUrl = Throw message ->
  collectLinks baseUrl baseDomain seen (linkMatch :: more) acc = Throw message.
Proof. intros Hm Hs Hu. cbn [collectLinks]. by rewrite Hm, Hs, Hu. Qed.

Lemma crawlInternalLinks_aborted baseUrl baseHtml query message s :
  discoverLinks baseUrl baseHtml (visited s) = Throw message ->
  fst (crawlInternalLinks W baseUrl baseHtml query s) = None /\
  history (snd (crawlInternalLinks W baseUrl baseHtml query s)) = history s /\
  last (steps (debug (snd (crawlInternalLinks W baseUrl baseHtml query s))))
    = Some (lit "Internal crawl error: " ++ message).
Proof.
  intros Hd. unfold crawlInternalLinks. run_monad. rewrite Hd. simpl.
  split; [reflexivity|]. split; [reflexivity|]. apply last_snoc.
Qed.

End Discovery.

(** C7, at the failing input: a malformed link relative to the page ends
    the discovery with an exception, and the well-formed link after it is
    never tried; the same link written as an absolute URL is skipped. *)
Theorem malformed_relative_href_aborts_discovery :
  discoverLinks Toy.siteUrl Toy.brokenRelativePage ∅ = Throw (lit "Invalid URL") /\
  discoverLinks Toy.siteUrl Toy.brokenAbsolutePage ∅ = Normal [lit "http://a.com/about"] /\
  fst (crawlInternalLinks Toy.dullWorld Toy.siteUrl Toy.brokenRelativePage (lit "zebra")
         freshState) = None /\
  history (snd (crawlInternalLinks Toy.dullWorld Toy.siteUrl Toy.brokenRelativePage
                  (lit "zebra") freshState)) = [] /\
  steps (debug (snd (crawlInternalLinks Toy.dullWorld Toy.siteUrl Toy.brokenRelativePage
                       (lit "zebra") freshState)))
    = [lit "Crawling internal links on http://a.com/";
       lit "Internal crawl error: Invalid URL"] /\
  directs (history (snd (crawlInternalLinks Toy.dullWorld Toy.siteUrl Toy.brokenAbsolutePage
                           (lit "zebra") freshState)))
    = [lit "http://a.com/about"].
Proof. repeat split; vm_compute; reflexivity. Qed.

(** ** The calls a run makes *)

Lemma spent_start (s : State) : spent (history s) 0 0 0 s.
Proof. exists []. rewrite app_nil_r. repeat split; simpl; lia. Qed.

Lemma spent_weaken h0 d r a d' r' s :
  spent h0 d r a s -> d <= d' -> r <= r' -> spent h0 d' r' a s.
Proof.
  intros (evs & Hh & Hd & Hr & Ha & Hs) Hd' Hr'. exists evs. repeat split; auto; lia.
Qed.

Lemma spent_extends h0 d r a s s' evs :
  spent h0 d r a s -> extends s s' evs -> searches evs = [] ->
  spent h0 (d + length (directs evs)) (r + length (renders evs)) (a + length (synths evs)) s'.
Proof.
  intros (e0 & Hh & Hd & Hr & Ha & Hs) [_ Hh'] Hnone. exists (e0 ++ evs).
  unfold directs, renders, synths, searches in *.
  rewrite !omap_app, !length_app, Hs, Hnone, Hh', Hh, app_assoc.
  repeat split; auto; lia.
Qed.

Lemma spent_quiet h0 d r a s s' : spent h0 d r a s -> extends s s' [] -> spent h0 d r a s'.
Proof.
  intros Hs E. pose proof (spent_extends _ _ _ _ _ _ _ Hs E eq_refl) as H. simpl in H.
  by rewrite !Nat.add_0_r in H.
Qed.

Lemma spent_direct h0 d r a u s s' :
  spent h0 d r a s -> extends s s' [EvDirect u] -> spent h0 (S d) r a s'.
Proof.
  intros Hs E. pose proof (spent_extends _ _ _ _ _ _ _ Hs E eq_refl) as H. simpl in H.
  rewrite !Nat.add_0_r in H. by rewrite Nat.add_1_r in H.
Qed.

Lemma spent_render h0 d r a u s s' :
  spent h0 d r a s -> extends s s' [EvRender u] -> spent h0 d (S r) a s'.
Proof.
  intros Hs E. pose proof (spent_extends _ _ _ _ _ _ _ Hs E eq_refl) as H. simpl in H.
  rewrite !Nat.add_0_r in H. by rewrite Nat.add_1_r in H.
Qed.

Lemma spent_synth h0 d r a q c s s' :
  spent h0 d r a s -> extends s s' [EvSynth q c] -> spent h0 d r (S a) s'.
Proof.
  intros Hs E. pose proof (spent_extends _ _ _ _ _ _ _ Hs E eq_refl) as H. simpl in H.
  rewrite !Nat.add_0_r in H. by rewrite Nat.add_1_r in H.
Qed.

Lemma spent_visit h0 d r a u :
  hoare (spent h0 d r a) (visitedAdd u) (fun _ => spent h0 d r a).
Proof.
  intros s (evs & Hh & Hd & Hr & Ha & Hs). exists (evs ++ [EvVisit u]). simpl.
  unfold directs, renders, synths, searches in *.
  rewrite !omap_app, !length_app, Hs, Hh, app_assoc. simpl.
  repeat split; auto; lia.
Qed.

Section Budget.
Context `{Platform} (W : World).

Lemma push_spent h0 d r a step :
  hoare (spent h0 d r a) (push step) (fun _ => spent h0 d r a).
Proof. apply push_keeps. intros s s'. apply spent_quiet. Qed.

Lemma fetchHtmlRequests_spent h0 d r a u :
  hoare (spent h0 d r a) (fetchHtmlRequests W u) (fun _ => spent h0 (S d) r a).
Proof.
  apply (hoare_extends _ _ _ [EvDirect u]); [apply fetchHtmlRequests_extends|].
  intros s s'. apply spent_direct.
Qed.

Lemma fetchHtmlWithScraper_spent h0 d r a u :
  hoare (spent h0 d r a) (fetchHtmlWithScraper W u) (fun _ => spent h0 d (S r) a).
Proof.
  apply (hoare_extends _ _ _ [EvRender u]); [apply fetchHtmlWithScraper_extends|].
  intros s s'. apply spent_render.
Qed.

Lemma extractFromJsRuntime_spent h0 d r a u q :
  hoare (spent h0 d r a) (extractFromJsRuntime W u q) (fun _ => spent h0 d (S r) a).
Proof.
  apply (hoare_extends _ _ _ [EvRender u]); [apply extractFromJsRuntime_extends|].
  intros s s'. apply spent_render.
Qed.

Lemma win_spent h0 d r query snip sc src step :
  hoare (spent h0 d r 0)
    (push step;; o ← succeed W query snip sc src; mret (Some o))
    (fun res => spent h0 d r (answers res)).
Proof.
  eapply hoare_bind; [apply push_spent|]. intros ?.
  eapply hoare_bind.
  { apply (hoare_extends _ (spent h0 d r 1) _ [EvSynth query snip]);
      [apply succeed_extends | intros s s'; apply spent_synth]. }
  intros o s Hs. exact Hs.
Qed.

(** The trial of an internal link: one direct fetch, at most two rendered
    fetches, no call for an answer. *)
Lemma tryInternalLink_spent h0 d r query u :
  hoare (spent h0 d r 0) (tryInternalLink W query u)
    (fun _ => spent h0 (S d) (S (S r)) 0).
Proof.
  unfold tryInternalLink.
  eapply hoare_bind; [apply fetchHtmlRequests_spent|]. intros html. cbv zeta.
  destruct (match html with Some _ => _ | None => _ end) as [hit|].
  { eapply hoare_bind; [apply push_spent|]. intros ?.
    intros s Hs. apply (spent_weaken _ _ _ _ _ _ _ Hs); lia. }
  eapply hoare_bind; [apply fetchHtmlWithScraper_spent|]. intros scraped.
  destruct (match scraped with Some _ => _ | None => _ end) as [hit|].
  { eapply hoare_bind; [apply push_spent|]. intros ?.
    intros s Hs. apply (spent_weaken _ _ _ _ _ _ _ Hs); lia. }
  eapply hoare_bind; [apply extractFromJsRuntime_spent|]. intros [res|].
  - eapply hoare_bind; [apply push_spent|]. intros ?. by intros s Hs.
  - by intros s Hs.
Qed.

Lemma checkLinks_spent h0 query links :
  forall d r,
    hoare (spent h0 d r 0) (checkLinks W query links)
      (fun _ => spent h0 (d + length links) (r + 2 * length links) 0).
Proof.
  induction links as [|u links IH]; intros d r; simpl.
  { intros s Hs. apply (spent_weaken _ _ _ _ _ _ _ Hs); lia. }
  eapply hoare_bind with (Q := fun _ => spent h0 d r 0); [by intros s Hs|]. intros [|].
  { eapply hoare_conseq; [apply (IH d r) | by intros s0 Hs |].
    intros ? s Hs. apply (spent_weaken _ _ _ _ _ _ _ Hs); lia. }
  eapply hoare_bind; [apply spent_visit|]. intros ?.
  eapply hoare_bind; [apply tryInternalLink_spent|]. intros [res|].
  - intros s Hs. apply (spent_weaken _ _ _ _ _ _ _ Hs); lia.
  - eapply hoare_conseq; [apply (IH (S d) (S (S r))) | by intros s0 Hs |].
    intros ? s Hs. apply (spent_weaken _ _ _ _ _ _ _ Hs); lia.
Qed.

(** The crawl of one page: at most six links are tried. *)
Lemma crawlInternalLinks_spent h0 d r baseUrl baseHtml query :
  hoare (spent h0 d r 0) (crawlInternalLinks W baseUrl baseHtml query)
    (fun _ => spent h0 (d + 6) (r + 12) 0).
Proof.
  unfold crawlInternalLinks. simpl.
  eapply hoare_bind; [apply push_spent|]. intros ?.
  eapply hoare_bind with (Q := fun seen s => spent h0 d r 0 s); [by intros s Hs|].
  intros seen.
  destruct (discoverLinks baseUrl baseHtml seen) as [links | message] eqn:Hd.
  - apply discoverLinks_sound in Hd as [Hlen _].
    eapply hoare_bind; [apply push_spent|]. intros ?.
    eapply hoare_conseq; [apply (checkLinks_spent h0 query links d r) | by intros s0 Hs |].
    intros ? s Hs. apply (spent_weaken _ _ _ _ _ _ _ Hs); lia.
  - eapply hoare_bind; [apply push_spent|]. intros ?.
    intros s Hs. apply (spent_weaken _ _ _ _ _ _ _ Hs); lia.
Qed.

(** The trial of a candidate URL: a call for an answer is made exactly
    when the trial returns an object. *)
Lemma processUrl_spent h0 d r query u :
  hoare (spent h0 d r 0) (processUrl W query u)
    (fun res => spent h0 (d + 7) (r + 14) (answers res)).
Proof.
  assert (forall d' r' (res : option object) s,
             d' <= d + 7 -> r' <= r + 14 ->
             spent h0 d' r' (answers res) s ->
             spent h0 (d + 7) (r + 14) (answers res) s) as Fit.
  { intros d' r' res s Hd Hr Hs. by apply (spent_weaken _ _ _ _ _ _ _ Hs). }
  unfold processUrl.
  eapply hoare_bind; [apply push_spent|]. intros ?.
  eapply hoare_bind; [apply fetchHtmlRequests_spent|]. intros fastHtml. cbv zeta.
  destruct (match fastHtml with Some _ => _ | None => _ end) as [hit|].
  { eapply hoare_conseq; [apply (win_spent h0 (S d) r) | by intros s0 Hs |].
    intros res s. apply Fit; lia. }
  eapply hoare_bind; [apply fetchHtmlWithScraper_spent|]. intros scrapedHtml.
  destruct (match scrapedHtml with Some _ => _ | None => _ end) as [hit|].
  { eapply hoare_conseq; [apply (win_spent h0 (S d) (S r)) | by intros s0 Hs |].
    intros res s. apply Fit; lia. }
  eapply hoare_bind; [apply extractFromJsRuntime_spent|]. intros [res|].
  { eapply hoare_conseq; [apply (win_spent h0 (S d) (S (S r))) | by intros s0 Hs |].
    intros res' s. apply Fit; lia. }
  destruct (orElse scrapedHtml fastHtml) as [html|];
    [|intros s; apply (Fit _ _ None); lia].
  destruct (isTruthy (Some html) && _); [|intros s; apply (Fit _ _ None); lia].
  eapply hoare_bind; [apply crawlInternalLinks_spent|]. intros [res|].
  - eapply hoare_conseq;
      [apply (win_spent h0 (S d + 6) (S (S r) + 12)) | by intros s0 Hs |].
    intros res' s. apply Fit; lia.
  - intros s. apply (Fit _ _ None); lia.
Qed.

Lemma processUrls_spent h0 query urls :
  forall d r,
    hoare (spent h0 d r 0) (processUrls W query urls)
      (fun res => spent h0 (d + 7 * length urls) (r + 14 * length urls)
                    (answers res)).
Proof.
  induction urls as [|u urls IH]; intros d r; simpl.
  { intros s Hs. apply (spent_weaken _ _ _ _ _ _ _ Hs); lia. }
  eapply hoare_bind with (Q := fun _ => spent h0 d r 0); [by intros s Hs|]. intros [|].
  { eapply hoare_conseq; [apply (IH d r) | by intros s0 Hs |].
    intros res s Hs. apply (spent_weaken _ _ _ _ _ _ _ Hs); lia. }
  eapply hoare_bind; [apply spent_visit|]. intros ?.
  eapply hoare_bind; [apply processUrl_spent|]. intros [o|].
  - intros s Hs. apply (spent_weaken _ _ _ _ _ _ _ Hs); lia.
  - eapply hoare_conseq; [apply (IH (d + 7) (r + 14)) | by intros s0 Hs |].
    intros res s Hs. apply (spent_weaken _ _ _ _ _ _ _ Hs); lia.
Qed.

Lemma performSearch_bound query s :
  length (fst (performSearch W query s)) <= MAX_SEARCH_RESULTS.
Proof.
  unfold performSearch. run_monad.
  destruct (wellFormed query); simpl; [|lia].
  destruct (searchReply W (history s) query) as [m | [] st [[links|] | m]]; simpl; try lia.
  rewrite length_take. unfold MAX_SEARCH_RESULTS. lia.
Qed.

End Budget.

(** ** What a success returns *)

Lemma cleanText_length `{Platform} (text : jsstring) (maxLen : nat) :
  length (cleanText text maxLen) <= maxLen + 3.
Proof.
  unfold cleanText. cbv zeta.
  destruct (Nat.ltb maxLen _) eqn:Hlt.
  - rewrite length_app. unfold substring. rewrite length_take.
    change (length (lit "...")) with 3. lia.
  - apply Nat.ltb_ge in Hlt. lia.
Qed.

Section Won.
Context `{Platform} (W : World).

Lemma analyzer_passing html url query a :
  analyzeHtmlForQuery html url query = Some a -> passing (score a).
Proof.
  unfold analyzeHtmlForQuery. cbv zeta.
  destruct (Nat.eqb _ 0).
  { intros [= <-]. split; simpl; discriminate. }
  set (sc := relevance _ _).
  destruct (Qltb sc (1 # 10)) eqn:E; [discriminate|].
  intros [= <-]. simpl. split.
  - apply Qnot_lt_le. intros Hlt. apply Qltb_lt in Hlt. congruence.
  - apply relevance_range, filter_length_le.
Qed.

Lemma analyzed_passing (fetched : option jsstring) url query a :
  match fetched with
  | Some html => if truthy html then analyzeHtmlForQuery html url query else None
  | None => None
  end = Some a ->
  passing (score a).
Proof.
  destruct fetched as [html|]; [|discriminate].
  destruct (truthy html); [apply analyzer_passing | discriminate].
Qed.

(** The runtime inspection returns one of three fixed scores and a snippet
    cut to its cap. *)
Lemma extractFromJsRuntime_result url query s a :
  fst (extractFromJsRuntime W url query s) = Some a ->
  (score a == 9 # 10 \/ score a == 85 # 100 \/ score a == 95 # 100)%Q /\
  length (snippet a) <= 1203.
Proof.
  unfold extractFromJsRuntime, fetchHtmlWithScraper. run_monad.
  destruct (renderReply W (history s) url) as [m | [] st [html | m]]; simpl;
    try discriminate.
  destruct (truthy html); simpl; [|discriminate].
  destruct (firstRelevantJson _ _) as [jsonText|]; simpl.
  { intros [= <-]. simpl. split; [by left | apply cleanText_length]. }
  destruct (firstDataAttribute _ _) as [[v|]|]; simpl; [| |discriminate].
  { intros [= <-]. simpl. split; [right; by left|].
    pose proof (cleanText_length v 400). lia. }
  destruct (firstScriptData _ _) as [dataText|]; simpl; [|discriminate].
  intros [= <-]. simpl. split; [right; by right | apply cleanText_length].
Qed.

Lemma runtime_passing url query s a :
  fst (extractFromJsRuntime W url query s) = Some a -> passing (score a).
Proof.
  intros Hr. apply extractFromJsRuntime_result in Hr as [[E | [E | E]] _];
    unfold passing; rewrite E; split; discriminate.
Qed.


(** [url] stays in [visited]. *)
Lemma keeps_member {A : Type} (m : M A) (evs : list Event) (url : jsstring) :
  (forall s, extends s (snd (m s)) evs) ->
  hoare (fun s => url ∈ visited s) m (fun _ s => url ∈ visited s).
Proof. intros Hm s Hs. by rewrite (proj1 (Hm s)). Qed.

Lemma win_won query snip sc src step :
  passing sc ->
  hoare (fun s => src ∈ visited s)
    (push step;; o ← succeed W query snip sc src; mret (Some o))
    (wonIf query).
Proof.
  intros Hsc s Hsrc o. unfold succeed, generateAIAnswer. run_monad.
  assert (forall (st : State) (final : jsstring),
             visited st = visited s -> history st = history s ++ [EvSynth query snip] ->
             last (steps (debug st)) = Some final -> noAnswerStep final ->
             won query
               [ ("found"%string, VBool true); ("snippet"%string, VString snip);
                 ("score"%string, VNumber sc); ("source"%string, VString src);
                 ("answer"%string, VNull); ("debug"%string, VDebug (debug st)) ] st)
    as Null.
  { intros st final Hv Hh Hl Hn. exists snip, sc, src, None.
    split; [reflexivity|]. split; [exact Hsc|]. split; [by rewrite Hv|].
    split; [rewrite Hh; apply last_snoc|]. by exists final. }
  destruct (synthReply W (history s) query snip) as [m | ok st [[answer|] | m]];
    [|destruct ok..]; simpl.
  - intros [= <-]. match goal with |- won _ _ ?st => eapply (Null st) end; [done | done | apply last_snoc | right; by eexists].
  - destruct (truthy answer) eqn:Ht; simpl; intros [= <-].
    + exists snip, sc, src, (Some answer). simpl.
      split; [reflexivity|]. split; [exact Hsc|]. split; [exact Hsrc|].
      split; [apply last_snoc|]. split; [by destruct answer | apply last_snoc].
    + match goal with |- won _ _ ?st => eapply (Null st) end; [done | done | apply last_snoc | by left].
  - intros [= <-]. match goal with |- won _ _ ?st => eapply (Null st) end; [done | done | apply last_snoc | right; by eexists].
  - intros [= <-]. match goal with |- won _ _ ?st => eapply (Null st) end; [done | done | apply last_snoc | by left].
  - intros [= <-]. match goal with |- won _ _ ?st => eapply (Null st) end; [done | done | apply last_snoc | right; by eexists].
  - intros [= <-]. match goal with |- won _ _ ?st => eapply (Null st) end; [done | done | apply last_snoc | right; by eexists].
  - intros [= <-]. match goal with |- won _ _ ?st => eapply (Null st) end; [done | done | apply last_snoc | right; by eexists].
Qed.

Lemma extractFromJsRuntime_member url query u :
  hoare (fun s => u ∈ visited s) (extractFromJsRuntime W url query)
    (fun r s => (forall a, r = Some a -> passing (score a)) /\ u ∈ visited s).
Proof.
  intros s Hs. split.
  - intros a Ha. by apply (runtime_passing url query s).
  - by rewrite (proj1 (extractFromJsRuntime_extends W url query s)).
Qed.

(** The trial of an internal link returns that link as the source. *)
Lemma tryInternalLink_found query u :
  hoare (fun s => u ∈ visited s) (tryInternalLink W query u) foundIf.
Proof.
  unfold tryInternalLink.
  eapply hoare_bind;
    [apply (keeps_member _ [EvDirect u]), fetchHtmlRequests_extends|].
  intros html. cbv zeta.
  destruct (match html with Some _ => _ | None => _ end) as [hit|] eqn:Hhit.
  { apply analyzed_passing in Hhit.
    eapply hoare_bind; [apply (keeps_member _ []), push_extends|]. intros ?.
    intros s Hs r [= <-]. by split. }
  eapply hoare_bind;
    [apply (keeps_member _ [EvRender u]), fetchHtmlWithScraper_extends|].
  intros scraped.
  destruct (match scraped with Some _ => _ | None => _ end) as [hit|] eqn:Hhit2.
  { apply analyzed_passing in Hhit2.
    eapply hoare_bind; [apply (keeps_member _ []), push_extends|]. intros ?.
    intros s Hs r [= <-]. by split. }
  eapply hoare_bind; [apply extractFromJsRuntime_member|]. intros [res|].
  - apply hoare_pure. intros Hres.
    eapply hoare_bind; [apply (keeps_member _ []), push_extends|]. intros ?.
    intros s Hs r [= <-]. split; [by apply Hres | exact Hs].
  - intros s Hs r. discriminate.
Qed.

Lemma checkLinks_found query links :
  hoare (fun _ => True) (checkLinks W query links) foundIf.
Proof.
  induction links as [|u links IH]; simpl.
  { intros s _ r. discriminate. }
  eapply hoare_bind with (Q := fun _ _ => True); [apply hoare_any|]. intros [|];
    [exact IH|].
  eapply hoare_bind with (Q := fun _ s => u ∈ visited s).
  { intros s _. simpl. apply elem_of_union_l, elem_of_singleton. reflexivity. }
  intros ?.
  eapply hoare_bind; [apply tryInternalLink_found|]. intros [r|].
  - intros s Hs r' [= <-]. by apply Hs.
  - eapply hoare_conseq; [exact IH | done | auto].
Qed.

Lemma crawlInternalLinks_found baseUrl baseHtml query :
  hoare (fun _ => True) (crawlInternalLinks W baseUrl baseHtml query) foundIf.
Proof.
  unfold crawlInternalLinks. simpl.
  eapply hoare_bind with (Q := fun _ _ => True); [apply hoare_any|]. intros ?.
  eapply hoare_bind with (Q := fun _ _ => True); [apply hoare_any|]. intros seen.
  destruct (discoverLinks baseUrl baseHtml seen) as [links | message].
  - eapply hoare_bind with (Q := fun _ _ => True); [apply hoare_any|]. intros ?.
    apply checkLinks_found.
  - eapply hoare_bind with (Q := fun _ _ => True); [apply hoare_any|]. intros ?.
    intros s _ r. discriminate.
Qed.

Lemma processUrl_won query u :
  hoare (fun s => u ∈ visited s) (processUrl W query u) (wonIf query).
Proof.
  unfold processUrl.
  eapply hoare_bind; [apply (keeps_member _ []), push_extends|]. intros ?.
  eapply hoare_bind;
    [apply (keeps_member _ [EvDirect u]), fetchHtmlRequests_extends|].
  intros fastHtml. cbv zeta.
  destruct (match fastHtml with Some _ => _ | None => _ end) as [hit|] eqn:Hhit.
  { apply win_won. by apply analyzed_passing in Hhit. }
  eapply hoare_bind;
    [apply (keeps_member _ [EvRender u]), fetchHtmlWithScraper_extends|].
  intros scrapedHtml.
  destruct (match scrapedHtml with Some _ => _ | None => _ end) as [hit|] eqn:Hhit2.
  { apply win_won. by apply analyzed_passing in Hhit2. }
  eapply hoare_bind; [apply extractFromJsRuntime_member|]. intros [res|].
  { apply hoare_pure. intros Hres. apply win_won. by apply Hres. }
  destruct (orElse scrapedHtml fastHtml) as [html|]; [|intros s _ o; discriminate].
  destruct (isTruthy (Some html) && _); [|intros s _ o; discriminate].
  eapply hoare_bind with (Q := foundIf).
  { eapply hoare_conseq; [apply crawlInternalLinks_found | done | auto]. }
  intros [r|].
  - intros s Hs. destruct (Hs r eq_refl) as [Hsc Hsrc].
    by apply (win_won query _ _ _ _ Hsc s Hsrc).
  - intros s _ o. discriminate.
Qed.

Lemma processUrls_won query urls :
  hoare (fun _ => True) (processUrls W query urls) (wonIf query).
Proof.
  induction urls as [|u urls IH]; simpl.
  { intros s _ o. discriminate. }
  eapply hoare_bind with (Q := fun _ _ => True); [apply hoare_any|]. intros [|];
    [exact IH|].
  eapply hoare_bind with (Q := fun _ s => u ∈ visited s).
  { intros s _. simpl. apply elem_of_union_l, elem_of_singleton. reflexivity. }
  intros ?.
  eapply hoare_bind; [apply processUrl_won|]. intros [o|].
  - intros s Hs o' [= <-]. by apply Hs.
  - eapply hoare_conseq; [exact IH | done | auto].
Qed.

End Won.

(** ** The trace only grows *)

Lemma steady_bind {A B : Type} (R : State -> State -> Prop) (m : M A) (f : A -> M B) :
  (forall s1 s2 s3, R s1 s2 -> R s2 s3 -> R s1 s3) ->
  steady R m -> (forall a, steady R (f a)) -> steady R (mbind f m).
Proof.
  intros Htrans Hm Hf s. unfold mbind, M_bind.
  specialize (Hm s). destruct (m s) as [a s1]. simpl in Hm.
  exact (Htrans _ _ _ Hm (Hf a s1)).
Qed.

Lemma logs_debug d s s' : debug s = d -> debug s' = d -> logs s s'.
Proof.
  intros E E'. unfold logs. rewrite E, E'. split; [reflexivity|].
  exists []. by rewrite app_nil_r.
Qed.

Lemma logs_refl s : logs s s.
Proof. by apply (logs_debug (debug s)). Qed.

Lemma logs_trans s1 s2 s3 : logs s1 s2 -> logs s2 s3 -> logs s1 s3.
Proof.
  intros [Hr1 [t1 Ht1]] [Hr2 [t2 Ht2]]. split; [congruence|].
  exists (t1 ++ t2). by rewrite Ht2, Ht1, app_assoc.
Qed.

Lemma logs_same_debug s s' : debug s' = debug s -> logs s s'.
Proof. intros E. by apply (logs_debug (debug s)). Qed.

Lemma logs_ret {A : Type} (a : A) : steady logs (mret a).
Proof. intros s. apply logs_refl. Qed.

Lemma logs_push step : steady logs (push step).
Proof. intros s. split; [reflexivity|]. by exists [step]. Qed.

Lemma logs_call {B : Type} ev (reply : list Event -> Reply B) : steady logs (call ev reply).
Proof. intros s. by apply logs_same_debug. Qed.

Lemma logs_visitedAdd u : steady logs (visitedAdd u).
Proof. intros s. by apply logs_same_debug. Qed.

Lemma logs_visitedHas u : steady logs (visitedHas u).
Proof. intros s. apply logs_refl. Qed.

Lemma logs_getDebug : steady logs getDebug.
Proof. intros s. apply logs_refl. Qed.

Lemma logs_getVisited : steady logs getVisited.
Proof. intros s. apply logs_refl. Qed.

Ltac logs_step :=
  first
    [ apply logs_ret | apply logs_push | apply logs_call | apply logs_visitedAdd
    | apply logs_visitedHas | apply logs_getDebug | apply logs_getVisited
    | apply (steady_bind logs _ _ logs_trans); [|intros ?] ].

Ltac logs_cases :=
  repeat first
    [ logs_step
    | match goal with
      | |- steady logs (match ?x with _ => _ end) => destruct x
      | |- steady logs (if ?b then _ else _) => destruct b
      | |- steady logs (let _ := _ in _) => cbv zeta
      | |- steady logs (mret _) => apply logs_ret
      end ].

Section Trace.
Context `{Platform} (W : World).

Lemma logs_performSearch query : steady logs (performSearch W query).
Proof. unfold performSearch. logs_cases. Qed.

Lemma logs_fetchHtmlRequests url : steady logs (fetchHtmlRequests W url).
Proof. unfold fetchHtmlRequests. logs_cases. Qed.

Lemma logs_fetchHtmlWithScraper url : steady logs (fetchHtmlWithScraper W url).
Proof. unfold fetchHtmlWithScraper. logs_cases. Qed.

Lemma logs_extractFromJsRuntime url query : steady logs (extractFromJsRuntime W url query).
Proof.
  unfold extractFromJsRuntime.
  apply (steady_bind logs _ _ logs_trans); [apply logs_push|]. intros ?.
  apply (steady_bind logs _ _ logs_trans); [apply logs_fetchHtmlWithScraper|].
  intros fetched. logs_cases.
Qed.

Lemma logs_generateAIAnswer query context : steady logs (generateAIAnswer W query context).
Proof. unfold generateAIAnswer. logs_cases. Qed.

Lemma logs_succeed query snip sc src : steady logs (succeed W query snip sc src).
Proof.
  unfold succeed.
  apply (steady_bind logs _ _ logs_trans); [apply logs_generateAIAnswer|]. intros ?.
  logs_cases.
Qed.

Lemma logs_tryInternalLink query u : steady logs (tryInternalLink W query u).
Proof.
  unfold tryInternalLink.
  apply (steady_bind logs _ _ logs_trans); [apply logs_fetchHtmlRequests|]. intros html.
  cbv zeta. destruct (match html with Some _ => _ | None => _ end); [logs_cases|].
  apply (steady_bind logs _ _ logs_trans); [apply logs_fetchHtmlWithScraper|].
  intros scraped. destruct (match scraped with Some _ => _ | None => _ end); [logs_cases|].
  apply (steady_bind logs _ _ logs_trans); [apply logs_extractFromJsRuntime|].
  intros res. logs_cases.
Qed.

Lemma logs_checkLinks query links : steady logs (checkLinks W query links).
Proof.
  induction links as [|u links IH]; simpl; [apply logs_ret|].
  apply (steady_bind logs _ _ logs_trans); [apply logs_visitedHas|]. intros [|]; [exact IH|].
  apply (steady_bind logs _ _ logs_trans); [apply logs_visitedAdd|]. intros ?.
  apply (steady_bind logs _ _ logs_trans); [apply logs_tryInternalLink|].
  intros [r|]; [apply logs_ret | exact IH].
Qed.

Lemma logs_crawlInternalLinks baseUrl baseHtml query :
  steady logs (crawlInternalLinks W baseUrl baseHtml query).
Proof.
  unfold crawlInternalLinks. simpl.
  apply (steady_bind logs _ _ logs_trans); [apply logs_push|]. intros ?.
  apply (steady_bind logs _ _ logs_trans); [apply logs_getVisited|]. intros seen.
  destruct (discoverLinks baseUrl baseHtml seen).
  - apply (steady_bind logs _ _ logs_trans); [apply logs_push|]. intros ?.
    apply logs_checkLinks.
  - logs_cases.
Qed.

Lemma logs_win query snip sc src step :
  steady logs (push step;; o ← succeed W query snip sc src; mret (Some o)).
Proof.
  apply (steady_bind logs _ _ logs_trans); [apply logs_push|]. intros ?.
  apply (steady_bind logs _ _ logs_trans); [apply logs_succeed|]. intros ?.
  apply logs_ret.
Qed.

Lemma logs_processUrl query u : steady logs (processUrl W query u).
Proof.
  unfold processUrl.
  apply (steady_bind logs _ _ logs_trans); [apply logs_push|]. intros ?.
  apply (steady_bind logs _ _ logs_trans); [apply logs_fetchHtmlRequests|].
  intros fastHtml. cbv zeta.
  destruct (match fastHtml with Some _ => _ | None => _ end); [apply logs_win|].
  apply (steady_bind logs _ _ logs_trans); [apply logs_fetchHtmlWithScraper|].
  intros scrapedHtml.
  destruct (match scrapedHtml with Some _ => _ | None => _ end); [apply logs_win|].
  apply (steady_bind logs _ _ logs_trans); [apply logs_extractFromJsRuntime|].
  intros [res|]; [apply logs_win|].
  destruct (orElse scrapedHtml fastHtml) as [html|]; [|apply logs_ret].
  destruct (isTruthy (Some html) && _); [|apply logs_ret].
  apply (steady_bind logs _ _ logs_trans); [apply logs_crawlInternalLinks|].
  intros [r|]; [apply logs_win | apply logs_ret].
Qed.

Lemma logs_processUrls query urls : steady logs (processUrls W query urls).
Proof.
  induction urls as [|u urls IH]; simpl; [apply logs_ret|].
  apply (steady_bind logs _ _ logs_trans); [apply logs_visitedHas|]. intros [|]; [exact IH|].
  apply (steady_bind logs _ _ logs_trans); [apply logs_visitedAdd|]. intros ?.
  apply (steady_bind logs _ _ logs_trans); [apply logs_processUrl|].
  intros [o|]; [apply logs_ret | exact IH].
Qed.

End Trace.

(** ** The run as a whole *)

Lemma hoare_conj {A : Type} (P : State -> Prop) (Q1 Q2 : A -> State -> Prop) (m : M A) :
  hoare P m Q1 -> hoare P m Q2 -> hoare P m (fun a s => Q1 a s /\ Q2 a s).
Proof. intros H1 H2 s Ps. split; [by apply H1 | by apply H2]. Qed.

Lemma replay_fetched (sel fet : gset jsstring) (h : list Event) sel' fet' :
  replay sel fet h = Some (sel', fet') ->
  forall u, u ∈ fet' <-> u ∈ fet \/ u ∈ directs h.
Proof.
  revert sel fet. induction h as [|e h IH]; intros sel fet R u; simpl in R.
  { injection R as <- <-. split; [auto | intros [?|Hin]; [done | inversion Hin]]. }
  destruct e as [v| | v | v |]; unfold directs; simpl; fold (directs h).
  - destruct (bool_decide (v ∈ sel)); [discriminate | exact (IH _ _ R u)].
  - exact (IH _ _ R u).
  - destruct (_ && _); [|discriminate].
    rewrite (IH _ _ R u), elem_of_cons, elem_of_union, elem_of_singleton. tauto.
  - destruct (bool_decide _); [exact (IH _ _ R u) | discriminate].
  - exact (IH _ _ R u).
Qed.

Section Run.
Context `{Platform} (W : World).

(** The candidates are recorded, and they are at most eight. *)
Lemma performSearch_results query :
  hoare (fun _ => True) (performSearch W query)
    (fun results _ => length results <= 8).
Proof. intros s _. apply performSearch_bound. Qed.

(** *** The calls of a run *)

Lemma deepScrape_spent query h :
  hoare (stands h) (deepScrape W query)
    (fun o s' =>
       (isSuccess o /\ spent (h ++ searchCalls query) 56 112 1 s') \/
       (o = notFound (debug s') /\ spent (h ++ searchCalls query) 56 112 0 s')).
Proof.
  unfold deepScrape.
  eapply hoare_bind.
  { apply (hoare_extends _ (stands h) _ []);
      [apply push_extends | intros s0 s'; apply stands_quiet]. }
  intros ?.
  eapply hoare_bind with
    (Q := fun results s => length results <= 8 /\ spent (h ++ searchCalls query) 0 0 0 s).
  { intros s Hs. split; [apply performSearch_bound|].
    destruct (performSearch_extends W query s) as [_ Hh].
    exists []. rewrite Hh, app_nil_r. unfold stands in Hs. rewrite Hs.
    repeat split; simpl; lia. }
  intros searchResults. apply hoare_pure. intros Hlen.
  eapply hoare_bind with (Q := fun _ => spent (h ++ searchCalls query) 0 0 0).
  { intros s Hs. exact Hs. }
  intros ?.
  destruct (Nat.eqb (length searchResults) 0).
  { eapply hoare_bind; [apply push_spent|]. intros ?.
    intros s Hs. right. split; [reflexivity|].
    apply (spent_weaken _ _ _ _ _ _ _ Hs); lia. }
  eapply hoare_bind.
  { apply hoare_conj;
      [apply (processUrls_spent W (h ++ searchCalls query) query searchResults 0 0)|].
    eapply hoare_conseq; [apply (processUrls_success W query searchResults) | done | ].
    intros res s0 Hres. exact Hres. }
  intros [o|].
  - intros s [Hs Ho]. left. split; [by apply Ho|].
    apply (spent_weaken _ _ _ _ _ _ _ Hs); unfold MAX_SEARCH_RESULTS in *; lia.
  - eapply hoare_bind with (Q := fun _ => spent (h ++ searchCalls query) 56 112 0).
    { intros s [Hs _]. apply (spent_quiet _ _ _ _ s); [|apply push_extends].
      apply (spent_weaken _ _ _ _ _ _ _ Hs); simpl; lia. }
    intros ?. intros s Hs. right. by split.
Qed.

(** *** How a run ends *)

Lemma deepScrape_ended query :
  hoare (fun _ => True) (deepScrape W query) (ended query).
Proof.
  unfold deepScrape.
  eapply hoare_bind with (Q := fun _ _ => True); [apply hoare_any|]. intros ?.
  eapply hoare_bind with (Q := fun _ _ => True); [apply hoare_any|]. intros searchResults.
  eapply hoare_bind with (Q := fun _ s => search_results (debug s) = searchResults).
  { by intros s _. }
  intros ?.
  destruct searchResults as [|c cs]; simpl.
  { intros s Hs. right. simpl. rewrite Hs. split; [reflexivity | apply last_snoc]. }
  eapply hoare_bind with
    (Q := fun res s => wonIf query res s /\ search_results (debug s) = c :: cs).
  { intros s Hs. split.
    - by apply (processUrls_won W query (c :: cs) s).
    - rewrite <- Hs. exact (proj1 (logs_processUrls W query (c :: cs) s)). }
  intros [o|].
  - intros s [Hw _]. left. by apply Hw.
  - intros s [_ Hs]. right. simpl. rewrite Hs. split; [reflexivity | apply last_snoc].
Qed.

(** *** The trace of a run *)

Lemma kept_logs l t0 s s' : kept l t0 s -> logs s s' -> kept l t0 s'.
Proof.
  intros [Hl [t Ht]] [Hr [t' Ht']]. split; [congruence|].
  exists (t ++ t'). by rewrite Ht', Ht, app_assoc.
Qed.

Lemma hoare_steady {A : Type} l t0 (m : M A) :
  steady logs m -> hoare (kept l t0) m (fun _ => kept l t0).
Proof. intros Hm s Hs. exact (kept_logs _ _ _ _ Hs (Hm s)). Qed.

Lemma deepScrape_kept query t :
  hoare (fun s => steps (debug s) = t) (deepScrape W query)
    (fun _ s' =>
       length (search_results (debug s')) <= 8 /\
       exists rest,
         steps (debug s')
         = t ++ lit "Starting deep scrape orchestration..."
             :: lit "Searching Google for relevant URLs..." :: rest).
Proof.
  set (t2 := t ++ [lit "Starting deep scrape orchestration...";
                   lit "Searching Google for relevant URLs..."]).
  assert (forall l s', kept l t2 s' -> length l <= 8 ->
             length (search_results (debug s')) <= 8 /\
             exists rest,
               steps (debug s')
               = t ++ lit "Starting deep scrape orchestration..."
                   :: lit "Searching Google for relevant URLs..." :: rest) as Done.
  { intros l s' [Hl [rest Hrest]] Hlen. rewrite Hl. split; [exact Hlen|].
    exists rest. rewrite Hrest. unfold t2. by rewrite <- app_assoc. }
  unfold deepScrape.
  eapply hoare_bind with
    (Q := fun _ s => steps (debug s) = t ++ [lit "Starting deep scrape orchestration..."]).
  { intros s Hs. simpl. by rewrite Hs. }
  intros ?.
  eapply hoare_bind with
    (Q := fun results s => length results <= 8 /\ exists rest, steps (debug s) = t2 ++ rest).
  { intros s Hs. split; [apply performSearch_bound|].
    unfold performSearch. run_monad. rewrite Hs. unfold t2.
    destruct (wellFormed query); simpl;
      [|eexists; rewrite <- !app_assoc; simpl; reflexivity].
    destruct (searchReply W (history s) query) as [m | [] st [items | m]]; simpl;
      eexists; rewrite <- !app_assoc; simpl; reflexivity. }
  intros searchResults. apply hoare_pure. intros Hlen.
  eapply hoare_bind with (Q := fun _ => kept searchResults t2).
  { intros s Hs. split; [reflexivity | exact Hs]. }
  intros ?.
  eapply hoare_conseq with (Q' := fun _ => kept searchResults t2);
    [| by intros s0 Hs | intros o s' Hs; by apply (Done searchResults)].
  apply hoare_steady.
  destruct (Nat.eqb (length searchResults) 0); [logs_cases|].
  apply (steady_bind logs _ _ logs_trans); [apply logs_processUrls|].
  intros res. logs_cases.
Qed.

(** *** Properties of a run *)

Lemma synths_of_last (evs : list Event) (q c : jsstring) :
  length (synths evs) = 1 -> last evs = Some (EvSynth q c) -> synths evs = [(q, c)].
Proof.
  intros Hlen Hlast. apply last_Some in Hlast as [evs' ->].
  unfold synths in *. rewrite omap_app in *. simpl in *.
  rewrite length_app in Hlen. simpl in Hlen.
  destruct (omap _ evs'); [reflexivity | simpl in Hlen; lia].
Qed.

Lemma won_not_notFound query o s d : won query o s -> o <> notFound d.
Proof. intros (snip & sc & src & ans & -> & _). discriminate. Qed.

Lemma isSuccess_not_notFound o d : isSuccess o -> o <> notFound d.
Proof. intros (snip & sc & src & ans & d' & ->). discriminate. Qed.

Lemma synths_searched (query : jsstring) (evs : list Event) :
  synths (searchCalls query ++ evs) = synths evs.
Proof. unfold searchCalls. by destruct (wellFormed query). Qed.

(** A query that is not well formed: nothing is sent, and nothing is
    found. *)
Lemma deepScrape_malformed (query : jsstring) (s : State) :
  wellFormed query = false ->
  fst (deepScrape W query s) = notFound (debug (snd (deepScrape W query s))) /\
  history (snd (deepScrape W query s)) = history s.
Proof.
  intros Hq. unfold deepScrape, performSearch.
  unfold mbind, M_bind, mret, M_ret, push, getDebug, setSearchResults.
  rewrite Hq. cbn. by split.
Qed.

(** X1: a run of [deepScrape] asks the search integration at most once,
    before every other call, and exactly when the query is well formed;
    then it makes at most 56 direct fetches, at most 112 rendered fetches
    and at most one call for an answer.  On a query that is not well
    formed it makes no call at all and finds nothing. *)
Theorem run_call_budget (query : jsstring) (s : State) :
  exists evs,
    history (snd (deepScrape W query s)) = history s ++ searchCalls query ++ evs /\
    searches evs = [] /\
    length (directs evs) <= 56 /\
    length (renders evs) <= 112 /\
    length (synths evs) <= 1 /\
    (wellFormed query = true -> searchCalls query = [EvSearch query]) /\
    (wellFormed query = false ->
     searchCalls query = [] /\ evs = [] /\
     getProp (fst (deepScrape W query s)) "found"%string = Some (VBool false)).
Proof.
  assert (exists evs,
             history (snd (deepScrape W query s)) = history s ++ searchCalls query ++ evs /\
             searches evs = [] /\ length (directs evs) <= 56 /\
             length (renders evs) <= 112 /\ length (synths evs) <= 1)
    as (evs & Hh & Hs & Hd & Hr & Ha).
  { destruct (deepScrape_spent query (history s) s eq_refl)
      as [[_ (evs & Hh & Hd & Hr & Ha & Hs)] | [_ (evs & Hh & Hd & Hr & Ha & Hs)]];
      exists evs; rewrite Hh, <- app_assoc; repeat split; auto; lia. }
  exists evs. repeat (split; [assumption|]).
  unfold searchCalls in *. split; [by intros ->|]. intros Hq.
  destruct (deepScrape_malformed query s Hq) as [Ho Hnone].
  rewrite Hq in *. split; [reflexivity|]. split.
  - rewrite Hnone in Hh. simpl in Hh.
    rewrite <- (app_nil_r (history s)) in Hh at 1. by apply app_inv_head in Hh.
  - by rewrite Ho.
Qed.

(** X2: the answer integration is called exactly when the run returns
    [found = true]: once, as the last call of the run, with the query and
    the returned snippet.  A run that finds nothing never calls it. *)
Theorem answer_is_asked_once_on_success (query : jsstring) (s : State) :
  exists evs,
    history (snd (deepScrape W query s)) = history s ++ evs /\
    match getProp (fst (deepScrape W query s)) "found"%string with
    | Some (VBool true) =>
        exists snip,
          getProp (fst (deepScrape W query s)) "snippet"%string = Some (VString snip) /\
          synths evs = [(query, snip)] /\
          last evs = Some (EvSynth query snip)
    | _ => synths evs = []
    end.
Proof.
  pose proof (deepScrape_ended query s I) as Hend.
  destruct (deepScrape_spent query (history s) s eq_refl)
    as [[Hok (evs & Hh & _ & _ & Ha & _)] | [Hmiss (evs & Hh & _ & _ & Ha & _)]].
  - destruct Hend as [Hwon | [Hnf _]]; [|by apply isSuccess_not_notFound in Hnf].
    destruct Hwon as (snip & sc & src & ans & Ho & _ & _ & Hlast & _).
    exists (searchCalls query ++ evs). rewrite Hh, <- app_assoc. split; [reflexivity|].
    rewrite Ho. simpl. exists snip. split; [reflexivity|].
    rewrite Hh in Hlast.
    assert (last evs = Some (EvSynth query snip)) as Hl.
    { destruct evs as [|e evs]; [discriminate Ha|].
      rewrite <- Hlast. symmetry. apply last_app_cons. }
    split.
    + rewrite synths_searched. by apply synths_of_last.
    + destruct evs as [|e evs]; [discriminate Hl|].
      rewrite <- Hl. apply last_app_cons.
  - exists (searchCalls query ++ evs). rewrite Hh, <- app_assoc. split; [reflexivity|].
    rewrite Hmiss. simpl. rewrite synths_searched.
    by destruct (synths evs).
Qed.

(** X3: when a run returns [found = true], the returned score lies
    between 0.1 and 1, and the returned source is a URL that the run added
    to [visited] and fetched directly. *)
Theorem success_is_passing_and_fetched (query : jsstring) :
  getProp (fst (run W query)) "found"%string = Some (VBool true) ->
  exists sc src,
    getProp (fst (run W query)) "score"%string = Some (VNumber sc) /\
    getProp (fst (run W query)) "source"%string = Some (VString src) /\
    (1 # 10 <= sc)%Q /\ (sc <= 1)%Q /\
    src ∈ visited (snd (run W query)) /\
    src ∈ directs (history (snd (run W query))).
Proof.
  intros Hfound. unfold run in *.
  destruct (deepScrape_ended query freshState I) as [Hwon | [Hnf _]];
    [|rewrite Hnf in Hfound; discriminate Hfound].
  destruct Hwon as (snip & sc & src & ans & Ho & [Hlo Hhi] & Hsrc & _).
  exists sc, src. rewrite Ho. simpl. repeat (split; [done|]).
  pose proof (run_settled W query) as Hset. unfold run, settled, tracked in Hset.
  destruct (proj1 (replay_fetched _ _ _ _ _ Hset src) Hsrc) as [Hin | Hin];
    [by apply not_elem_of_empty in Hin | exact Hin].
Qed.

(** X4: the field [debug] of the returned object is the final trace: it
    holds at most eight search results, and its steps are the steps the
    caller passed in, followed by the two opening steps of the run and the
    rest. *)
Theorem trace_is_returned_whole (query : jsstring) (s : State) :
  getProp (fst (deepScrape W query s)) "debug"%string
    = Some (VDebug (debug (snd (deepScrape W query s)))) /\
  length (search_results (debug (snd (deepScrape W query s)))) <= 8 /\
  exists rest,
    steps (debug (snd (deepScrape W query s)))
    = steps (debug s)
      ++ lit "Starting deep scrape orchestration..."
         :: lit "Searching Google for relevant URLs..." :: rest.
Proof.
  split; [|exact (deepScrape_kept query (steps (debug s)) s eq_refl)].
  destruct (deepScrape_ended query s I) as [(snip & sc & src & ans & -> & _) | [-> _]];
    reflexivity.
Qed.

(** X5: the last step of the trace tells how the run ended: an answer
    that is not [null] is not empty and follows the step of a completed
    analysis; a [null] answer follows the step of an empty or failed
    analysis; a run that finds nothing ends with the step that tells
    whether there were search results. *)
Theorem last_step_tells_the_end (query : jsstring) (s : State) :
  match getProp (fst (deepScrape W query s)) "answer"%string with
  | Some (VString a) =>
      a <> [] /\
      last (steps (debug (snd (deepScrape W query s))))
        = Some (lit "AI analysis completed successfully")
  | Some _ =>
      exists step,
        last (steps (debug (snd (deepScrape W query s)))) = Some step /\
        noAnswerStep step
  | None =>
      last (steps (debug (snd (deepScrape W query s))))
        = Some (lastStepOfMiss (search_results (debug (snd (deepScrape W query s)))))
  end.
Proof.
  destruct (deepScrape_ended query s I)
    as [(snip & sc & src & ans & -> & _ & _ & _ & Hans) | [-> Hlast]].
  - simpl. destruct ans as [a|]; exact Hans.
  - exact Hlast.
Qed.

End Run.

Lemma success_is_passing_and_fetched_witness :
  exists sc src,
    getProp (fst (run Toy.ldWorld (lit "x  yz"))) "score"%string = Some (VNumber sc) /\
    getProp (fst (run Toy.ldWorld (lit "x  yz"))) "source"%string = Some (VString src) /\
    (1 # 10 <= sc)%Q /\ (sc <= 1)%Q /\
    src ∈ visited (snd (run Toy.ldWorld (lit "x  yz"))) /\
    src ∈ directs (history (snd (run Toy.ldWorld (lit "x  yz")))).
Proof.
  apply (success_is_passing_and_fetched Toy.ldWorld (lit "x  yz")).
  vm_compute. reflexivity.
Defined.

(** ** The link crawl and the hosts of a run *)

Lemma crawlShape_visits links evs :
  crawlShape links evs -> visits evs = directs evs /\ sublist (visits evs) links.
Proof.
  induction 1 as [links | u links evs _ [IHe IHs] | u links rs evs Hrs _ [IHe IHs]].
  - split; [reflexivity | apply sublist_nil_l].
  - split; [exact IHe | by apply sublist_cons].
  - assert (visits rs = [] /\ directs rs = []) as [Hv Hd].
    { clear -Hrs. induction Hrs as [|e rs <- _ [IHv IHd]]; [done|]. by split. }
    unfold visits, directs in *. simpl. rewrite !omap_app, Hv, Hd. simpl.
    split; [by f_equal | by apply sublist_skip].
Qed.

Lemma crawlShape_urls links evs e u :
  crawlShape links evs -> e ∈ evs -> urlOf e = Some u -> u ∈ links.
Proof.
  induction 1 as [links | v links evs _ IH | v links rs evs Hrs _ IH]; intros Hin Hu.
  - by apply elem_of_nil in Hin.
  - apply elem_of_cons. right. by apply IH.
  - apply elem_of_cons in Hin as [-> | Hin];
      [injection Hu as <-; apply elem_of_cons; by left|].
    apply elem_of_cons in Hin as [-> | Hin];
      [injection Hu as <-; apply elem_of_cons; by left|].
    apply elem_of_app in Hin as [Hin | Hin].
    + rewrite Forall_forall in Hrs. rewrite <- (Hrs e Hin) in Hu.
      injection Hu as <-. apply elem_of_cons. by left.
    + apply elem_of_cons. right. by apply IH.
Qed.

Section Crawl.
Context `{Platform} (W : World).

(** The trial of an internal link: its direct fetch, then rendered
    fetches of the same link. *)
Lemma tryInternalLink_events query u s :
  exists rs,
    Forall (eq (EvRender u)) rs /\
    extends s (snd (tryInternalLink W query u s)) (EvDirect u :: rs).
Proof.
  unfold tryInternalLink, mbind, M_bind.
  pose proof (fetchHtmlRequests_extends W u s) as E1.
  destruct (fetchHtmlRequests W u s) as [html s1]. simpl in E1. cbv zeta.
  destruct (match html with Some _ => _ | None => _ end) as [hit|].
  { exists []. split; [constructor|]. simpl.
    apply (extends_trans _ _ _ _ [] E1), push_extends. }
  pose proof (fetchHtmlWithScraper_extends W u s1) as E2.
  destruct (fetchHtmlWithScraper W u s1) as [scraped s2]. simpl in E2.
  destruct (match scraped with Some _ => _ | None => _ end) as [hit|].
  { exists [EvRender u]. split; [repeat constructor|]. simpl.
    apply (extends_trans _ _ _ [EvDirect u] [EvRender u] E1).
    apply (extends_trans _ _ _ _ [] E2), push_extends. }
  pose proof (extractFromJsRuntime_extends W u query s2) as E3.
  destruct (extractFromJsRuntime W u query s2) as [[r|] s3]; simpl in E3;
    exists [EvRender u; EvRender u]; (split; [repeat constructor|]); simpl;
    apply (extends_trans _ _ _ [EvDirect u] [EvRender u; EvRender u] E1);
    apply (extends_trans _ _ _ [EvRender u] [EvRender u] E2).
  - apply (extends_trans _ _ _ _ [] E3), push_extends.
  - exact E3.
Qed.

Lemma checkLinks_crawled query links :
  forall s, crawled (history s) links (snd (checkLinks W query links s)).
Proof.
  induction links as [|u links IH]; intros s; simpl.
  { exists []. rewrite app_nil_r. split; [reflexivity | constructor]. }
  unfold mbind, M_bind. unfold visitedHas at 1. simpl.
  destruct (bool_decide (u ∈ visited s)).
  { destruct (IH s) as (evs & Hh & Hshape). exists evs. split; [exact Hh|].
    by constructor. }
  set (s1 := {| visited := {[u]} ∪ visited s; debug := debug s;
                history := history s ++ [EvVisit u] |}).
  destruct (tryInternalLink_events query u s1) as (rs & Hrs & [_ E]).
  destruct (tryInternalLink W query u s1) as [[r|] s2]; simpl in *.
  - exists (EvVisit u :: EvDirect u :: rs ++ []). rewrite app_nil_r.
    split; [by rewrite E, <- app_assoc|].
    rewrite <- (app_nil_r rs). apply crawl_try; [exact Hrs | constructor].
  - destruct (IH s2) as (evs & Hh & Hshape).
    exists (EvVisit u :: EvDirect u :: rs ++ evs).
    split; [by rewrite Hh, E, <- !app_assoc | by apply crawl_try].
Qed.

(** The crawl of a page tries links that the discovery returned. *)
Lemma crawlInternalLinks_crawled baseUrl baseHtml query s :
  exists links evs,
    history (snd (crawlInternalLinks W baseUrl baseHtml query s)) = history s ++ evs /\
    crawlShape links evs /\
    (links = [] \/ discoverLinks baseUrl baseHtml (visited s) = Normal links).
Proof.
  unfold crawlInternalLinks. simpl. unfold mbind, M_bind, getVisited. simpl.
  destruct (discoverLinks baseUrl baseHtml (visited s)) as [links | message] eqn:Hd; simpl.
  - match goal with
    | |- context [checkLinks W query links ?st] =>
        destruct (checkLinks_crawled query links st) as (evs & Hh & Hshape)
    end.
    exists links, evs. split; [exact Hh|]. split; [exact Hshape | by right].
  - exists [], []. rewrite app_nil_r. split; [reflexivity|]. split; [constructor | by left].
Qed.

(** X6: [crawlInternalLinks] tries at most six links.  Each of them was
    not in [visited] and has the hostname of the base URL; the links it
    adds to [visited] are the links it fetches directly, in the same
    order; the crawl never calls for an answer. *)
Theorem crawl_is_bounded_and_local (baseUrl baseHtml query : jsstring) (s : State) :
  exists evs,
    history (snd (crawlInternalLinks W baseUrl baseHtml query s)) = history s ++ evs /\
    visits evs = directs evs /\
    length (visits evs) <= 6 /\
    synths evs = [] /\
    forall u, u ∈ visits evs ->
      (u ∉ visited s) /\
      exists d, URL_hostname baseUrl = Normal d /\ URL_hostname u = Normal d.
Proof.
  destruct (crawlInternalLinks_crawled baseUrl baseHtml query s)
    as (links & evs & Hh & Hshape & Hlinks).
  destruct (crawlShape_visits links evs Hshape) as [Heq Hsub].
  exists evs. split; [exact Hh|]. split; [exact Heq|].
  assert (synths evs = []) as Hsyn.
  { clear -Hshape. induction Hshape as [| |u links rs evs Hrs _ IH]; [done | done |].
    unfold synths in *. simpl. rewrite omap_app, IH, app_nil_r.
    clear -Hrs. induction Hrs as [|e rs <- _ IHr]; [done | exact IHr]. }
  destruct Hlinks as [-> | Hd].
  - apply sublist_nil_r in Hsub. rewrite Hsub. simpl.
    split; [lia|]. split; [exact Hsyn|]. intros u Hu. by apply elem_of_nil in Hu.
  - apply discoverLinks_sound in Hd as (Hlen & d & Hbase & Hall).
    split; [apply sublist_length in Hsub; lia|]. split; [exact Hsyn|].
    intros u Hu. rewrite Forall_forall in Hall.
    destruct (Hall u (elem_of_sublist _ _ _ Hu Hsub)) as [Hhost Hnew].
    split; [exact Hnew | by exists d].
Qed.

(** *** The hosts of a run *)

Lemma confined_extends C h0 s s' evs :
  confined C h0 s -> extends s s' evs ->
  Forall (fun e => forall u, urlOf e = Some u -> nearCandidate C u) evs ->
  confined C h0 s'.
Proof.
  intros (e0 & Hh & Hall) [_ Hh'] Hevs. exists (e0 ++ evs).
  split; [by rewrite Hh', Hh, app_assoc | by apply Forall_app].
Qed.

Lemma confined_quiet C h0 s s' : confined C h0 s -> extends s s' [] -> confined C h0 s'.
Proof. intros Hc E. apply (confined_extends C h0 s s' [] Hc E). constructor. Qed.

Lemma confined_url C h0 s s' e u :
  urlOf e = Some u -> nearCandidate C u ->
  confined C h0 s -> extends s s' [e] -> confined C h0 s'.
Proof.
  intros He Hu Hc E. apply (confined_extends C h0 s s' [e] Hc E).
  constructor; [|constructor]. intros v Hv. congruence.
Qed.

Lemma confined_synth C h0 q c s s' :
  confined C h0 s -> extends s s' [EvSynth q c] -> confined C h0 s'.
Proof.
  intros Hc E. apply (confined_extends C h0 s s' _ Hc E).
  constructor; [|constructor]. intros v Hv. discriminate Hv.
Qed.

Lemma win_confined C h0 query snip sc src step :
  hoare (confined C h0)
    (push step;; o ← succeed W query snip sc src; mret (Some o))
    (fun _ => confined C h0).
Proof.
  eapply hoare_bind.
  { apply push_keeps. intros s s'. apply confined_quiet. }
  intros ?.
  eapply hoare_bind.
  { apply (hoare_extends _ (confined C h0) _ [EvSynth query snip]);
      [apply succeed_extends | intros s s'; apply confined_synth]. }
  intros o. apply hoare_skip.
Qed.

Lemma crawlInternalLinks_confined C h0 baseUrl baseHtml query :
  baseUrl ∈ C ->
  hoare (confined C h0) (crawlInternalLinks W baseUrl baseHtml query)
    (fun _ => confined C h0).
Proof.
  intros Hbase s (e0 & Hh0 & Hall0).
  destruct (crawlInternalLinks_crawled baseUrl baseHtml query s)
    as (links & evs & Hh & Hshape & Hlinks).
  exists (e0 ++ evs). split; [by rewrite Hh, Hh0, app_assoc|].
  apply Forall_app. split; [exact Hall0|].
  apply Forall_forall. intros e He u Hu.
  pose proof (crawlShape_urls links evs e u Hshape He Hu) as Hin.
  destruct Hlinks as [-> | Hd]; [by apply elem_of_nil in Hin|].
  apply discoverLinks_sound in Hd as (_ & d & Hd & Hall).
  rewrite Forall_forall in Hall. destruct (Hall u Hin) as [Hhost _].
  right. by exists baseUrl, d.
Qed.

Lemma processUrl_confined C h0 query u :
  u ∈ C ->
  hoare (confined C h0) (processUrl W query u) (fun _ => confined C h0).
Proof.
  intros Hu.
  assert (nearCandidate C u) as Hnear by (by left).
  unfold processUrl.
  eapply hoare_bind; [apply push_keeps; intros s s'; apply confined_quiet|]. intros ?.
  eapply hoare_bind.
  { apply (hoare_extends _ (confined C h0) _ [EvDirect u]);
      [apply fetchHtmlRequests_extends
      | intros s s'; by apply (confined_url C h0 s s' (EvDirect u) u)]. }
  intros fastHtml. cbv zeta.
  destruct (match fastHtml with Some _ => _ | None => _ end) as [hit|];
    [apply win_confined|].
  eapply hoare_bind.
  { apply (hoare_extends _ (confined C h0) _ [EvRender u]);
      [apply fetchHtmlWithScraper_extends
      | intros s s'; by apply (confined_url C h0 s s' (EvRender u) u)]. }
  intros scrapedHtml.
  destruct (match scrapedHtml with Some _ => _ | None => _ end) as [hit|];
    [apply win_confined|].
  eapply hoare_bind.
  { apply (hoare_extends _ (confined C h0) _ [EvRender u]);
      [apply extractFromJsRuntime_extends
      | intros s s'; by apply (confined_url C h0 s s' (EvRender u) u)]. }
  intros [res|]; [apply win_confined|].
  destruct (orElse scrapedHtml fastHtml) as [html|]; [|apply hoare_skip].
  destruct (isTruthy (Some html) && _); [|apply hoare_skip].
  eapply hoare_bind; [by apply crawlInternalLinks_confined|].
  intros [r|]; [apply win_confined | apply hoare_skip].
Qed.

Lemma processUrls_confined C h0 query urls :
  (forall u, u ∈ urls -> u ∈ C) ->
  hoare (confined C h0) (processUrls W query urls) (fun _ => confined C h0).
Proof.
  induction urls as [|u urls IH]; intros Hsub; simpl; [apply hoare_skip|].
  assert (u ∈ C) as Hu by (apply Hsub, elem_of_cons; by left).
  assert (forall v, v ∈ urls -> v ∈ C) as Hrest
      by (intros v Hv; apply Hsub, elem_of_cons; by right).
  eapply hoare_bind with (Q := fun _ => confined C h0); [by intros s Hs|]. intros [|];
    [by apply IH|].
  eapply hoare_bind with (Q := fun _ => confined C h0).
  { intros s (e0 & Hh & Hall). exists (e0 ++ [EvVisit u]). simpl.
    split; [by rewrite Hh, app_assoc|]. apply Forall_app. split; [exact Hall|].
    constructor; [|constructor]. intros v [= <-]. by left. }
  intros ?.
  eapply hoare_bind; [by apply processUrl_confined|].
  intros [o|]; [apply hoare_skip | by apply IH].
Qed.

(** X7: every URL that a run adds to [visited] or fetches, directly or
    rendered, is a search result or has the hostname of a search
    result. *)
Theorem run_stays_near_the_candidates (query : jsstring) (s : State) :
  exists evs,
    history (snd (deepScrape W query s)) = history s ++ searchCalls query ++ evs /\
    forall e u,
      e ∈ evs -> urlOf e = Some u ->
      nearCandidate (search_results (debug (snd (deepScrape W query s)))) u.
Proof.
  cut (hoare (stands (history s)) (deepScrape W query)
         (fun _ s' =>
            exists evs,
              history s' = history s ++ searchCalls query ++ evs /\
              forall e u, e ∈ evs -> urlOf e = Some u ->
                          nearCandidate (search_results (debug s')) u)).
  { intros Hh. by apply Hh. }
  assert (forall l s',
             search_results (debug s') = l ->
             confined l (history s ++ searchCalls query) s' ->
             exists evs,
               history s' = history s ++ searchCalls query ++ evs /\
               forall e u, e ∈ evs -> urlOf e = Some u ->
                           nearCandidate (search_results (debug s')) u) as Done.
  { intros l s' Hl (evs & Hh & Hall). exists evs. rewrite Hl.
    split; [by rewrite Hh, <- app_assoc|].
    intros e u He. rewrite Forall_forall in Hall. by apply Hall. }
  unfold deepScrape.
  eapply hoare_bind.
  { apply (hoare_extends _ (stands (history s)) _ []);
      [apply push_extends | intros s0 s'; apply stands_quiet]. }
  intros ?.
  eapply hoare_bind with (Q := fun _ => stands (history s ++ searchCalls query)).
  { apply (hoare_extends _ _ _ (searchCalls query));
      [apply performSearch_extends | intros s0 s'; apply stands_extends]. }
  intros searchResults.
  eapply hoare_bind with
    (Q := fun _ s' => search_results (debug s') = searchResults /\
                      confined searchResults (history s ++ searchCalls query) s').
  { intros s0 Hs. split; [reflexivity|]. exists []. simpl.
    split; [by rewrite app_nil_r | constructor]. }
  intros ?.
  eapply hoare_conseq with
    (Q' := fun _ s' => search_results (debug s') = searchResults /\
                       confined searchResults (history s ++ searchCalls query) s');
    [| intros s0 Hs; exact Hs | intros o s' [Hl Hc]; by apply (Done searchResults)].
  apply hoare_conj.
  - eapply hoare_conseq with
      (P' := kept searchResults []) (Q' := fun _ => kept searchResults []);
      [| intros s0 [Hl _]; split; [exact Hl | by eexists] | by intros o s0 [Hl _]].
    apply hoare_steady.
    destruct (Nat.eqb (length searchResults) 0); [logs_cases|].
    apply (steady_bind logs _ _ logs_trans); [apply logs_processUrls|].
    intros res. logs_cases.
  - eapply hoare_conseq with
      (P' := confined searchResults (history s ++ searchCalls query))
      (Q' := fun _ => confined searchResults (history s ++ searchCalls query));
      [| by intros s0 [_ Hc] | auto].
    destruct (Nat.eqb (length searchResults) 0).
    { eapply hoare_bind; [apply push_keeps; intros s0 s'; apply confined_quiet|].
      intros ?. eapply hoare_bind with (Q := fun _ => confined _ _); [by intros s0 Hs|].
      intros d. apply hoare_skip. }
    eapply hoare_bind; [by apply processUrls_confined|].
    intros [o|]; [apply hoare_skip|].
    eapply hoare_bind; [apply push_keeps; intros s0 s'; apply confined_quiet|].
    intros ?. eapply hoare_bind with (Q := fun _ => confined _ _); [by intros s0 Hs|].
    intros d. apply hoare_skip.
Qed.

End Crawl.

(** ** What the analyzer and the runtime inspection accept *)

Section Acceptance.
Context `{Platform} (W : World).

(** X8: [analyzeHtmlForQuery] returns [null] exactly when the query has
    tokens and at most one in ten of them occurs in the visible text:
    with [n] tokens and [m] of them found, when [10 * m <= n]. *)
Theorem analyzer_rejects_below_one_in_ten (html url query : jsstring) :
  analyzeHtmlForQuery html url query = None <->
  queryWordsOf query <> [] /\
  10 * matchCount html query <= length (queryWordsOf query).
Proof.
  unfold analyzeHtmlForQuery, matchCount. cbv zeta.
  destruct (queryWordsOf query) as [|w ws] eqn:Hq.
  { simpl. split; [discriminate | intros [Hne _]; by destruct Hne]. }
  set (n := length (w :: ws)). set (m := length (List.filter _ (w :: ws))).
  change (Nat.eqb n 0) with false. cbv iota.
  destruct (Qltb (relevance m n) (1 # 10)) eqn:E.
  - apply Qltb_lt, relevance_below_threshold in E. split; [|reflexivity].
    intros _. split; [discriminate | exact E].
  - split; [discriminate|]. intros [_ Hle].
    apply relevance_below_threshold, Qltb_lt in Hle. congruence.
Qed.

(** X9: every token of the analyzer is made of at least two word
    characters, and a query has no token exactly when its lowered text has
    no two word characters side by side. *)
Theorem tokens_are_runs_of_word_characters (query : jsstring) :
  (forall w, w ∈ queryWordsOf query ->
             2 <= length w /\ forallb isWord w = true) /\
  (queryWordsOf query = [] <-> hasWordPair (toLowerCase query) = false).
Proof. split; [intros w; apply queryWords_long | apply no_token_iff]. Qed.

(** X10: a result of [extractFromJsRuntime] has one of the scores 0.9,
    0.85 and 0.95, and a snippet of at most 1203 code units. *)
Theorem runtime_result_is_capped (url query : jsstring) (s : State) (a : Analysis) :
  fst (extractFromJsRuntime W url query s) = Some a ->
  (score a == 9 # 10 \/ score a == 85 # 100 \/ score a == 95 # 100)%Q /\
  length (snippet a) <= 1203.
Proof. apply extractFromJsRuntime_result. Qed.

End Acceptance.

Lemma runtime_result_is_capped_witness :
  (9 # 10 == 9 # 10 \/ 9 # 10 == 85 # 100 \/ 9 # 10 == 95 # 100)%Q /\
  length (lit "{}") <= 1203.
Proof.
  apply (runtime_result_is_capped Toy.ldWorld Toy.siteUrl (lit "x  yz") freshState
           {| snippet := lit "{}"; score := 9 # 10 |}).
  vm_compute. reflexivity.
Defined.

(** ** White space in the returned text *)

Lemma rmatch_space (fl : flags) (k : mstate -> option mstate) (s : mstate) :
  rmatch fl space k s =
  match rest s with
  | [] => None
  | c :: r =>
      if isSpace c
      then k {| prev := Some c; rest := r; pos := S (pos s); caps := caps s |}
      else None
  end.
Proof.
  simpl. unfold advance. destruct (rest s); [reflexivity|]. simpl. by rewrite orb_false_r.
Qed.

(** The greedy quantifier of [/\s+/] reads the white space at the position
    to its end. *)
Lemma repeat_space (fl : flags) :
  forall fuel cnt p s i cs,
    length s < fuel ->
    repeatMatcher (rmatch fl space) 1 None true Some fuel cnt
      {| prev := p; rest := s; pos := i; caps := cs |} =
    match s with
    | c :: r =>
        if isSpace c then Some (skipSpaces (Some c) r (S i) cs)
        else if Nat.ltb cnt 1 then None
             else Some {| prev := p; rest := s; pos := i; caps := cs |}
    | [] =>
        if Nat.ltb cnt 1 then None
        else Some {| prev := p; rest := []; pos := i; caps := cs |}
    end.
Proof.
  induction fuel as [|fuel IH]; intros cnt p s i cs Hfuel; [lia|].
  cbn [repeatMatcher]. cbv zeta. cbn [atMax]. rewrite rmatch_space. cbn [rest pos caps].
  destruct s as [|c r].
  { by destruct (Nat.ltb cnt 1). }
  destruct (isSpace c) eqn:Hc; [|by destruct (Nat.ltb cnt 1)].
  replace (Nat.eqb (S i) i) with false by (symmetry; apply Nat.eqb_neq; lia).
  rewrite andb_false_r, IH by (simpl in Hfuel; lia).
  assert (match r with
          | c0 :: r0 =>
              if isSpace c0 then Some (skipSpaces (Some c0) r0 (S (S i)) cs)
              else if Nat.ltb (S cnt) 1 then None
                   else Some {| prev := Some c; rest := r; pos := S i; caps := cs |}
          | [] =>
              if Nat.ltb (S cnt) 1 then None
              else Some {| prev := Some c; rest := []; pos := S i; caps := cs |}
          end = Some (skipSpaces (Some c) r (S i) cs)) as ->.
  { destruct r as [|c0 r0]; simpl; [reflexivity|]. by destruct (isSpace c0). }
  by destruct (Nat.ltb cnt 1).
Qed.

Lemma spaces_match (fl : flags) (p : option N) (s : jsstring) (i : nat)
    (cs : list (nat * jsstring)) :
  rmatch fl Patterns.spaces Some {| prev := p; rest := s; pos := i; caps := cs |} =
  match s with
  | c :: r => if isSpace c then Some (skipSpaces (Some c) r (S i) cs) else None
  | [] => None
  end.
Proof.
  unfold Patterns.spaces, plus. cbn [rmatch rest].
  rewrite repeat_space by lia. reflexivity.
Qed.

Lemma skipSpaces_rest p s i cs : rest (skipSpaces p s i cs) = trimStart s.
Proof.
  revert p i. induction s as [|c r IH]; intros p i; simpl; [reflexivity|].
  destruct (isSpace c); [apply IH | reflexivity].
Qed.

Lemma skipSpaces_pos p s i cs : i <= pos (skipSpaces p s i cs).
Proof.
  revert p i. induction s as [|c r IH]; intros p i; simpl; [lia|].
  destruct (isSpace c); [|simpl; lia]. specialize (IH (Some c) (S i)). lia.
Qed.

Lemma trimStart_suffix (s : jsstring) :
  exists d, s = d ++ trimStart s /\ Forall (fun c => isSpace c = true) d.
Proof.
  induction s as [|c s (d & IH & Hd)]; simpl; [by exists []|].
  destruct (isSpace c) eqn:Hc; [|by exists []].
  exists (c :: d). simpl. split; [by f_equal | by constructor].
Qed.

Lemma trimStart_length (s : jsstring) : length (trimStart s) <= length s.
Proof.
  destruct (trimStart_suffix s) as (d & Hd & _). rewrite Hd at 2. rewrite length_app. lia.
Qed.

Lemma trimStart_head (s : jsstring) : noSpaceAt (head (trimStart s)).
Proof.
  induction s as [|c s IH]; simpl; [by intros d|].
  destruct (isSpace c) eqn:Hc; [exact IH|]. by intros d [= <-].
Qed.

(** The leftmost run of white space. *)
Lemma search_spaces (fl : flags) (s : jsstring) :
  forall p i,
    match search fl Patterns.spaces p s i with
    | None => Forall (fun c => isSpace c = false) s
    | Some (st, e) =>
        exists pre c r,
          s = pre ++ c :: r /\ Forall (fun c => isSpace c = false) pre /\
          isSpace c = true /\ pos st = i + length pre /\
          rest e = trimStart r /\ pos st < pos e
    end.
Proof.
  induction s as [|c s IH]; intros p i; cbn [search]; cbv zeta; rewrite spaces_match.
  { constructor. }
  destruct (isSpace c) eqn:Hc.
  - exists [], c, s. simpl. split; [reflexivity|]. split; [constructor|].
    split; [exact Hc|]. split; [lia|]. split; [apply skipSpaces_rest|].
    pose proof (skipSpaces_pos (Some c) s (S i) []). lia.
  - specialize (IH (Some c) (S i)).
    destruct (search fl Patterns.spaces (Some c) s (S i)) as [[st e]|].
    + destruct IH as (pre & c' & r & -> & Hpre & Hc' & Hpos & Hrest & Hlt).
      exists (c :: pre), c', r. simpl. split; [reflexivity|].
      split; [by constructor|]. split; [exact Hc'|]. split; [lia|]. by split.
    + by constructor.
Qed.

Lemma squeeze_plain (pre t : jsstring) :
  Forall (fun c => isSpace c = false) pre ->
  squeeze false (pre ++ t) = pre ++ squeeze false t.
Proof.
  induction 1 as [|c pre Hc _ IH]; simpl; [reflexivity|]. by rewrite Hc, IH.
Qed.

Lemma squeeze_run (s : jsstring) : squeeze true s = squeeze false (trimStart s).
Proof.
  induction s as [|c s IH]; simpl; [reflexivity|].
  destruct (isSpace c) eqn:Hc; [exact IH|]. simpl. by rewrite Hc.
Qed.

(** The replacement of [/\s+/g] by one space, read off the scan. *)
Lemma scan_spaces (fuel : nat) :
  forall s p i,
    length s < fuel ->
    concat (map (fun seg : jsstring * (jsstring * list (nat * jsstring)) =>
                   fst seg ++ [32%N])
              (fst (scan noFlags fuel Patterns.spaces p s i)))
      ++ snd (scan noFlags fuel Patterns.spaces p s i)
    = squeeze false s.
Proof.
  induction fuel as [|fuel IH]; intros s p i Hfuel; [lia|].
  cbn [scan].
  pose proof (search_spaces noFlags s p i) as Hs.
  destruct (search noFlags Patterns.spaces p s i) as [[st e]|].
  - destruct Hs as (pre & c & r & -> & Hpre & Hc & Hpos & Hrest & Hlt).
    cbv zeta.
    replace (Nat.eqb (pos e) (pos st)) with false by (symmetry; apply Nat.eqb_neq; lia).
    specialize (IH (rest e) (prev e) (pos e)).
    destruct (scan noFlags fuel Patterns.spaces (prev e) (rest e) (pos e)) as [segs tl].
    simpl in IH. simpl.
    replace (pos st - i) with (length pre) by lia.
    rewrite take_app_length, <- !app_assoc, IH.
    + rewrite squeeze_plain by exact Hpre. simpl. rewrite Hc, squeeze_run, Hrest.
      reflexivity.
    + rewrite Hrest. pose proof (trimStart_length r).
      rewrite length_app in Hfuel. simpl in Hfuel. lia.
  - simpl. rewrite <- (app_nil_r s) at 2. rewrite squeeze_plain by exact Hs.
    simpl. by rewrite app_nil_r.
Qed.

Lemma replaceAll_spaces (s : jsstring) :
  replaceAll noFlags Patterns.spaces s (lit " ") = squeeze false s.
Proof.
  unfold replaceAll, scanAll.
  pose proof (scan_spaces (S (length s)) s None 0 (Nat.lt_succ_diag_r _)) as Hs.
  destruct (scan noFlags (S (length s)) Patterns.spaces None s 0) as [segs tl].
  exact Hs.
Qed.

(** *** Single spacing *)

Lemma squeeze_head (s : jsstring) : noSpaceAt (head (squeeze true s)).
Proof.
  induction s as [|c s IH]; simpl; [by intros d|].
  destruct (isSpace c) eqn:Hc; [exact IH|]. by intros d [= <-].
Qed.

Lemma squeeze_singleSpaced (b : bool) (s : jsstring) : singleSpaced (squeeze b s).
Proof.
  split.
  - revert b. induction s as [|c s IH]; intros b d; simpl; [by intros Hd%elem_of_nil|].
    destruct (isSpace c) eqn:Hc.
    + destruct b; [apply IH|]. intros [->|Hd]%elem_of_cons; [done | by apply (IH true)].
    + intros [->|Hd]%elem_of_cons; [congruence | by apply (IH false)].
  - revert b. induction s as [|c s IH]; intros b pre x y post; simpl.
    { by destruct pre. }
    assert (forall t, c :: squeeze false s = t -> t = pre ++ x :: y :: post ->
                      isSpace c = false -> isSpace x && isSpace y = false) as Plain.
    { intros t <- Ht Hc. destruct pre as [|z pre]; simpl in Ht.
      - injection Ht as <- _. by rewrite Hc.
      - injection Ht as _ Ht. by apply (IH false pre x y post). }
    destruct (isSpace c) eqn:Hc; [|intros Ht; by apply (Plain _ eq_refl)].
    destruct b; [apply IH|].
    intros Ht. destruct pre as [|z pre]; simpl in Ht.
    + injection Ht as <- Ht. pose proof (squeeze_head s) as Hh.
      rewrite Ht in Hh. rewrite (Hh y eq_refl). apply andb_false_r.
    + injection Ht as _ Ht. by apply (IH true pre x y post).
Qed.

Lemma singleSpaced_infix (l t r : jsstring) : singleSpaced (l ++ t ++ r) -> singleSpaced t.
Proof.
  intros [Hall Hpair]. split.
  - intros c Hc. apply Hall. apply elem_of_app. right. apply elem_of_app. by left.
  - intros pre a b post ->. apply (Hpair (l ++ pre) a b (post ++ r)).
    by rewrite <- !app_assoc.
Qed.

Lemma trim_infix (s : jsstring) : exists l r, s = l ++ trim s ++ r.
Proof.
  unfold trim.
  destruct (trimStart_suffix s) as (l & Hl & _).
  destruct (trimStart_suffix (rev (trimStart s))) as (d & Hd & _).
  exists l, (rev d). rewrite Hl at 1. f_equal.
  rewrite <- rev_app_distr, <- Hd. by rewrite rev_involutive.
Qed.

Lemma head_rev (s : jsstring) : head (rev s) = last s.
Proof.
  induction s as [|c s IH] using rev_ind; [reflexivity|].
  by rewrite rev_app_distr, last_snoc.
Qed.

Lemma last_rev (s : jsstring) : last (rev s) = head s.
Proof. by rewrite <- head_rev, rev_involutive. Qed.

Lemma trim_ends (s : jsstring) : noSpaceAt (head (trim s)) /\ noSpaceAt (last (trim s)).
Proof.
  unfold trim. rewrite head_rev, last_rev. split; [|apply trimStart_head].
  destruct (trimStart_suffix (rev (trimStart s))) as (d & Hd & _).
  destruct (trimStart (rev (trimStart s))) as [|c t] eqn:Ht; [by intros x|].
  assert (last (c :: t) = head (trimStart s)) as ->.
  { rewrite <- (last_rev (trimStart s)), Hd. by rewrite last_app_cons. }
  apply trimStart_head.
Qed.

Section Spacing.
Context `{Platform}.

Lemma cleaned_singleSpaced (text : jsstring) :
  singleSpaced (trim (replaceAll noFlags Patterns.spaces text (lit " "))).
Proof.
  rewrite replaceAll_spaces.
  destruct (trim_infix (squeeze false text)) as (l & r & Hs).
  apply (singleSpaced_infix l _ r). rewrite <- Hs. apply squeeze_singleSpaced.
Qed.

(** X11: [cleanText] returns the text in which every run of white space
    is replaced by one space and the white space at both ends is removed,
    when that has at most [maxLen] code units, and otherwise its first
    [maxLen] code units followed by three dots.  The part before the dots
    has no white space at its start, and its only white space is single
    spaces. *)
Theorem cleanText_is_single_spaced (text : jsstring) (maxLen : nat) :
  exists kept,
    kept = take maxLen (trim (squeeze false text)) /\
    singleSpaced kept /\ noSpaceAt (head kept) /\
    (cleanText text maxLen = kept /\ kept = trim (squeeze false text) /\
     length kept <= maxLen /\ noSpaceAt (last kept) \/
     cleanText text maxLen = kept ++ lit "..." /\ length kept = maxLen /\
     maxLen < length (trim (squeeze false text))).
Proof.
  unfold cleanText. cbv zeta. rewrite replaceAll_spaces.
  set (cleaned := trim (squeeze false text)).
  assert (singleSpaced cleaned) as Hss.
  { destruct (trim_infix (squeeze false text)) as (l & r & Hs).
    apply (singleSpaced_infix l _ r). fold cleaned in Hs. rewrite <- Hs.
    apply squeeze_singleSpaced. }
  destruct (trim_ends (squeeze false text)) as [Hh Hl]. fold cleaned in Hh, Hl.
  exists (take maxLen cleaned). split; [reflexivity|].
  split; [|split].
  - apply (singleSpaced_infix [] _ (drop maxLen cleaned)). simpl. by rewrite take_drop.
  - intros d Hd. apply Hh. destruct cleaned, maxLen; simpl in *; congruence.
  - destruct (Nat.ltb maxLen (length cleaned)) eqn:Hlt.
    + apply Nat.ltb_lt in Hlt. right. unfold substring. simpl.
      rewrite Nat.sub_0_r, drop_0. split; [reflexivity|].
      split; [rewrite length_take; lia | exact Hlt].
    + apply Nat.ltb_ge in Hlt. left. rewrite take_ge by exact Hlt.
      by repeat split.
Qed.

(** X12: the visible text of a page is its markup without the script,
    style and noscript blocks, with every tag replaced by a space, every
    run of white space replaced by one space and the white space at both
    ends removed.  The snippet of an accepted page is that text, whole
    and without a cap, for a query with tokens, and its first 1500 code
    units for a query without tokens.  It has no white space at its
    start, its only white space is single spaces, and for a query with
    tokens it has no white space at its end. *)
Theorem analyzer_snippet_is_single_spaced (html url query : jsstring) (a : Analysis) :
  analyzeHtmlForQuery html url query = Some a ->
  visibleText html
    = trim (squeeze false
              (replaceAll noFlags Patterns.tag
                 (replaceAll flagIS Patterns.scriptStyleBlock html []) (lit " "))) /\
  singleSpaced (snippet a) /\ noSpaceAt (head (snippet a)) /\
  (queryWordsOf query = [] ->
   snippet a = take 1500 (visibleText html) /\ length (snippet a) <= 1500) /\
  (queryWordsOf query <> [] ->
   snippet a = visibleText html /\ noSpaceAt (last (snippet a))).
Proof.
  unfold analyzeHtmlForQuery. cbv zeta.
  assert (singleSpaced (visibleText html)) as Hss by apply cleaned_singleSpaced.
  destruct (trim_ends (replaceAll noFlags Patterns.spaces
              (replaceAll noFlags Patterns.tag
                 (replaceAll flagIS Patterns.scriptStyleBlock html []) (lit " ")) (lit " ")))
    as [Hh Hl].
  fold (visibleText html) in Hh, Hl.
  intros Ha. split.
  { unfold visibleText. cbv zeta. by rewrite replaceAll_spaces. }
  revert Ha.
  destruct (queryWordsOf query) as [|w ws] eqn:Hq.
  - simpl. intros [= <-]. simpl. unfold substring. simpl. rewrite drop_0.
    split; [|split; [|split]].
    + apply (singleSpaced_infix [] _ (drop 1500 (visibleText html))). simpl.
      by rewrite take_drop.
    + intros d Hd. apply Hh. destruct (visibleText html); simpl in *; congruence.
    + intros _. split; [reflexivity|]. rewrite length_take. lia.
    + intros Hne. by destruct Hne.
  - change (Nat.eqb (length (w :: ws)) 0) with false. cbv iota.
    destruct (Qltb _ _); [discriminate|]. intros [= <-]. simpl.
    split; [exact Hss|]. split; [exact Hh|]. split; [discriminate | by intros _].
Qed.

End Spacing.

Lemma analyzer_snippet_is_single_spaced_witness :
  lit "Hello World" = visibleText (Toy.page "<p>Hello  World</p>") /\
  singleSpaced (lit "Hello World") /\ noSpaceAt (last (lit "Hello World")).
Proof.
  destruct (analyzer_snippet_is_single_spaced (Toy.page "<p>Hello  World</p>") Toy.siteUrl
              (lit "hello") {| snippet := lit "Hello World"; score := 10000 # 10001 |})
    as (_ & Hss & _ & _ & Htokens).
  - vm_compute. reflexivity.
  - destruct Htokens as [Hsnip Hlast]; [vm_compute; discriminate|].
    split; [exact Hsnip|]. split; [exact Hss | exact Hlast].
Defined.

(** ** The fast path *)

Section Fast.
Context `{Platform} (W : World).

(** X13: when the direct fetch of the first search result returns a page
    that is not empty and that the analyzer accepts, the run of a query
    that is well formed makes four moves and no more: the search, the
    addition to [visited], the direct fetch and the call for an answer.
    It returns that URL as the source, with the snippet and the score of
    the analyzer.  The run of a query that is not well formed sends
    nothing and finds nothing, whatever the world would answer. *)
Theorem first_candidate_fast_path (query c : jsstring) (cs : list jsstring)
    (st0 st1 : N) (html : jsstring) (a : Analysis) :
  searchReply W [] query = Answered true st0 (Normal (Some (c :: cs))) ->
  directReply W [EvSearch query; EvVisit c] c = Answered true st1 (Normal html) ->
  html <> [] ->
  analyzeHtmlForQuery html c query = Some a ->
  (wellFormed query = true ->
   history (snd (run W query))
     = [EvSearch query; EvVisit c; EvDirect c; EvSynth query (snippet a)] /\
   getProp (fst (run W query)) "found"%string = Some (VBool true) /\
   getProp (fst (run W query)) "snippet"%string = Some (VString (snippet a)) /\
   getProp (fst (run W query)) "score"%string = Some (VNumber (score a)) /\
   getProp (fst (run W query)) "source"%string = Some (VString c)) /\
  (wellFormed query = false ->
   history (snd (run W query)) = [] /\
   getProp (fst (run W query)) "found"%string = Some (VBool false)).
Proof.
  intros Hsearch Hdirect Hhtml Han. split.
  - intros Hq.
    unfold run, deepScrape, performSearch, freshState.
    unfold mbind, M_bind, mret, M_ret, push, call, getDebug, setSearchResults.
    rewrite Hq. cbn.
    rewrite Hsearch. cbn.
    unfold mbind, M_bind, mret, M_ret, visitedHas, visitedAdd. cbn.
    rewrite bool_decide_eq_false_2 by apply not_elem_of_empty.
    unfold processUrl, fetchHtmlRequests.
    unfold mbind, M_bind, mret, M_ret, push, call. cbn.
    rewrite Hdirect. cbn.
    destruct html as [|x html']; [done|]. cbn [truthy]. rewrite Han.
    unfold succeed, generateAIAnswer.
    unfold mbind, M_bind, mret, M_ret, push, call, getDebug. cbn.
    destruct (synthReply W _ query (snippet a)) as [m | [] st [[answer|] | m]]; cbn;
      try destruct (truthy answer); cbn; repeat split; reflexivity.
  - intros Hq. unfold run.
    destruct (deepScrape_malformed W query freshState Hq) as [Ho Hh].
    split; [exact Hh | by rewrite Ho].
Qed.

End Fast.

Lemma first_candidate_fast_path_witness :
  history (snd (run (Toy.world [Toy.siteUrl]
                       (Answered true 200 (Normal (Toy.page "<p>Hello  World</p>")))
                       (Rejected (lit "offline")) (Rejected (lit "offline")))
                    (lit "hello")))
    = [EvSearch (lit "hello"); EvVisit Toy.siteUrl; EvDirect Toy.siteUrl;
       EvSynth (lit "hello") (lit "Hello World")].
Proof.
  destruct (first_candidate_fast_path
              (Toy.world [Toy.siteUrl]
                 (Answered true 200 (Normal (Toy.page "<p>Hello  World</p>")))
                 (Rejected (lit "offline")) (Rejected (lit "offline")))
              (lit "hello") Toy.siteUrl [] 200 200 (Toy.page "<p>Hello  World</p>")
              {| snippet := lit "Hello World"; score := 10000 # 10001 |})
    as [Hsent _].
  - reflexivity.
  - reflexivity.
  - discriminate.
  - vm_compute. reflexivity.
  - apply Hsent. reflexivity.
Defined.

(** ** The route handler and the page *)

Lemma trimStart_id (t : jsstring) : noSpaceAt (head t) -> trimStart t = t.
Proof. destruct t as [|c t]; simpl; [done|]. intros Hh. by rewrite (Hh c eq_refl). Qed.

Lemma trim_id (t : jsstring) : noSpaceAt (head t) -> noSpaceAt (last t) -> trim t = t.
Proof.
  intros Hh Hl. unfold trim. rewrite (trimStart_id t Hh).
  rewrite trimStart_id by (by rewrite head_rev). apply rev_involutive.
Qed.

Lemma trim_trim (s : jsstring) : trim (trim s) = trim s.
Proof. destruct (trim_ends s). by apply trim_id. Qed.

Section Handler.
Context `{Platform} (W : World).

Lemma run_found (query : jsstring) :
  hasProp (fst (run W query)) "found"%string = true /\
  (wellFormed query = true ->
   exists evs, history (snd (run W query)) = EvSearch query :: evs /\ searches evs = []) /\
  (wellFormed query = false ->
   history (snd (run W query)) = [] /\
   getProp (fst (run W query)) "found"%string = Some (VBool false)).
Proof.
  split; [|split].
  - unfold run.
    destruct (deepScrape_outcome W query freshState) as [(snip & sc & src & ans & d & ->) | ->];
      reflexivity.
  - intros Hq. unfold run.
    destruct (deepScrape_spent W query [] freshState eq_refl)
      as [[_ (evs & Hh & _ & _ & _ & Hs)] | [_ (evs & Hh & _ & _ & _ & Hs)]];
      exists evs; unfold searchCalls in Hh; rewrite Hq in Hh; by rewrite Hh.
  - intros Hq. unfold run.
    destruct (deepScrape_malformed W query freshState Hq) as [Ho Hh].
    split; [exact Hh | by rewrite Ho].
Qed.


(** X15: the request that [handleSearch] sends for a query that is not
    blank passes the validation of [POST]: the status is 200.  When the
    trimmed query is well formed the search is asked once, first, for the
    trimmed query; when it is not, no call is made and the payload has
    [found = false]. *)
Theorem page_request_is_served (query : jsstring) :
  truthy (trim query) = true ->
  Route.status (fst (Route.POST W (Normal (Page.requestBody query)))) = 200%N /\
  (wellFormed (trim query) = true ->
   exists evs,
     snd (Route.POST W (Normal (Page.requestBody query))) = EvSearch (trim query) :: evs /\
     searches evs = []) /\
  (wellFormed (trim query) = false ->
   snd (Route.POST W (Normal (Page.requestBody query))) = [] /\
   getProp (Route.payload (fst (Route.POST W (Normal (Page.requestBody query)))))
     "found"%string = Some (VBool false)).
Proof.
  intros Hq. unfold Route.POST, Page.requestBody. cbn [Route.destructureQuery Route.getField].
  replace (JsString.eqb (lit "query") (lit "query")) with true by reflexivity.
  rewrite trim_trim.
  destruct (trim query) as [|c t] eqn:Ht; [discriminate|]. cbn [length Nat.eqb].
  cbv zeta. rewrite <- Ht.
  destruct (run_found (trim query)) as (_ & Hsent & Hkept).
  destruct (run W (trim query)) as [result s]. simpl in *.
  split; [reflexivity|]. by split.
Qed.

End Handler.

Lemma page_request_is_served_witness :
  Route.status (fst (Route.POST Toy.emptyWorld (Normal (Page.requestBody (lit " price of x "))))) = 200%N /\
  exists evs,
    snd (Route.POST Toy.emptyWorld (Normal (Page.requestBody (lit " price of x "))))
      = EvSearch (trim (lit " price of x ")) :: evs /\
    searches evs = [].
Proof.
  destruct (page_request_is_served Toy.emptyWorld (lit " price of x "))
    as (Hstatus & Hsent & _).
  - vm_compute. reflexivity.
  - split; [exact Hstatus|]. apply Hsent. vm_compute. reflexivity.
Defined.

(** *** The search history of the page *)

Lemma take_take_succ {A : Type} (n : nat) (l : list A) : take n (take (S n) l) = take n l.
Proof. rewrite take_take. f_equal. lia. Qed.

(** X16: the update of [searchHistory], applied to one entry after the
    other, leaves the last five entries, the newest first. *)
Theorem history_is_the_last_five (entries : list Page.HistoryEntry) :
  fold_left (fun prev entry => Page.addToHistory entry prev) entries []
  = take 5 (rev entries).
Proof.
  induction entries as [|e entries IH] using rev_ind; [reflexivity|].
  rewrite fold_left_app, rev_app_distr. simpl. unfold Page.addToHistory at 1.
  rewrite IH. f_equal. apply (take_take_succ 4).
Qed.

Section Session.
Variable Data : Type.

Lemma session_invariant (actions : list (Page.Action Data)) (ui : Page.Ui Data) :
  (length (Page.searchHistory ui) <= 5 /\ Page.loading ui = false /\
   (Page.results ui = None \/ Page.error ui = None) /\
   Forall (fun e => Page.entry_query e <> [] /\
                    trim (Page.entry_query e) = Page.entry_query e)
          (Page.searchHistory ui)) ->
  let ui' := fold_left Page.act actions ui in
  length (Page.searchHistory ui') <= 5 /\ Page.loading ui' = false /\
  (Page.results ui' = None \/ Page.error ui' = None) /\
  Forall (fun e => Page.entry_query e <> [] /\
                   trim (Page.entry_query e) = Page.entry_query e)
         (Page.searchHistory ui').
Proof.
  revert ui. induction actions as [|a actions IH]; intros ui Hinv; [exact Hinv|].
  simpl. apply IH. destruct Hinv as (Hlen & Hload & Hone & Hall).
  destruct a as [text | index | fetch now]; simpl.
  - by repeat split.
  - destruct (Page.searchHistory ui !! index); by repeat split.
  - unfold Page.handleSearch.
    destruct (truthy (trim (Page.query ui))) eqn:Hq; simpl; [|by repeat split].
    destruct (fetch (Page.requestBody (Page.query ui))) as [m | [] st txt [data | m]];
      simpl; try (repeat split; auto; fail).
    split; [rewrite length_take; lia|]. split; [reflexivity|]. split; [by right|].
    constructor.
    + simpl. split; [by destruct (trim (Page.query ui)) | apply trim_trim].
    + by apply Forall_take.
Qed.

(** X17: after any sequence of edits, picks from the history and
    finished searches, the page is not loading, does not show results
    and an error together, and its history holds at most five entries,
    each a trimmed query that is not empty. *)
Theorem page_keeps_five_searches (actions : list (Page.Action Data)) :
  length (Page.searchHistory (Page.session Data actions)) <= 5 /\
  Page.loading (Page.session Data actions) = false /\
  (Page.results (Page.session Data actions) = None \/
   Page.error (Page.session Data actions) = None) /\
  forall e, e ∈ Page.searchHistory (Page.session Data actions) ->
            Page.entry_query e <> [] /\ trim (Page.entry_query e) = Page.entry_query e.
Proof.
  destruct (session_invariant actions (Page.initial Data))
    as (Hlen & Hload & Hone & Hall).
  { simpl. split; [lia|]. split; [reflexivity|]. split; [by left|]. constructor. }
  split; [exact Hlen|]. split; [exact Hload|]. split; [exact Hone|].
  by apply Forall_forall.
Qed.

End Session.

(** ** A run that finds nothing *)

Section Exhaustion.
Context `{Platform} (W : World).

Lemma calm_more V u s : calm V s -> u ∈ visited s -> calm ({[u]} ∪ V) s.
Proof.
  intros [S Sub] Hu. split; [exact S|].
  intros x [->%elem_of_singleton | Hx]%elem_of_union; [exact Hu | by apply Sub].
Qed.

Lemma calm_less V u s : calm ({[u]} ∪ V) s -> calm V s /\ u ∈ visited s.
Proof.
  intros [S Sub]. split; [split; [exact S|]|].
  - intros x Hx. by apply Sub, elem_of_union_r.
  - by apply Sub, elem_of_union_l, elem_of_singleton.
Qed.

Lemma chosen_more V u s : chosen V u s -> chosen ({[u]} ∪ V) u s.
Proof.
  intros [T Sub]. split; [exact T|].
  intros x [->%elem_of_singleton | Hx]%elem_of_union; [by apply trying_member | by apply Sub].
Qed.

Lemma processUrls_exhausted query urls :
  forall V,
    hoare (calm V) (processUrls W query urls)
      (fun r s' => r = None -> exhausted V urls s').
Proof.
  induction urls as [|u urls IH]; intros V; simpl.
  { intros s Cs _. split; [exact Cs|]. by intros u Hu%elem_of_nil. }
  assert (hoare (calm ({[u]} ∪ V)) (processUrls W query urls)
            (fun r s' => r = None -> exhausted V (u :: urls) s')) as Rest.
  { eapply hoare_conseq; [apply (IH ({[u]} ∪ V)) | by intros s Cs |].
    intros r s' Hr Hnone. destruct (Hr Hnone) as [Cs Hall].
    apply calm_less in Cs as [Cs Hu]. split; [exact Cs|].
    intros x [-> | Hx]%elem_of_cons; [exact Hu | by apply Hall]. }
  eapply hoare_bind; [apply visitedHas_spec|]. intros [|].
  { eapply hoare_conseq; [exact Rest | | auto].
    intros s [Cs Hu]. by apply calm_more. }
  eapply hoare_bind; [apply visitedAdd_chosen|]. intros ?.
  eapply hoare_bind with (Q := fun _ => calm ({[u]} ∪ V)).
  { eapply hoare_conseq; [apply (processUrl_calm W ({[u]} ∪ V) query u) | | auto].
    intros s. apply chosen_more. }
  intros [o|]; [intros s _; discriminate | exact Rest].
Qed.

Lemma deepScrape_exhausted query :
  hoare settled (deepScrape W query)
    (fun o s' =>
       isSuccess o \/
       (settled s' /\ forall u, u ∈ search_results (debug s') -> u ∈ visited s')).
Proof.
  unfold deepScrape.
  eapply hoare_bind with (Q := fun _ => calm ∅).
  { eapply hoare_conseq; [apply push_keeps, (calm_quiet ∅) | | auto].
    intros s Hs. by split. }
  intros ?.
  eapply hoare_bind.
  { apply (hoare_extends _ (calm ∅) _ (searchCalls query));
      [apply performSearch_extends | apply calm_searched]. }
  intros searchResults.
  eapply hoare_bind with
    (Q := fun _ s => calm ∅ s /\ search_results (debug s) = searchResults).
  { by intros s Cs. }
  intros ?.
  destruct searchResults as [|c cs]; simpl.
  { intros s [[Hs _] Hr]. right. simpl. split; [exact Hs|].
    rewrite Hr. by intros u Hu%elem_of_nil. }
  eapply hoare_bind with
    (Q := fun r s =>
            ifSome r /\ (r = None -> exhausted ∅ (c :: cs) s) /\
            search_results (debug s) = c :: cs).
  { intros s [Cs Hr]. split; [by apply (processUrls_success W query (c :: cs) s)|].
    split; [by apply (processUrls_exhausted query (c :: cs) ∅ s)|].
    rewrite <- Hr. exact (proj1 (logs_processUrls W query (c :: cs) s)). }
  intros [o|].
  - intros s (Ho & _). left. by apply Ho.
  - intros s (_ & Hex & Hr). right. destruct (Hex eq_refl) as [[Hs _] Hall].
    simpl. split; [exact Hs|]. by rewrite Hr.
Qed.

(** X18: a run returns [found = false] only after every search result
    was added to [visited] and fetched directly. *)
Theorem miss_has_tried_every_candidate (query : jsstring) :
  getProp (fst (run W query)) "found"%string = Some (VBool false) ->
  forall u,
    u ∈ search_results (debug (snd (run W query))) ->
    u ∈ visited (snd (run W query)) /\ u ∈ directs (history (snd (run W query))).
Proof.
  intros Hfound u Hu. unfold run in *.
  destruct (deepScrape_exhausted query freshState) as [Hok | [Hset Hall]].
  { reflexivity. }
  { destruct Hok as (snip & sc & src & ans & d & Ho). rewrite Ho in Hfound.
    discriminate Hfound. }
  split; [by apply Hall|].
  unfold settled, tracked in Hset.
  destruct (proj1 (replay_fetched _ _ _ _ _ Hset u) (Hall u Hu)) as [Hin | Hin];
    [by apply not_elem_of_empty in Hin | exact Hin].
Qed.

End Exhaustion.

Lemma miss_has_tried_every_candidate_witness :
  Toy.siteUrl ∈ visited (snd (run Toy.dullWorld (lit "zebra"))) /\
  Toy.siteUrl ∈ directs (history (snd (run Toy.dullWorld (lit "zebra")))).
Proof.
  apply (miss_has_tried_every_candidate Toy.dullWorld (lit "zebra")).
  - vm_compute. reflexivity.
  - vm_compute. constructor.
Defined.

(** ** The calls and the trace *)

Lemma told_same s s' :
  history s' = history s -> steps (debug s') = steps (debug s) -> told s s'.
Proof.
  intros Hh Ht. exists [], []. rewrite !app_nil_r. split; [exact Hh|]. split; [exact Ht|].
  constructor.
Qed.

Lemma told_trans s1 s2 s3 : told s1 s2 -> told s2 s3 -> told s1 s3.
Proof.
  intros (e1 & t1 & Hh1 & Ht1 & Hs1) (e2 & t2 & Hh2 & Ht2 & Hs2).
  exists (e1 ++ e2), (t1 ++ t2). rewrite Hh2, Hh1, Ht2, Ht1, !app_assoc.
  split; [reflexivity|]. split; [reflexivity|].
  rewrite omap_app. by apply sublist_app.
Qed.

Lemma told_ret {A : Type} (a : A) : steady told (mret a).
Proof. intros s. by apply told_same. Qed.

Lemma told_push step : steady told (push step).
Proof.
  intros s. exists [], [step]. simpl. rewrite app_nil_r.
  split; [reflexivity|]. split; [reflexivity|]. apply sublist_nil_l.
Qed.

Lemma told_visitedAdd u : steady told (visitedAdd u).
Proof.
  intros s. exists [EvVisit u], []. simpl. rewrite app_nil_r.
  split; [reflexivity|]. split; [reflexivity|]. constructor.
Qed.

Lemma told_visitedHas u : steady told (visitedHas u).
Proof. intros s. by apply told_same. Qed.

Lemma told_getDebug : steady told getDebug.
Proof. intros s. by apply told_same. Qed.

Lemma told_getVisited : steady told getVisited.
Proof. intros s. by apply told_same. Qed.

Lemma told_setSearchResults results : steady told (setSearchResults results).
Proof. intros s. by apply told_same. Qed.

(** A call that follows its announcement. *)
Lemma told_announced {B C : Type} (step : jsstring) (ev : Event)
    (reply : list Event -> Reply B) (f : Reply B -> M C) :
  announcement ev = Some step ->
  (forall r, steady told (f r)) ->
  steady told (push step;; r ← call ev reply; f r).
Proof.
  intros Hev Hf s. unfold mbind, M_bind, push, call. simpl.
  eapply told_trans; [|apply Hf].
  exists [ev], [step]. simpl. rewrite Hev.
  split; [reflexivity|]. split; [reflexivity|]. reflexivity.
Qed.

Ltac told_step :=
  first
    [ apply told_ret | apply told_push | apply told_visitedAdd
    | apply told_visitedHas | apply told_getDebug | apply told_getVisited
    | apply told_setSearchResults
    | apply (steady_bind told _ _ told_trans); [|intros ?] ].

Ltac told_cases :=
  repeat first
    [ told_step
    | match goal with
      | |- steady told (match ?x with _ => _ end) => destruct x
      | |- steady told (if ?b then _ else _) => destruct b
      | |- steady told (let _ := _ in _) => cbv zeta
      end ].

Section Told.
Context `{Platform} (W : World).

Lemma told_performSearch query : steady told (performSearch W query).
Proof.
  unfold performSearch. destruct (wellFormed query); cbn [negb].
  - apply told_announced; [reflexivity|]. intros r. told_cases.
  - told_cases.
Qed.

Lemma told_fetchHtmlRequests url : steady told (fetchHtmlRequests W url).
Proof.
  unfold fetchHtmlRequests. apply told_announced; [reflexivity|]. intros r. told_cases.
Qed.

Lemma told_fetchHtmlWithScraper url : steady told (fetchHtmlWithScraper W url).
Proof.
  unfold fetchHtmlWithScraper. apply told_announced; [reflexivity|]. intros r. told_cases.
Qed.

Lemma told_extractFromJsRuntime url query : steady told (extractFromJsRuntime W url query).
Proof.
  unfold extractFromJsRuntime.
  apply (steady_bind told _ _ told_trans); [apply told_push|]. intros ?.
  apply (steady_bind told _ _ told_trans); [apply told_fetchHtmlWithScraper|].
  intros fetched. told_cases.
Qed.

Lemma told_generateAIAnswer query context : steady told (generateAIAnswer W query context).
Proof.
  unfold generateAIAnswer. apply told_announced; [reflexivity|]. intros r. told_cases.
Qed.

Lemma told_win query snip sc src step :
  steady told (push step;; o ← succeed W query snip sc src; mret (Some o)).
Proof.
  apply (steady_bind told _ _ told_trans); [apply told_push|]. intros ?.
  unfold succeed.
  apply (steady_bind told _ _ told_trans); [|intros ?; apply told_ret].
  apply (steady_bind told _ _ told_trans); [apply told_generateAIAnswer|]. intros ?.
  told_cases.
Qed.

Lemma told_tryInternalLink query u : steady told (tryInternalLink W query u).
Proof.
  unfold tryInternalLink.
  apply (steady_bind told _ _ told_trans); [apply told_fetchHtmlRequests|]. intros html.
  cbv zeta. destruct (match html with Some _ => _ | None => _ end); [told_cases|].
  apply (steady_bind told _ _ told_trans); [apply told_fetchHtmlWithScraper|].
  intros scraped. destruct (match scraped with Some _ => _ | None => _ end); [told_cases|].
  apply (steady_bind told _ _ told_trans); [apply told_extractFromJsRuntime|].
  intros res. told_cases.
Qed.

Lemma told_checkLinks query links : steady told (checkLinks W query links).
Proof.
  induction links as [|u links IH]; simpl; [apply told_ret|].
  apply (steady_bind told _ _ told_trans); [apply told_visitedHas|]. intros [|]; [exact IH|].
  apply (steady_bind told _ _ told_trans); [apply told_visitedAdd|]. intros ?.
  apply (steady_bind told _ _ told_trans); [apply told_tryInternalLink|].
  intros [r|]; [apply told_ret | exact IH].
Qed.

Lemma told_crawlInternalLinks baseUrl baseHtml query :
  steady told (crawlInternalLinks W baseUrl baseHtml query).
Proof.
  unfold crawlInternalLinks. simpl.
  apply (steady_bind told _ _ told_trans); [apply told_push|]. intros ?.
  apply (steady_bind told _ _ told_trans); [apply told_getVisited|]. intros seen.
  destruct (discoverLinks baseUrl baseHtml seen).
  - apply (steady_bind told _ _ told_trans); [apply told_push|]. intros ?.
    apply told_checkLinks.
  - told_cases.
Qed.

Lemma told_processUrl query u : steady told (processUrl W query u).
Proof.
  unfold processUrl.
  apply (steady_bind told _ _ told_trans); [apply told_push|]. intros ?.
  apply (steady_bind told _ _ told_trans); [apply told_fetchHtmlRequests|].
  intros fastHtml. cbv zeta.
  destruct (match fastHtml with Some _ => _ | None => _ end); [apply told_win|].
  apply (steady_bind told _ _ told_trans); [apply told_fetchHtmlWithScraper|].
  intros scrapedHtml.
  destruct (match scrapedHtml with Some _ => _ | None => _ end); [apply told_win|].
  apply (steady_bind told _ _ told_trans); [apply told_extractFromJsRuntime|].
  intros [res|]; [apply told_win|].
  destruct (orElse scrapedHtml fastHtml) as [html|]; [|apply told_ret].
  destruct (isTruthy (Some html) && _); [|apply told_ret].
  apply (steady_bind told _ _ told_trans); [apply told_crawlInternalLinks|].
  intros [r|]; [apply told_win | apply told_ret].
Qed.

Lemma told_processUrls query urls : steady told (processUrls W query urls).
Proof.
  induction urls as [|u urls IH]; simpl; [apply told_ret|].
  apply (steady_bind told _ _ told_trans); [apply told_visitedHas|]. intros [|]; [exact IH|].
  apply (steady_bind told _ _ told_trans); [apply told_visitedAdd|]. intros ?.
  apply (steady_bind told _ _ told_trans); [apply told_processUrl|].
  intros [o|]; [apply told_ret | exact IH].
Qed.

(** X19: every call of a run is announced in the trace: the steps added
    by the run contain, in the order of the calls, the step that is
    pushed before each search, direct fetch, rendered fetch and call for
    an answer. *)
Theorem trace_announces_every_call (query : jsstring) (s : State) :
  exists evs t,
    history (snd (deepScrape W query s)) = history s ++ evs /\
    steps (debug (snd (deepScrape W query s))) = steps (debug s) ++ t /\
    sublist (omap announcement evs) t.
Proof.
  cut (steady told (deepScrape W query)). { intros Hd. exact (Hd s). }
  unfold deepScrape.
  apply (steady_bind told _ _ told_trans); [apply told_push|]. intros ?.
  apply (steady_bind told _ _ told_trans); [apply told_performSearch|]. intros results.
  apply (steady_bind told _ _ told_trans); [apply told_setSearchResults|]. intros ?.
  destruct (Nat.eqb _ 0); [told_cases|].
  apply (steady_bind told _ _ told_trans); [apply told_processUrls|].
  intros [o|]; told_cases.
Qed.

End Told.
